(** * Citation-to-highlight resolution: the highlight route handlers

    A shallow embedding of the two revisions of the highlight endpoint:

    - [DirectFirst]: src/app/api/highlight/route.ts, which tries the direct
      matcher first and gates the model's span with a raw [includes];
    - [LlmFirst]: the revision with [normalizeForComparison], the
      [metadata.loc.pageNumber] retry and the diagnostic logging, which asks
      the model first and falls back to the direct matcher.

    JavaScript strings are sequences of UTF-16 code units, numbers are
    rationals extended with the two infinities and NaN, and the values that
    reach the handler untyped (the request body, the model's reply) are
    [jsval] trees.  The engine's own tables ([toLowerCase], the regular
    expression case fold, [Number(...)], number printing, [JSON.parse]) are
    the fields of an [Engine], and the two collaborators (chunk store,
    language model) those of a [World]: every theorem holds for whatever
    they return.

    The caller and the consumer of the endpoint are embedded as well:
    [ChatPage] (src/app/[orgUrl]/chat/page.tsx) cuts the snippet of a
    citation out of the answer, posts the request and keeps the response as
    the state of the viewer; [PdfViewer] (src/app/components/PdfViewer.tsx)
    pages through the document and marks the spans of the text layer.  Of
    these two the citation patterns, the rendering and the loading of the
    document are left out; the text layer is the list of the texts of its
    spans.

    Outside the model: the text of the prompt other than the values
    interpolated in it, what the log entries print (only the exceptions their
    arguments can raise are kept), and a failure of [createClient], which is
    given both of its settings whenever it is called. *)

From Stdlib Require Import Ascii String DecimalString.
From Stdlib Require Import List NArith ZArith QArith Bool Lia.
Import ListNotations.

Set Warnings "-register-all".

(** ** Strings as code-unit sequences *)

Definition jsstring := list N.

(** A string literal of the source, given by its ASCII text. *)
Definition lit (s : string) : jsstring :=
  map N_of_ascii (list_ascii_of_string s).

Fixpoint jsstring_eqb (a b : jsstring) : bool :=
  match a, b with
  | [], [] => true
  | x :: a', y :: b' => N.eqb x y && jsstring_eqb a' b'
  | _, _ => false
  end.

Open Scope N_scope.

(** [\s] of a regular expression and the set removed by [String.prototype.trim]:
    WhiteSpace and LineTerminator of the language specification. *)
Definition isWhiteSpace (c : N) : bool :=
  ((9 <=? c) && (c <=? 13)) || (c =? 32) || (c =? 160) || (c =? 5760)
  || ((8192 <=? c) && (c <=? 8202)) || (c =? 8232) || (c =? 8233)
  || (c =? 8239) || (c =? 8287) || (c =? 12288) || (c =? 65279).

(** The class [[\s\u00A0]] of [normalizeForComparison]. *)
Definition isSpaceOrNbsp (c : N) : bool := isWhiteSpace c || (c =? 160).

(** The class of dash variants U+2010 .. U+2015 of [normalizeForComparison]. *)
Definition isDashVariant (c : N) : bool := (8208 <=? c) && (c <=? 8213).

Definition SPACE : N := 32.
Definition HYPHEN : N := 45.

(** [value.replace(/C+/g, rep)]: every maximal run of characters of class [C]
    is replaced by [rep]; the replacement is emitted at the last character of
    the run. *)
Fixpoint replaceRuns (cls : N -> bool) (rep : jsstring) (s : jsstring) : jsstring :=
  match s with
  | [] => []
  | c :: r =>
      if cls c then
        match r with
        | d :: _ => if cls d then replaceRuns cls rep r
                    else rep ++ replaceRuns cls rep r
        | [] => rep
        end
      else c :: replaceRuns cls rep r
  end.

(** [value.replace(/[C]/g, rep)] for a one-character class. *)
Definition replaceEach (cls : N -> bool) (rep : N) (s : jsstring) : jsstring :=
  map (fun c => if cls c then rep else c) s.

Fixpoint trimStart (s : jsstring) : jsstring :=
  match s with
  | [] => []
  | c :: r => if isWhiteSpace c then trimStart r else s
  end.

Fixpoint trimEnd (s : jsstring) : jsstring :=
  match s with
  | [] => []
  | c :: r =>
      match trimEnd r with
      | [] => if isWhiteSpace c then [] else [c]
      | r' => c :: r'
      end
  end.

(** [String.prototype.trim]. *)
Definition trim (s : jsstring) : jsstring := trimEnd (trimStart s).

Fixpoint startsWith (s sub : jsstring) : bool :=
  match sub, s with
  | [], _ => true
  | _ :: _, [] => false
  | x :: sub', c :: s' => (c =? x) && startsWith s' sub'
  end.

(** [String.prototype.includes]. *)
Fixpoint includes (s sub : jsstring) : bool :=
  startsWith s sub ||
  match s with
  | [] => false
  | _ :: s' => includes s' sub
  end.

(** [sub] occurs in [s] as a contiguous run of code units. *)
Definition substring_of (sub s : jsstring) : Prop :=
  exists pre post, s = pre ++ sub ++ post.

(** ** Untyped values

    The request body and the model's reply reach the handler untyped.
    Numbers are the rationals (every finite double is one) with the two
    infinities and NaN; objects are association lists read at their first
    matching key. *)

Inductive jsnum :=
| NFin (q : Q)
| NInf (negative : bool)
| NNaN.

Inductive jsval :=
| VUndef
| VNull
| VBool (b : bool)
| VNum (n : jsnum)
| VStr (s : jsstring)
| VArr (items : list jsval)
| VObj (fields : list (jsstring * jsval)).

Definition isFiniteNum (n : jsnum) : bool :=
  match n with NFin _ => true | _ => false end.

(** ToBoolean. *)
Definition truthy (v : jsval) : bool :=
  match v with
  | VUndef | VNull => false
  | VBool b => b
  | VNum (NFin q) => negb (Qeq_bool q 0)
  | VNum (NInf _) => true
  | VNum NNaN => false
  | VStr s => match s with [] => false | _ => true end
  | VArr _ | VObj _ => true
  end.

Definition isNullish (v : jsval) : bool :=
  match v with VUndef | VNull => true | _ => false end.

(** [a ?? b]. *)
Definition nullishOr (a b : jsval) : jsval := if isNullish a then b else a.

Fixpoint lookupField (fields : list (jsstring * jsval)) (key : jsstring) : option jsval :=
  match fields with
  | [] => None
  | (k, v) :: rest => if jsstring_eqb k key then Some v else lookupField rest key
  end.

(** [key in v] for a value whose [typeof] is ['object'] and that is not null. *)
Definition hasField (v : jsval) (key : jsstring) : bool :=
  match v with
  | VObj fields => match lookupField fields key with Some _ => true | None => false end
  | _ => false
  end.

(** [v.key] where [v] is neither [null] nor [undefined]: only objects carry
    the keys the handler reads. *)
Definition getField (v : jsval) (key : jsstring) : jsval :=
  match v with
  | VObj fields => match lookupField fields key with Some x => x | None => VUndef end
  | _ => VUndef
  end.

(** ** Exceptions *)

Inductive result (A : Type) :=
| Ok (a : A)
| Throw.
Arguments Ok {A} a.
Arguments Throw {A}.

Definition bindR {A B} (m : result A) (k : A -> result B) : result B :=
  match m with Ok a => k a | Throw => Throw end.

Notation "x <- m ;; k" := (bindR m (fun x => k))
  (at level 61, m at next level, right associativity).

(** [v.key] for an arbitrary [v]: a TypeError on [null] and [undefined]. *)
Definition readField (v : jsval) (key : jsstring) : result jsval :=
  if isNullish v then Throw else Ok (getField v key).

(** [v.trim()] for an arbitrary [v]: a TypeError unless [v] is a string. *)
Definition callTrim (v : jsval) : result jsstring :=
  match v with VStr s => Ok (trim s) | _ => Throw end.

(** ** The engine

    What the handler takes from the JavaScript engine and not from the
    repository. *)

Record Engine := {
  (** [String.prototype.toLowerCase] *)
  toLowerCase : jsstring -> jsstring;
  (** the fold [Canonicalize] of a regular expression with the [i] flag *)
  canonicalize : N -> N;
  (** [Number.prototype.toString()] *)
  numberToString : jsnum -> jsstring;
  (** [Number(s)] for a string [s] *)
  stringToNumber : jsstring -> jsnum;
  (** ToString of a non-string element in [Array.prototype.join] *)
  valueToString : jsval -> jsstring;
  (** [JSON.parse]; [None] when it throws a SyntaxError *)
  JSON_parse : jsstring -> option jsval
}.

(** ** The comparison normalizer *)

(** The three steps of [normalizeForComparison] that precede the case
    conversion. *)
Definition normalizeSpacing (value : jsstring) : jsstring :=
  trim (replaceEach isDashVariant HYPHEN (replaceRuns isSpaceOrNbsp [SPACE] value)).

Definition normalizeForComparison (E : Engine) (value : jsstring) : jsstring :=
  toLowerCase E
    (trim
       (replaceEach isDashVariant HYPHEN
          (replaceRuns isSpaceOrNbsp [SPACE] value))).

(** ** The whitespace-tolerant pattern of the direct matcher *)

(** The class of [escapeForRegex]: one of - / \ ^ $ * + ? . ( ) | [ ] { }. *)
Definition isEscaped (c : N) : bool :=
  (c =? 45) || (c =? 47) || (c =? 92) || (c =? 94) || (c =? 36) || (c =? 42)
  || (c =? 43) || (c =? 63) || (c =? 46) || (c =? 40) || (c =? 41) || (c =? 124)
  || (c =? 91) || (c =? 93) || (c =? 123) || (c =? 125).

Definition BACKSLASH : N := 92.

(** [value.replace(/[-\/\\^$*+?.()|[\]{}]/g, '\\$&')]. *)
Definition escapeForRegex (value : jsstring) : jsstring :=
  flat_map (fun c => if isEscaped c then [BACKSLASH; c] else [c]) value.

(** The text handed to [new RegExp]:
    [escapeForRegex(cleanedSnippet).replace(/\s+/g, '\\s+')]. *)
Definition buildPattern (cleanedSnippet : jsstring) : jsstring :=
  replaceRuns isWhiteSpace [BACKSLASH; 115; 43] (escapeForRegex cleanedSnippet).

(** The regular expressions [buildPattern] can denote: a sequence of literal
    characters and of [\s+]. *)
Inductive atom :=
| Char (c : N)
| SpacePlus.

Definition regex := list atom.

(** Characters with a meaning of their own in a pattern. *)
Definition isSyntaxCharacter (c : N) : bool :=
  (c =? 94) || (c =? 36) || (c =? 92) || (c =? 46) || (c =? 42) || (c =? 43)
  || (c =? 63) || (c =? 40) || (c =? 41) || (c =? 91) || (c =? 93) || (c =? 123)
  || (c =? 125) || (c =? 124).

(** The pattern parser of [new RegExp], on the fragment above: an escaped
    punctuation character and an ordinary character stand for themselves,
    [\s+] is a run of white space.  [None] is a SyntaxError or a pattern
    outside the fragment; [compileRegex_buildPattern] shows that neither
    happens on a pattern of [buildPattern]. *)
Fixpoint compileRegex (pattern : jsstring) : option regex :=
  match pattern with
  | [] => Some []
  | c :: r =>
      if c =? BACKSLASH then
        match r with
        | [] => None
        | e :: r' =>
            if e =? 115 then
              match r' with
              | q :: r'' =>
                  if q =? 43 then option_map (cons SpacePlus) (compileRegex r'')
                  else None
              | [] => None
              end
            else if isEscaped e then option_map (cons (Char e)) (compileRegex r')
            else None
        end
      else if isSyntaxCharacter c then None
      else option_map (cons (Char c)) (compileRegex r)
  end.

Definition newRegExp (pattern : jsstring) : result regex :=
  match compileRegex pattern with
  | Some re => Ok re
  | None => Throw
  end.

(** The greedy quantifier of [\s+] after its first character: as many white
    space characters as the rest of the pattern [k] allows, longest first. *)
Fixpoint moreSpaces (k : jsstring -> option jsstring) (t : jsstring) : option jsstring :=
  match t with
  | y :: t' =>
      if isWhiteSpace y then
        match moreSpaces k t' with
        | Some m => Some (y :: m)
        | None => k t
        end
      else k t
  | [] => k []
  end.

(** The text matched by [re] at the start of the input, under the [i] flag. *)
Fixpoint matchHere (E : Engine) (re : regex) : jsstring -> option jsstring :=
  match re with
  | [] => fun _ => Some []
  | Char c :: re' => fun s =>
      match s with
      | x :: s' =>
          if canonicalize E x =? canonicalize E c
          then option_map (cons x) (matchHere E re' s')
          else None
      | [] => None
      end
  | SpacePlus :: re' => fun s =>
      match s with
      | x :: s' =>
          if isWhiteSpace x
          then option_map (cons x) (moreSpaces (matchHere E re') s')
          else None
      | [] => None
      end
  end.

(** [content.match(regex)?.[0]] for a regex without the [g] flag: the
    leftmost match. *)
Fixpoint regexSearch (E : Engine) (re : regex) (content : jsstring) : option jsstring :=
  match matchHere E re content with
  | Some m => Some m
  | None =>
      match content with
      | [] => None
      | _ :: rest => regexSearch E re rest
      end
  end.

(** ** Chunks and highlights *)

Record ChunkRecord := {
  id : Z;
  content : option jsstring;
  metadata : jsval
}.

Record Highlight := {
  text : jsstring;
  chunkId : Z
}.

(** [chunk.content ?? '']. *)
Definition contentOf (chunk : ChunkRecord) : jsstring :=
  match content chunk with Some s => s | None => [] end.

Definition isEmpty (s : jsstring) : bool :=
  match s with [] => true | _ => false end.

(** ** Serialization of the candidate list *)

Record SerializedChunk := {
  s_id : Z;
  s_text : jsstring;
  s_page : option jsnum;
  s_source : option jsstring
}.

Definition toNumberOrNull (E : Engine) (value : jsval) : option jsnum :=
  match value with
  | VNum n => if isFiniteNum n then Some n else None
  | VStr s =>
      let parsed := stringToNumber E s in
      if isFiniteNum parsed then Some parsed else None
  | _ => None
  end.

Definition toStringOrNull (value : jsval) : option jsstring :=
  match value with
  | VStr s => Some s
  | _ => None
  end.

(** [v?.key]. *)
Definition getFieldOptional (v : jsval) (key : jsstring) : jsval :=
  if isNullish v then VUndef else getField v key.

Definition serializeChunk (E : Engine) (chunk : ChunkRecord) : SerializedChunk :=
  let metadata := nullishOr (metadata chunk) (VObj []) in
  let pageValue := toNumberOrNull E (getField metadata (lit "page")) in
  let locPage :=
    toNumberOrNull E (getFieldOptional (getField metadata (lit "loc")) (lit "pageNumber")) in
  {| s_id := id chunk;
     s_text := contentOf chunk;
     s_page := match pageValue with Some n => Some n | None => locPage end;
     s_source := toStringOrNull (getField metadata (lit "source")) |}.

Definition serializeChunks (E : Engine) (chunks : list ChunkRecord) : list SerializedChunk :=
  map (serializeChunk E) chunks.

(** ** The collaborators *)

(** The JSON paths the handlers filter on: [metadata->>source],
    [metadata->>page], [metadata->loc->>pageNumber], [metadata->>orgUrl]. *)
Inductive Column :=
| ColSource
| ColPage
| ColLocPageNumber
| ColOrgUrl.

(** A query on [document_chunks] selecting [id, content, metadata]: the
    equality filters in the order the builder received them, and the row cap. *)
Record Query := {
  filters : list (Column * jsval);
  limit : option nat
}.

(** The [{ data, error }] a query resolves to. *)
Record QueryResult := {
  data : option (list ChunkRecord);
  error : bool
}.

(** The values interpolated in the prompt template: the answer snippet and,
    for each candidate, its zero-based index, its id and [content ?? ''].
    The fixed instruction text around them is left out. *)
Record Prompt := {
  promptSnippet : jsval;
  promptChunks : list (nat * Z * jsstring)
}.

Fixpoint describeChunks (index : nat) (chunks : list ChunkRecord) : list (nat * Z * jsstring) :=
  match chunks with
  | [] => []
  | chunk :: rest => (index, id chunk, contentOf chunk) :: describeChunks (S index) rest
  end.

Definition buildLlmPrompt (answerSnippet : jsval) (chunks : list ChunkRecord) : Prompt :=
  {| promptSnippet := answerSnippet; promptChunks := describeChunks 0 chunks |}.

(** What [new ChatOpenAI(...)] followed by [llm.invoke(...)] gives: an
    exception (network, authentication, quota) or a message whose [content]
    is not typed. *)
Inductive LlmOutcome :=
| LlmThrows
| LlmReplies (content : jsval).

(** The process environment and the two collaborators. *)
Record World := {
  (** both Supabase variables are set *)
  supabaseConfigured : bool;
  (** [process.env.OPENAI_API_KEY] is set *)
  openaiKey : bool;
  store : Query -> QueryResult;
  llmInvoke : Prompt -> LlmOutcome
}.

(** Store queries are recorded in the order they are awaited. *)
Definition Traced (A : Type) : Type := list Query -> A * list Query.

Definition retT {A} (a : A) : Traced A := fun tr => (a, tr).

Definition bindT {A B} (m : Traced A) (k : A -> Traced B) : Traced B :=
  fun tr => let (a, tr') := m tr in k a tr'.

Notation "x <~ m ;; k" := (bindT m (fun x => k))
  (at level 61, m at next level, right associativity).

Definition await (W : World) (q : Query) : Traced QueryResult :=
  fun tr => (store W q, tr ++ [q]).

(** [{query}.eq('metadata->>orgUrl', orgUrl)] under [if (orgUrl)]. *)
Definition withOrg (orgUrl : jsval) (q : Query) : Query :=
  if truthy orgUrl
  then {| filters := filters q ++ [(ColOrgUrl, orgUrl)]; limit := limit q |}
  else q.

(** Tier 1: the exact page. *)
Definition pageQuery (filename pageValue orgUrl : jsval) : Query :=
  withOrg orgUrl {| filters := [(ColSource, filename); (ColPage, pageValue)]; limit := None |}.

(** Tier 2: the page number of the loader's location object. *)
Definition locQuery (filename : jsval) (pageNumberFallback : jsstring) (orgUrl : jsval) : Query :=
  withOrg orgUrl
    {| filters := [(ColSource, filename); (ColLocPageNumber, VStr pageNumberFallback)];
       limit := None |}.

(** Tier 3: any page of the file, at most eight rows. *)
Definition fallbackQuery (filename orgUrl : jsval) : Query :=
  withOrg orgUrl {| filters := [(ColSource, filename)]; limit := Some 8%nat |}.

(** [data ?? []]. *)
Definition rowsOf (r : QueryResult) : list ChunkRecord :=
  match data r with Some rows => rows | None => [] end.

(** ** Responses *)

Inductive ErrorMessage :=
| FilenameAndPageRequired
| MissingSupabaseConfiguration
| FailedToFetchChunks
| InternalServerError.

Inductive Response :=
| Resp200 (highlight : option Highlight) (chunks : list SerializedChunk)
| Resp400 (message : ErrorMessage)
| Resp500 (message : ErrorMessage).

Definition statusOf (r : Response) : Z :=
  match r with
  | Resp200 _ _ => 200
  | Resp400 _ => 400
  | Resp500 _ => 500
  end.

(** ** The model's reply *)

(** An element of the array joined by [parseLlmResponse]. *)
Definition partText (E : Engine) (part : jsval) : jsstring :=
  match part with
  | VStr s => s
  | VObj _ =>
      if hasField part (lit "text") then
        match nullishOr (getField part (lit "text")) (VStr []) with
        | VStr s => s
        | v => valueToString E v
        end
      else []
  | _ => []
  end.

Definition parseLlmResponse (E : Engine) (raw : jsval) : jsval :=
  if negb (truthy raw) then VNull
  else
    match raw with
    | VStr _ => raw
    | VArr parts => VStr (concat (map (partText E) parts))
    | VObj _ =>
        if hasField raw (lit "text")
        then nullishOr (getField raw (lit "text")) (VStr [])
        else VNull
    | _ => VNull
    end.

Open Scope Z_scope.

(** [String.prototype.indexOf] and [lastIndexOf] for one character. *)
Fixpoint indexOf (s : jsstring) (c : N) : Z :=
  match s with
  | [] => -1
  | x :: r =>
      if (x =? c)%N then 0
      else let i := indexOf r c in if i <? 0 then -1 else i + 1
  end.

Fixpoint lastIndexOf (s : jsstring) (c : N) : Z :=
  match s with
  | [] => -1
  | x :: r =>
      let i := lastIndexOf r c in
      if 0 <=? i then i + 1
      else if (x =? c)%N then 0 else -1
  end.

(** [s.slice(from, to)] for [0 <= from <= to]. *)
Definition slice (s : jsstring) (from to : Z) : jsstring :=
  firstn (Z.to_nat (to - from)) (skipn (Z.to_nat from) s).

(** [n >= 0]. *)
Definition numGe0 (n : jsnum) : bool :=
  match n with
  | NFin q => Qle_bool 0 q
  | NInf negative => negb negative
  | NNaN => false
  end.

(** [n < len] for an array length. *)
Definition numLtLength (n : jsnum) (len : nat) : bool :=
  match n with
  | NFin q => negb (Qle_bool (inject_Z (Z.of_nat len)) q)
  | NInf negative => negative
  | NNaN => false
  end.

(** [chunks[n]]: an element when [n] is an array index, [undefined]
    otherwise. *)
Definition elementAt (chunks : list ChunkRecord) (n : jsnum) : option ChunkRecord :=
  match n with
  | NFin q =>
      let r := Qred q in
      if (Qden r =? 1)%positive && (0 <=? Qnum r)
      then nth_error chunks (Z.to_nat (Qnum r))
      else None
  | _ => None
  end.

Definition LBRACE : N := 123.
Definition RBRACE : N := 125.

(** The body of the [try] block around the model call; [gate content exactText]
    is the test a revision applies to the proposed span. *)
Definition extractSpan (gate : jsstring -> jsstring -> bool)
    (E : Engine) (W : World) (answerSnippet : jsval) (chunks : list ChunkRecord)
    : result (option Highlight) :=
  match llmInvoke W (buildLlmPrompt answerSnippet chunks) with
  | LlmThrows => Throw
  | LlmReplies reply =>
      let rawContent := parseLlmResponse E reply in
      if truthy rawContent then
        trimmed <- callTrim rawContent ;;
        let jsonStart := indexOf trimmed LBRACE in
        let jsonEnd := lastIndexOf trimmed RBRACE in
        if (0 <=? jsonStart) && (jsonStart <=? jsonEnd) then
          let maybeJson := slice trimmed jsonStart (jsonEnd + 1) in
          parsed <- match JSON_parse E maybeJson with Some v => Ok v | None => Throw end ;;
          chunkIndex <- readField parsed (lit "chunkIndex") ;;
          match chunkIndex with
          | VNum n =>
              if numGe0 n && numLtLength n (length chunks) then
                match getField parsed (lit "exactText") with
                | VStr exactText =>
                    targetChunk <- match elementAt chunks n with
                                   | Some c => Ok c
                                   | None => Throw
                                   end ;;
                    let content := contentOf targetChunk in
                    if negb (isEmpty exactText) && gate content exactText
                    then Ok (Some {| text := exactText; chunkId := id targetChunk |})
                    else Ok None
                | _ => Ok None
                end
              else Ok None
          | _ => Ok None
          end
        else Ok None
      else Ok None
  end.

(** [try { ... } catch (llmError) { console.error(...) }]. *)
Definition catchToNull (r : result (option Highlight)) : option Highlight :=
  match r with
  | Ok h => h
  | Throw => None
  end.

Definition isNil {A} (l : list A) : bool :=
  match l with [] => true | _ => false end.

(** [const { filename, page, answerSnippet = '', orgUrl } = body ?? {}]. *)
Record Fields := {
  filename : jsval;
  page : jsval;
  answerSnippet : jsval;
  orgUrl : jsval
}.

Definition destructure (body : jsval) : Fields :=
  let source := nullishOr body (VObj []) in
  {| filename := getField source (lit "filename");
     page := getField source (lit "page");
     answerSnippet :=
       match getField source (lit "answerSnippet") with
       | VUndef => VStr []
       | v => v
       end;
     orgUrl := getField source (lit "orgUrl") |}.

Definition isUndefined (v : jsval) : bool :=
  match v with VUndef => true | _ => false end.

(** [typeof page === 'number' ? page.toString() : page]. *)
Definition stringifyPage (E : Engine) (page : jsval) : jsval :=
  match page with
  | VNum n => VStr (numberToString E n)
  | _ => page
  end.

(** [catch (error) { ... status: 500 }] around the whole handler. *)
Definition catchTo500 (r : result Response) : Response :=
  match r with
  | Ok response => response
  | Throw => Resp500 InternalServerError
  end.

(** ** The revision of src/app/api/highlight/route.ts *)

Module DirectFirst.

(** The [for] loop of [findDirectMatch]. *)
Fixpoint scanChunks (E : Engine) (cleanedSnippet : jsstring) (chunks : list ChunkRecord)
    : result (option Highlight) :=
  match chunks with
  | [] => Ok None
  | chunk :: rest =>
      let content := contentOf chunk in
      if isEmpty content then scanChunks E cleanedSnippet rest
      else if includes content cleanedSnippet
      then Ok (Some {| text := cleanedSnippet; chunkId := id chunk |})
      else
        regex <- newRegExp (buildPattern cleanedSnippet) ;;
        match regexSearch E regex content with
        | Some m =>
            if isEmpty m then scanChunks E cleanedSnippet rest
            else Ok (Some {| text := m; chunkId := id chunk |})
        | None => scanChunks E cleanedSnippet rest
        end
  end.

Definition findDirectMatch (E : Engine) (chunks : list ChunkRecord) (snippet : jsval)
    : result (option Highlight) :=
  cleanedSnippet <- callTrim snippet ;;
  if isEmpty cleanedSnippet then Ok None
  else scanChunks E cleanedSnippet chunks.

(** The two queries of the handler; [None] is the [error] branch. *)
Definition locateChunks (W : World) (filename pageValue orgUrl : jsval)
    : Traced (option (list ChunkRecord)) :=
  initial <~ await W (pageQuery filename pageValue orgUrl) ;;
  if error initial then retT None
  else
    let chunks := rowsOf initial in
    if isNil chunks then
      fallback <~ await W (fallbackQuery filename orgUrl) ;;
      retT (Some (rowsOf fallback))
    else retT (Some chunks).

(** The raw gate [content.includes(parsed.exactText)]. *)
Definition gate (content exactText : jsstring) : bool := includes content exactText.

Definition llmStage (E : Engine) (W : World) (answerSnippet : jsval)
    (chunks : list ChunkRecord) : option Highlight :=
  if truthy answerSnippet && openaiKey W
  then catchToNull (extractSpan gate E W answerSnippet chunks)
  else None.

(** The handler from the located candidates on. *)
Definition resolve (E : Engine) (W : World) (answerSnippet : jsval)
    (chunks : list ChunkRecord) : result Response :=
  directMatch <- (if truthy answerSnippet
                  then findDirectMatch E chunks answerSnippet
                  else Ok None) ;;
  match directMatch with
  | Some h => Ok (Resp200 (Some h) (serializeChunks E chunks))
  | None => Ok (Resp200 (llmStage E W answerSnippet chunks) (serializeChunks E chunks))
  end.

(** [POST]; [body] is [None] when [request.json()] rejects. *)
Definition POST (E : Engine) (W : World) (body : option jsval) : Response * list Query :=
  match body with
  | None => (Resp500 InternalServerError, [])
  | Some b =>
      let f := destructure b in
      if negb (truthy (filename f)) || isUndefined (page f)
      then (Resp400 FilenameAndPageRequired, [])
      else if negb (supabaseConfigured W)
      then (Resp500 MissingSupabaseConfiguration, [])
      else
        let pageValue := stringifyPage E (page f) in
        let (located, trace) := locateChunks W (filename f) pageValue (orgUrl f) [] in
        match located with
        | None => (Resp500 FailedToFetchChunks, trace)
        | Some chunks =>
            if isNil chunks then (Resp200 None [], trace)
            else (catchTo500 (resolve E W (answerSnippet f) chunks), trace)
        end
  end.

End DirectFirst.

(** ** The revision with normalization, the location retry and logging *)

Module LlmFirst.

(** The [for] loop of [findDirectMatch]. *)
Fixpoint scanChunks (E : Engine) (cleanedSnippet normalizedSnippet : jsstring)
    (chunks : list ChunkRecord) : result (option Highlight) :=
  match chunks with
  | [] => Ok None
  | chunk :: rest =>
      let content := contentOf chunk in
      if isEmpty content then scanChunks E cleanedSnippet normalizedSnippet rest
      else
        let normalizedContent := normalizeForComparison E content in
        if includes normalizedContent normalizedSnippet then
          regex <- newRegExp (buildPattern cleanedSnippet) ;;
          Ok (Some {| text := match regexSearch E regex content with
                              | Some m => m
                              | None => cleanedSnippet
                              end;
                      chunkId := id chunk |})
        else scanChunks E cleanedSnippet normalizedSnippet rest
  end.

Definition findDirectMatch (E : Engine) (chunks : list ChunkRecord) (snippet : jsval)
    : result (option Highlight) :=
  cleanedSnippet <- callTrim snippet ;;
  if isEmpty cleanedSnippet then Ok None
  else
    let normalizedSnippet := normalizeForComparison E cleanedSnippet in
    if isEmpty normalizedSnippet then Ok None
    else scanChunks E cleanedSnippet normalizedSnippet chunks.

Definition isDigit (c : N) : bool := ((48 <=? c) && (c <=? 57))%N.

Fixpoint takeDigits (s : jsstring) : jsstring :=
  match s with
  | c :: r => if isDigit c then c :: takeDigits r else []
  | [] => []
  end.

(** [page.match(/\d+/)?.[0]]: the first maximal run of decimal digits. *)
Fixpoint matchDigits (s : jsstring) : option jsstring :=
  match s with
  | [] => None
  | c :: r => if isDigit c then Some (c :: takeDigits r) else matchDigits r
  end.

Definition pageNumberFallback (E : Engine) (page : jsval) : option jsstring :=
  match page with
  | VNum n => Some (numberToString E n)
  | VStr s => matchDigits s
  | _ => None
  end.

(** The three queries of the handler; [None] is the [error] branch. *)
Definition locateChunks (E : Engine) (W : World) (filename page orgUrl : jsval)
    : Traced (option (list ChunkRecord)) :=
  initial <~ await W (pageQuery filename (stringifyPage E page) orgUrl) ;;
  if error initial then retT None
  else
    let chunks := rowsOf initial in
    chunks <~ (if isNil chunks then
                 match pageNumberFallback E page with
                 | Some digits =>
                     if isEmpty digits then retT chunks
                     else
                       loc <~ await W (locQuery filename digits orgUrl) ;;
                       match data loc with
                       | Some (c :: cs) => retT (c :: cs)
                       | _ => retT chunks
                       end
                 | None => retT chunks
                 end
               else retT chunks) ;;
    if isNil chunks then
      fallback <~ await W (fallbackQuery filename orgUrl) ;;
      retT (Some (rowsOf fallback))
    else retT (Some chunks).

(** The arguments of the first [console.log]:
    [answerSnippet?.slice(0, 200) ?? ''] is a TypeError on a value that is
    neither nullish nor has a [slice] method. *)
Definition logRequest (answerSnippet : jsval) : result unit :=
  match answerSnippet with
  | VUndef | VNull | VStr _ | VArr _ => Ok tt
  | _ => Throw
  end.

(** The arguments of the candidate log, for one chunk:
    [chunk.metadata?.page ?? chunk.metadata.loc?.pageNumber ?? null]. *)
Definition logCandidate (chunk : ChunkRecord) : result unit :=
  if isNullish (getFieldOptional (metadata chunk) (lit "page"))
  then _ <- readField (metadata chunk) (lit "loc") ;; Ok tt
  else Ok tt.

Fixpoint logCandidates (chunks : list ChunkRecord) : result unit :=
  match chunks with
  | [] => Ok tt
  | chunk :: rest => _ <- logCandidate chunk ;; logCandidates rest
  end.

(** The normalized gate. *)
Definition gate (E : Engine) (content exactText : jsstring) : bool :=
  includes (normalizeForComparison E content) (normalizeForComparison E exactText).

Definition llmStage (E : Engine) (W : World) (answerSnippet : jsval)
    (chunks : list ChunkRecord) : option Highlight :=
  if openaiKey W
  then catchToNull (extractSpan (gate E) E W answerSnippet chunks)
  else None.

(** The handler from the located candidates on. *)
Definition resolve (E : Engine) (W : World) (answerSnippet : jsval)
    (chunks : list ChunkRecord) : result Response :=
  _ <- logCandidates chunks ;;
  highlightResult <- match llmStage E W answerSnippet chunks with
                     | Some h => Ok (Some h)
                     | None => findDirectMatch E chunks answerSnippet
                     end ;;
  Ok (Resp200 highlightResult (serializeChunks E chunks)).

(** [POST]; [body] is [None] when [request.json()] rejects. *)
Definition POST (E : Engine) (W : World) (body : option jsval) : Response * list Query :=
  match body with
  | None => (Resp500 InternalServerError, [])
  | Some b =>
      let f := destructure b in
      match logRequest (answerSnippet f) with
      | Throw => (Resp500 InternalServerError, [])
      | Ok _ =>
          if negb (truthy (filename f)) || isUndefined (page f)
          then (Resp400 FilenameAndPageRequired, [])
          else if negb (supabaseConfigured W)
          then (Resp500 MissingSupabaseConfiguration, [])
          else
            let (located, trace) := locateChunks E W (filename f) (page f) (orgUrl f) [] in
            match located with
            | None => (Resp500 FailedToFetchChunks, trace)
            | Some chunks =>
                if isNil chunks then (Resp200 None [], trace)
                else (catchTo500 (resolve E W (answerSnippet f) chunks), trace)
            end
      end
  end.

End LlmFirst.

(** ** The chat page: src/app/[orgUrl]/chat/page.tsx

    The caller of the handlers: it cuts the snippet of a citation out of the
    assistant's answer, posts it, and turns the response into the state of
    the viewer. *)

Module ChatPage.

(** [text.replace(/\s+/g, ' ').trim()]. *)
Definition cleanWhitespace (value : jsstring) : jsstring :=
  trim (replaceRuns isWhiteSpace [SPACE] value).

(** The class [[.!?]]. *)
Definition isSentenceEnd (c : N) : bool := ((c =? 46) || (c =? 33) || (c =? 63))%N.

(** Where the scan of [split(/(?<=[.!?])\s+/)] stands: in a piece, after a
    character that is or is not of [[.!?]], or in a separator. *)
Inductive SplitState :=
| InPiece (afterEnd : bool)
| InSeparator.

(** One more character of the piece being read. *)
Definition extend (c : N) (pieces : list jsstring) : list jsstring :=
  match pieces with
  | [] => [[c]]
  | p :: rest => (c :: p) :: rest
  end.

(** [s.split(/(?<=[.!?])\s+/)]: a separator is a maximal run of white space
    that starts right after one of [.!?]. *)
Fixpoint splitSentences (st : SplitState) (s : jsstring) : list jsstring :=
  match s with
  | [] => [[]]
  | c :: r =>
      match st with
      | InSeparator =>
          if isWhiteSpace c then splitSentences InSeparator r
          else extend c (splitSentences (InPiece (isSentenceEnd c)) r)
      | InPiece afterEnd =>
          if afterEnd && isWhiteSpace c then [] :: splitSentences InSeparator r
          else extend c (splitSentences (InPiece (isSentenceEnd c)) r)
      end
  end.

(** [s.split(sep)] for a separator of one character. *)
Fixpoint splitOn (sep : N) (s : jsstring) : list jsstring :=
  match s with
  | [] => [[]]
  | c :: r => if (c =? sep)%N then [] :: splitOn sep r else extend c (splitOn sep r)
  end.

(** [pieces.join(sep)]. *)
Fixpoint join (sep : jsstring) (pieces : list jsstring) : jsstring :=
  match pieces with
  | [] => []
  | [p] => p
  | p :: rest => p ++ sep ++ join sep rest
  end.

Definition maxWords : nat := 35.

Definition extractRepresentativeSnippet (value : jsstring) : jsstring :=
  let cleaned := cleanWhitespace value in
  if isEmpty cleaned then []
  else
    let sentenceSplits := splitSentences (InPiece false) cleaned in
    let candidate := trim (last sentenceSplits []) in
    if negb (isEmpty candidate) && (0 <? length candidate)%nat then candidate
    else
      let words := splitOn SPACE cleaned in
      if (maxWords <? length words)%nat
      then join [SPACE] (skipn (length words - maxWords) words)
      else cleaned.

(** An element of [getCitationMatches(paragraph)]: the matched text
    [match[0]] and the position [match.index].  The citation pattern itself
    is outside the model; the matches are given. *)
Record CitationMatch := {
  matched : jsstring;
  index : option Z
}.

(** [s.indexOf(sub)]. *)
Fixpoint firstIndex (s sub : jsstring) : Z :=
  if startsWith s sub then 0
  else
    match s with
    | [] => -1
    | _ :: r => let i := firstIndex r sub in if i <? 0 then -1 else i + 1
    end.

(** [s.indexOf(sub, position)]. *)
Definition indexOfFrom (s sub : jsstring) (position : Z) : Z :=
  let p := Z.to_nat (Z.min (Z.max position 0) (Z.of_nat (length s))) in
  let i := firstIndex (skipn p s) sub in
  if i <? 0 then -1 else Z.of_nat p + i.

Record CitationData := {
  citationText : jsstring;
  snippet : jsstring
}.

(** The [map] of [buildCitationData], with the variable [cursor] it
    updates. *)
Fixpoint citationDataFrom (paragraph : jsstring) (cursor : Z)
    (matches : list CitationMatch) : list CitationData :=
  match matches with
  | [] => []
  | m :: rest =>
      let matchIndex :=
        match index m with
        | Some i => i
        | None => indexOfFrom paragraph (matched m) cursor
        end in
      let snippetSource :=
        if 0 <=? matchIndex then slice paragraph cursor matchIndex else paragraph in
      let cursor' :=
        if 0 <=? matchIndex then matchIndex + Z.of_nat (length (matched m)) else cursor in
      {| citationText := matched m;
         snippet := extractRepresentativeSnippet snippetSource |}
      :: citationDataFrom paragraph cursor' rest
  end.

(** [buildCitationData]; [matches] is [getCitationMatches(paragraph)]. *)
Definition buildCitationData (paragraph : jsstring) (matches : list CitationMatch)
    : list CitationData :=
  citationDataFrom paragraph 0 matches.

(** A number after [JSON.stringify] and [request.json()]: NaN and the
    infinities are written as [null]. *)
Definition jsonNumber (n : jsnum) : jsval :=
  if isFiniteNum n then VNum n else VNull.

(** The body posted by [handleShowSource], as the handler receives it;
    [snippet] is [None] when the argument is left out. *)
Definition highlightRequest (orgUrl source : jsstring) (pageNumber : jsnum)
    (snippet : option jsstring) : jsval :=
  VObj [(lit "filename", VStr source);
        (lit "page", jsonNumber pageNumber);
        (lit "answerSnippet", VStr (match snippet with Some s => s | None => [] end));
        (lit "orgUrl", VStr orgUrl)].

(** The part of [pdfViewerState] that depends on the response. *)
Record ViewerState := {
  highlightSnippets : option (list jsstring);
  fallbackChunks : option (list jsstring)
}.

(** The state set before the request is sent. *)
Definition openedState : ViewerState :=
  {| highlightSnippets := None; fallbackChunks := None |}.

Definition isBlank (value : jsstring) : bool := isEmpty (trim value).

(** The state [handleShowSource] leaves, from the response of the handler;
    a response that is not [ok] leaves the viewer as opened. *)
Definition stateOfResponse (response : Response) : ViewerState :=
  match response with
  | Resp200 highlight chunks =>
      let rawFallback := filter (fun t => negb (isBlank t)) (map s_text chunks) in
      let fallback := if isNil rawFallback then None else Some rawFallback in
      let highlightText := option_map (fun h => trim (text h)) highlight in
      match highlightText with
      | Some t =>
          if isEmpty t then {| highlightSnippets := None; fallbackChunks := fallback |}
          else {| highlightSnippets := Some [t]; fallbackChunks := fallback |}
      | None => {| highlightSnippets := None; fallbackChunks := fallback |}
      end
  | _ => openedState
  end.

Definition handleShowSource (fetch : option jsval -> Response)
    (orgUrl source : jsstring) (pageNumber : jsnum) (snippet : option jsstring)
    : ViewerState :=
  stateOfResponse (fetch (Some (highlightRequest orgUrl source pageNumber snippet))).

End ChatPage.

(** ** The viewer: src/app/components/PdfViewer.tsx *)

Module PdfViewer.

(** [Math.max(prev - 1, 1)]; page numbers are integers, as [parseInt] and
    the document give them. *)
Definition goToPrevPage (prev : Z) : Z := Z.max (prev - 1) 1.

(** [Math.min(prev + 1, numPages || prev)]; [numPages] is [None] until the
    document is loaded. *)
Definition goToNextPage (numPages : option Z) (prev : Z) : Z :=
  Z.min (prev + 1)
        (match numPages with
         | Some n => if n =? 0 then prev else n
         | None => prev
         end).

(** [text.replace(/\s+/g, ' ').trim().toLowerCase()]. *)
Definition normalize (E : Engine) (value : jsstring) : jsstring :=
  toLowerCase E (trim (replaceRuns isWhiteSpace [SPACE] value)).

(** The set [highlighted], as the indices of its spans in insertion order,
    and the counter [totalHighlights]. *)
Record Layer := {
  highlighted : list nat;
  totalHighlights : nat
}.

Definition noHighlight : Layer := {| highlighted := []; totalHighlights := 0 |}.

(** [highlighted.has(span)]. *)
Definition has (st : Layer) (k : nat) : bool := existsb (Nat.eqb k) (highlighted st).

(** [highlightSpan(span); highlighted.add(span); totalHighlights += 1]. *)
Definition mark (k : nat) (st : Layer) : Layer :=
  {| highlighted := highlighted st ++ [k]; totalHighlights := S (totalHighlights st) |}.

(** The body of [spanSequence.forEach]. *)
Definition markNew (st : Layer) (k : nat) : Layer :=
  if has st k then st else mark k st.

(** The loop over [j]: [Some] sequence when the window matched, [None] when
    the loop broke off or ran out of spans. *)
Fixpoint growWindow (E : Engine) (normalizedSnippet : jsstring)
    (spanSequence : list nat) (combinedText : jsstring) (j : nat) (rest : list jsstring)
    : option (list nat) :=
  match rest with
  | [] => None
  | span :: rest' =>
      let normalizedSpan := normalize E span in
      if isEmpty normalizedSpan
      then growWindow E normalizedSnippet spanSequence combinedText (S j) rest'
      else
        let spanSequence := spanSequence ++ [j] in
        let combinedText := trim (combinedText ++ [SPACE] ++ normalizedSpan) in
        if (length normalizedSnippet <=? length combinedText)%nat then
          if includes combinedText normalizedSnippet then Some spanSequence else None
        else growWindow E normalizedSnippet spanSequence combinedText (S j) rest'
  end.

(** The loop over [i]; [rest] are the spans from index [i] on. *)
Fixpoint findWindow (E : Engine) (normalizedSnippet : jsstring) (i : nat)
    (rest : list jsstring) : option (list nat) :=
  match rest with
  | [] => None
  | _ :: rest' =>
      match growWindow E normalizedSnippet [] [] i rest with
      | Some spanSequence => Some spanSequence
      | None => findWindow E normalizedSnippet (S i) rest'
      end
  end.

(** The fallback loop of [highlightSnippet]; [rest] are the spans from index
    [k] on. *)
Fixpoint markPartial (E : Engine) (normalizedSnippet : jsstring) (k : nat)
    (rest : list jsstring) (st : Layer) : Layer :=
  match rest with
  | [] => st
  | span :: rest' =>
      if has st k then markPartial E normalizedSnippet (S k) rest' st
      else
        let normalizedSpan := normalize E span in
        if (3 <? length normalizedSpan)%nat && includes normalizedSnippet normalizedSpan
        then markPartial E normalizedSnippet (S k) rest' (mark k st)
        else markPartial E normalizedSnippet (S k) rest' st
  end.

Definition highlightSnippet (E : Engine) (spans : list jsstring) (st : Layer)
    (snippet : jsstring) : Layer :=
  let normalizedSnippet := normalize E snippet in
  if isEmpty normalizedSnippet then st
  else
    match findWindow E normalizedSnippet 0 spans with
    | Some spanSequence => fold_left markNew spanSequence st
    | None => markPartial E normalizedSnippet 0 spans st
    end.

(** The loop of [highlightChunk]. *)
Fixpoint markChunk (E : Engine) (normalizedChunk : jsstring) (k : nat)
    (rest : list jsstring) (st : Layer) : Layer :=
  match rest with
  | [] => st
  | span :: rest' =>
      let normalizedSpan := normalize E span in
      if (3 <? length normalizedSpan)%nat && includes normalizedChunk normalizedSpan
         && negb (has st k)
      then markChunk E normalizedChunk (S k) rest' (mark k st)
      else markChunk E normalizedChunk (S k) rest' st
  end.

Definition highlightChunk (E : Engine) (spans : list jsstring) (st : Layer)
    (chunk : jsstring) : Layer :=
  let normalizedChunk := normalize E chunk in
  if isEmpty normalizedChunk then st
  else markChunk E normalizedChunk 0 spans st.

(** [!list || list.length === 0]. *)
Definition missing (l : option (list jsstring)) : bool :=
  match l with
  | Some (_ :: _) => false
  | _ => true
  end.

Definition listOf (l : option (list jsstring)) : list jsstring :=
  match l with Some x => x | None => [] end.

(** [highlightTextLayer]: the highlights applied to the text layer, whose
    spans are given by their text content; [textLayer] is [None] when the
    page has no text layer yet. *)
Definition highlightTextLayer (E : Engine) (textLayer : option (list jsstring))
    (highlightSnippets fallbackChunks : option (list jsstring)) : Layer :=
  if missing highlightSnippets && missing fallbackChunks then noHighlight
  else
    match textLayer with
    | None => noHighlight
    | Some spans =>
        if negb (missing highlightSnippets)
        then fold_left (highlightSnippet E spans) (listOf highlightSnippets) noHighlight
        else if negb (missing fallbackChunks)
        then fold_left (highlightChunk E spans) (listOf fallbackChunks) noHighlight
        else noHighlight
    end.

End PdfViewer.

(** ** Both revisions at once *)

(** The two revisions, to state what they share once. *)
Inductive Revision :=
| RouteTs
| Normalizing.

Definition llmStageOf (r : Revision) : Engine -> World -> jsval -> list ChunkRecord -> option Highlight :=
  match r with
  | RouteTs => DirectFirst.llmStage
  | Normalizing => LlmFirst.llmStage
  end.

Definition gateOf (r : Revision) (E : Engine) : jsstring -> jsstring -> bool :=
  match r with
  | RouteTs => DirectFirst.gate
  | Normalizing => LlmFirst.gate E
  end.

Definition findDirectMatchOf (r : Revision) : Engine -> list ChunkRecord -> jsval -> result (option Highlight) :=
  match r with
  | RouteTs => DirectFirst.findDirectMatch
  | Normalizing => LlmFirst.findDirectMatch
  end.

Definition POSTOf (r : Revision) : Engine -> World -> option jsval -> Response * list Query :=
  match r with
  | RouteTs => DirectFirst.POST
  | Normalizing => LlmFirst.POST
  end.

(** The lookup a revision runs for the fields of a request. *)
Definition candidatesOf (r : Revision) (E : Engine) (W : World) (f : Fields)
    : option (list ChunkRecord) * list Query :=
  match r with
  | RouteTs =>
      DirectFirst.locateChunks W (filename f) (stringifyPage E (page f)) (orgUrl f) []
  | Normalizing => LlmFirst.locateChunks E W (filename f) (page f) (orgUrl f) []
  end.

(** ** Engines to run the model on

    Two engines on which the examples are evaluated.  Both fold and convert
    ASCII letters.  The second also knows the capital and small letters of
    the basic Greek block and lower-cases as [String.prototype.toLowerCase]
    is specified to: by the locale-insensitive mappings of the Unicode
    Character Database, those of SpecialCasing.txt included, whose
    Final_Sigma rule turns a capital sigma [U+03A3] into the final form
    [U+03C2] when a cased letter precedes it and none follows
    (case-ignorable characters skipped), and into [U+03C3] otherwise.  The
    regular expression fold of a character is its upper case.  The number
    printer and reader are exact on the integers and on digit strings, which
    is all the examples use, and [JSON.parse] is a table of the replies the
    examples need. *)

Definition isAsciiUpper (c : N) : bool := ((65 <=? c) && (c <=? 90))%N.
Definition isAsciiLower (c : N) : bool := ((97 <=? c) && (c <=? 122))%N.

Definition asciiLowerUnit (c : N) : N := if isAsciiUpper c then (c + 32)%N else c.
Definition asciiUpperUnit (c : N) : N := if isAsciiLower c then (c - 32)%N else c.

Definition isGreekCapital (c : N) : bool :=
  (((913 <=? c) && (c <=? 929)) || ((931 <=? c) && (c <=? 937)))%N.
Definition isGreekSmall (c : N) : bool := ((945 <=? c) && (c <=? 969))%N.

Definition CAPITAL_SIGMA : N := 931.
Definition FINAL_SIGMA : N := 962.
Definition SMALL_SIGMA : N := 963.

Definition greekLowerUnit (c : N) : N :=
  if isGreekCapital c then (c + 32)%N else asciiLowerUnit c.

Definition greekUpperUnit (c : N) : N :=
  if (c =? FINAL_SIGMA)%N then CAPITAL_SIGMA
  else if isGreekSmall c then (c - 32)%N
  else asciiUpperUnit c.

Definition isCased (c : N) : bool :=
  isAsciiUpper c || isAsciiLower c || isGreekCapital c || isGreekSmall c.

(** The ASCII members of Case_Ignorable: ' . : ^ and the grave accent. *)
Definition isCaseIgnorable (c : N) : bool :=
  ((c =? 39) || (c =? 46) || (c =? 58) || (c =? 94) || (c =? 96))%N.

(** A cased letter follows, case-ignorable characters skipped. *)
Fixpoint beforeCased (s : jsstring) : bool :=
  match s with
  | [] => false
  | d :: r => if isCaseIgnorable d then beforeCased r else isCased d
  end.

Fixpoint greekLowerFrom (afterCased : bool) (s : jsstring) : jsstring :=
  match s with
  | [] => []
  | c :: r =>
      (if (c =? CAPITAL_SIGMA)%N
       then if afterCased && negb (beforeCased r) then FINAL_SIGMA else SMALL_SIGMA
       else greekLowerUnit c)
      :: greekLowerFrom (if isCaseIgnorable c then afterCased else isCased c) r
  end.

Definition greekLower (s : jsstring) : jsstring := greekLowerFrom false s.

Definition printInteger (z : Z) : jsstring :=
  lit (NilZero.string_of_int (Z.to_int z)).

(** Exact on the integers; of another finite number only the integer part
    below it is printed. *)
Definition printNumber (n : jsnum) : jsstring :=
  match n with
  | NFin q => printInteger (Qnum (Qred q) / Zpos (Qden (Qred q)))
  | NInf negative => if negative then lit "-Infinity" else lit "Infinity"
  | NNaN => lit "NaN"
  end.

Definition isDecimalDigit (c : N) : bool := ((48 <=? c) && (c <=? 57))%N.

(** Exact on strings of decimal digits and on the empty string; other text
    is read as NaN. *)
Definition readNumber (s : jsstring) : jsnum :=
  if forallb isDecimalDigit s
  then NFin (inject_Z (Z.of_N (fold_left (fun acc c => (acc * 10 + (c - 48))%N) s 0%N)))
  else NNaN.

Definition asciiEngine (replies : list (jsstring * jsval)) : Engine :=
  {| toLowerCase := map asciiLowerUnit;
     canonicalize := asciiUpperUnit;
     numberToString := printNumber;
     stringToNumber := readNumber;
     valueToString := fun _ => lit "[object Object]";
     JSON_parse := lookupField replies |}.

Definition greekEngine (replies : list (jsstring * jsval)) : Engine :=
  {| toLowerCase := greekLower;
     canonicalize := greekUpperUnit;
     numberToString := printNumber;
     stringToNumber := readNumber;
     valueToString := fun _ => lit "[object Object]";
     JSON_parse := lookupField replies |}.

(** "  Foo<NBSP><TAB>Bar <EN DASH> BAZ " *)
Definition sampleText : jsstring :=
  (lit "  Foo" ++ [160; 9] ++ lit "Bar " ++ [8211] ++ lit " BAZ ")%N.

(** ** Inputs of the examples *)

Definition plainChunk (i : Z) (s : jsstring) : ChunkRecord :=
  {| id := i; content := Some s; metadata := VObj [(lit "source", VStr (lit "sales.pdf"))] |}.

(** Content "a<EN DASH>b" against the snippet "a-b". *)
Definition dashChunk : ChunkRecord := plainChunk 7 [97; 8211; 98]%N.
Definition dashSnippet : jsstring := lit "a-b".

(** Content [U+0391 U+03A3 U+0391] (capital alpha, sigma, alpha) against the
    snippet [U+03B1 U+03C3] (small alpha, sigma). *)
Definition sigmaChunk : ChunkRecord := plainChunk 1 [913; 931; 913]%N.
Definition sigmaSnippet : jsstring := [945; 963]%N.
Definition sigmaMatch : jsstring := [913; 931]%N.

(** Scenarios A and B of the specification. *)
Definition sandwichChunk : ChunkRecord :=
  plainChunk 1
    (lit "The sandwich method reduces price resistance by emphasizing benefits twice.").
Definition sandwichSnippet : jsstring :=
  lit "  SANDWICH   method  reduces price   resistance ".

Definition QUOTE : N := 34.

(** The text of a JSON string literal without escapes. *)
Definition quoted (s : jsstring) : jsstring := [QUOTE] ++ s ++ [QUOTE].

(** The reply [{"chunkIndex":0,"exactText":"<span>"}] and the value
    [JSON.parse] gives for it. *)
Definition replyText (span : jsstring) : jsstring :=
  lit "{" ++ quoted (lit "chunkIndex") ++ lit ":0," ++ quoted (lit "exactText")
  ++ lit ":" ++ quoted span ++ lit "}".

Definition replyValue (span : jsstring) : jsval :=
  VObj [(lit "chunkIndex", VNum (NFin 0)); (lit "exactText", VStr span)].

(** A world whose chunk store answers every query with [rows] and whose model
    answers every prompt with [outcome]. *)
Definition fixedWorld (rows : list ChunkRecord) (outcome : LlmOutcome) : World :=
  {| supabaseConfigured := true;
     openaiKey := true;
     store := fun _ => {| data := Some rows; error := false |};
     llmInvoke := fun _ => outcome |}.

(** A request for page 5 of sales.pdf of the tenant acme. *)
Definition requestBody (snippet : jsval) : jsval :=
  VObj [(lit "filename", VStr (lit "sales.pdf"));
        (lit "page", VNum (NFin 5));
        (lit "answerSnippet", snippet);
        (lit "orgUrl", VStr (lit "acme"))].

Definition sandwichSpan : jsstring := lit "sandwich method".

(** The model answers with the span "sandwich method" of candidate 0. *)
Definition sandwichWorld : World :=
  fixedWorld [sandwichChunk] (LlmReplies (VStr (replyText sandwichSpan))).

Definition sandwichEngine : Engine :=
  asciiEngine [(replyText sandwichSpan, replyValue sandwichSpan)].

(** The model answers with the first two letters of the Greek content. *)
Definition sigmaWorld : World :=
  fixedWorld [sigmaChunk] (LlmReplies (VStr (replyText sigmaMatch))).

Definition sigmaEngine : Engine :=
  greekEngine [(replyText sigmaMatch, replyValue sigmaMatch)].

Definition paraphrase : jsval := VStr (lit "what lowers price resistance?").

Definition column_eqb (a b : Column) : bool :=
  match a, b with
  | ColSource, ColSource | ColPage, ColPage
  | ColLocPageNumber, ColLocPageNumber | ColOrgUrl, ColOrgUrl => true
  | _, _ => false
  end.

Definition filtersOn (col : Column) (q : Query) : bool :=
  existsb (fun f => column_eqb (fst f) col) (filters q).

(** Two chunks of sales.pdf: one whose page is recorded only in the loader's
    location object, one of another page. *)
Definition locChunk : ChunkRecord :=
  {| id := 21;
     content := Some (lit "Discounts are granted once per quarter.");
     metadata := VObj [(lit "source", VStr (lit "sales.pdf"));
                       (lit "orgUrl", VStr (lit "acme"));
                       (lit "loc", VObj [(lit "pageNumber", VNum (NFin 5))])] |}.

Definition otherChunk : ChunkRecord :=
  {| id := 22;
     content := Some (lit "Table of contents");
     metadata := VObj [(lit "source", VStr (lit "sales.pdf"));
                       (lit "orgUrl", VStr (lit "acme"))] |}.

(** Scenario C: no row has [metadata.page], [locChunk] answers the query on
    [metadata.loc.pageNumber], and the page-free query returns [otherChunk]. *)
Definition scenarioC : World :=
  {| supabaseConfigured := true;
     openaiKey := false;
     store := fun q =>
       if filtersOn ColPage q then {| data := Some []; error := false |}
       else if filtersOn ColLocPageNumber q then {| data := Some [locChunk]; error := false |}
       else {| data := Some [otherChunk]; error := false |};
     llmInvoke := fun _ => LlmThrows |}.

Definition salesPdf : jsval := VStr (lit "sales.pdf").
Definition acme : jsval := VStr (lit "acme").
Definition pageFive : jsval := VNum (NFin 5).


(** A body without filename whose answer snippet is the number 42. *)
Definition numericSnippetBody : jsval :=
  VObj [(lit "page", VNum (NFin 1)); (lit "answerSnippet", VNum (NFin 42))].

(** Scenario D: the model proposes a sentence that is not in the chunk. *)
Definition inventedSpan : jsstring := lit "a sentence that does not appear in the chunk".

Definition scenarioD : World :=
  fixedWorld [sandwichChunk] (LlmReplies (VStr (replyText inventedSpan))).

Definition scenarioDEngine : Engine :=
  asciiEngine [(replyText inventedSpan, replyValue inventedSpan)].

(** Scenario E: a body with a filename and no page. *)
Definition scenarioE : jsval := VObj [(lit "filename", VStr (lit "sales.pdf"))].



(** The chunk store reports an error on every query. *)
Definition failingWorld : World :=
  {| supabaseConfigured := true;
     openaiKey := true;
     store := fun _ => {| data := None; error := true |};
     llmInvoke := fun _ => LlmThrows |}.

(** The chunk store has no row at all. *)
Definition emptyWorld : World := fixedWorld [] LlmThrows.

(** A request whose page is the text "cover". *)
Definition coverBody : jsval :=
  VObj [(lit "filename", VStr (lit "sales.pdf"));
        (lit "page", VStr (lit "cover"));
        (lit "answerSnippet", VStr (lit "price"))].

(** The reply of [sandwichWorld] as an array of content parts, the second
    of them without text. *)
Definition sandwichParts : list jsval :=
  [VObj [(lit "type", VStr (lit "text")); (lit "text", VStr (lit "{"))];
   VObj [(lit "type", VStr (lit "image_url"))];
   VStr (skipn 1 (replyText sandwichSpan))].

Definition sandwichPartsWorld : World :=
  fixedWorld [sandwichChunk] (LlmReplies (VArr sandwichParts)).

(** ** Auxiliary notions of the proofs *)

(** The dash replacement, as a map on code units. *)
Definition dashUnit (c : N) : N := if isDashVariant c then HYPHEN else c.

(** The white space collapse of the normalizer, on the class [\s] alone. *)
Definition collapseSpaces (s : jsstring) : jsstring :=
  replaceRuns isWhiteSpace [SPACE] s.

(** No white space at the start. *)
Definition headNonSpace (s : jsstring) : Prop :=
  match s with
  | [] => True
  | c :: _ => isWhiteSpace c = false
  end.

(** Not empty, and no white space at the end. *)
Definition endsNonSpace (s : jsstring) : Prop :=
  exists z d, s = z ++ [d] /\ isWhiteSpace d = false.

(** The regular expression [buildPattern] denotes, read off the snippet. *)
Fixpoint patternOf (s : jsstring) : regex :=
  match s with
  | [] => []
  | c :: r =>
      if isWhiteSpace c then
        match r with
        | d :: _ => if isWhiteSpace d then patternOf r else SpacePlus :: patternOf r
        | [] => [SpacePlus]
        end
      else Char c :: patternOf r
  end.

(** [m] is an initial segment of [s]. *)
Definition prefix_of (m s : jsstring) : Prop := exists rest, s = m ++ rest.

(** What the model call produced, after the reply was reduced to a string and
    the text between its first [{] and last [}] was parsed. *)
Definition modelOutput (E : Engine) (W : World) (answerSnippet : jsval)
    (chunks : list ChunkRecord) (parsed : jsval) : Prop :=
  exists reply trimmed,
    llmInvoke W (buildLlmPrompt answerSnippet chunks) = LlmReplies reply
    /\ callTrim (parseLlmResponse E reply) = Ok trimmed
    /\ JSON_parse E (slice trimmed (indexOf trimmed LBRACE)
                          (lastIndexOf trimmed RBRACE + 1)) = Some parsed.

(** [v] is a number equal to an integer [i] with [0 <= i < chunks.length],
    and [chunk] is the candidate at that index. *)
Definition validIndex (chunks : list ChunkRecord) (v : jsval) (chunk : ChunkRecord) : Prop :=
  exists q i,
    v = VNum (NFin q) /\ (q == inject_Z (Z.of_nat i))%Q
    /\ (i < length chunks)%nat /\ nth_error chunks i = Some chunk.

(** The queries of a lookup come in the order of the tiers: the page query,
    then the location query [q2] if there is one, then the page-free query,
    each of the last two optional. *)
Definition inTierOrder (q1 : Query) (q2 : option Query) (q3 : Query)
    (trace : list Query) : Prop :=
  trace = [q1] \/ trace = [q1; q3]
  \/ exists q, q2 = Some q /\ (trace = [q1; q] \/ trace = [q1; q; q3]).

(** The filter on the tenant, present when [orgUrl] is truthy. *)
Definition orgFilter (orgUrl : jsval) : list (Column * jsval) :=
  if truthy orgUrl then [(ColOrgUrl, orgUrl)] else [].

(** The request has a filename and a page. *)
Definition passesValidation (f : Fields) : Prop :=
  truthy (filename f) = true /\ isUndefined (page f) = false.

(** The request is a HighlightQuery of the data model and the candidates are
    chunks of it: the answer snippet is a string and, where the revision
    reads it without a guard, the metadata of a candidate is a mapping. *)
Definition wellTyped (r : Revision) (f : Fields) (chunks : list ChunkRecord) : Prop :=
  (exists s, answerSnippet f = VStr s)
  /\ (r = Normalizing -> Forall (fun c => isNullish (metadata c) = false) chunks).


(** Lower-casing converts each code unit on its own, to one or several code
    units: no conversion depends on the neighbours of a character. *)
Definition contextFree (E : Engine) : Prop :=
  exists g : N -> jsstring, forall x, toLowerCase E x = flat_map g x.

(** The texts a regular expression of the direct matcher matches: a literal
    character matches a character with the same case fold, [\s+] a non-empty
    run of white space. *)
Inductive denotes (E : Engine) : regex -> jsstring -> Prop :=
| denotes_nil : denotes E [] []
| denotes_char c re x m :
    canonicalize E x = canonicalize E c ->
    denotes E re m ->
    denotes E (Char c :: re) (x :: m)
| denotes_spaces re w m :
    w <> [] ->
    forallb isWhiteSpace w = true ->
    denotes E re m ->
    denotes E (SpacePlus :: re) (w ++ m).

(** [m] is the snippet up to the case of its characters and the length of
    its runs of white space. *)
Definition occurrenceOf (E : Engine) (snippet m : jsstring) : Prop :=
  denotes E (patternOf snippet) m.

(** [resolve] of a revision. *)
Definition resolveOf (r : Revision) : Engine -> World -> jsval -> list ChunkRecord -> result Response :=
  match r with
  | RouteTs => DirectFirst.resolve
  | Normalizing => LlmFirst.resolve
  end.

(** The exact-page query of a request. *)
Definition firstQuery (E : Engine) (f : Fields) : Query :=
  pageQuery (filename f) (stringifyPage E (page f)) (orgUrl f).

(** The arguments of the request log can be evaluated, in the revision that
    has one. *)
Definition logsRequest (r : Revision) (f : Fields) : Prop :=
  r = Normalizing -> LlmFirst.logRequest (answerSnippet f) = Ok tt.

(** Every white space character is a single U+0020 between two other
    characters or at an end of the text. *)
Fixpoint singleSpaced (s : jsstring) : bool :=
  match s with
  | [] => true
  | c :: r =>
      (if isWhiteSpace c
       then (c =? SPACE)%N && match r with
                              | d :: _ => negb (isWhiteSpace d)
                              | [] => true
                              end
       else true)
      && singleSpaced r
  end.

(** No dash variant U+2010 .. U+2015. *)
Definition noDash (s : jsstring) : bool :=
  forallb (fun c => negb (isDashVariant c)) s.

(** No white space at either end. *)
Definition trimmed (s : jsstring) : bool :=
  match s with
  | [] => true
  | c :: _ => negb (isWhiteSpace c) && negb (isWhiteSpace (last s SPACE))
  end.

(** The form of a text whose spacing and dashes are normalized. *)
Definition spacingNormal (s : jsstring) : bool :=
  singleSpaced s && noDash s && trimmed s.

(** [pre] ends with a sentence break: one of [.!?] and then white space to
    the end. *)
Definition afterBreak (pre : jsstring) : Prop :=
  exists u e w, pre = u ++ e :: w /\ ChatPage.isSentenceEnd e = true
                /\ w <> [] /\ forallb isWhiteSpace w = true.

(** One of [.!?] is followed by white space somewhere in [s]. *)
Fixpoint hasBreak (s : jsstring) : bool :=
  match s with
  | [] => false
  | c :: r =>
      match r with
      | d :: _ => ChatPage.isSentenceEnd c && isWhiteSpace d
      | [] => false
      end || hasBreak r
  end.

(** The texts of the candidates that are not blank, as the chat page keeps
    them: [undefined] when there is none. *)
Definition nonBlankTexts (texts : list jsstring) : option (list jsstring) :=
  let kept := filter (fun t => negb (ChatPage.isBlank t)) texts in
  if isNil kept then None else Some kept.

(** Span [k] of the text layer exists and its text is not blank once
    normalized. *)
Definition visibleSpan (E : Engine) (spans : list jsstring) (k : nat) : Prop :=
  exists span, nth_error spans k = Some span /\ PdfViewer.normalize E span <> [].

(** [rest] are the spans of the layer from index [j] on. *)
Definition spansFrom (spans : list jsstring) (j : nat) (rest : list jsstring) : Prop :=
  forall idx span, nth_error rest idx = Some span -> nth_error spans (j + idx) = Some span.

(** The text [combinedText] of a window: the normalized texts of its spans,
    added one by one as the viewer does. *)
Definition combineSpans (E : Engine) (combinedText : jsstring) (texts : list jsstring)
    : jsstring :=
  fold_left (fun acc span => trim (acc ++ [SPACE] ++ PdfViewer.normalize E span))
            texts combinedText.

(** The span test of the chunk mode and of the partial match. *)
Definition coveredBy (E : Engine) (normalizedText span : jsstring) : bool :=
  (3 <? length (PdfViewer.normalize E span))%nat
  && includes normalizedText (PdfViewer.normalize E span).

(** What the viewer keeps of its bookkeeping: no span is recorded twice, the
    counter is the number of recorded spans, and a recorded span exists and is
    not blank. *)
Definition consistentLayer (E : Engine) (spans : list jsstring) (st : PdfViewer.Layer)
    : Prop :=
  NoDup (PdfViewer.highlighted st)
  /\ PdfViewer.totalHighlights st = length (PdfViewer.highlighted st)
  /\ Forall (visibleSpan E spans) (PdfViewer.highlighted st).

(** The spans [seq] of the layer are there, with the texts [texts], none of
    them blank. *)
Definition windowOf (E : Engine) (spans : list jsstring) (seq : list nat)
    (texts : list jsstring) : Prop :=
  Forall2 (fun k span => nth_error spans k = Some span /\ PdfViewer.normalize E span <> [])
          seq texts.

(** Span [k] of the layer passes the span test against [normalizedText]. *)
Definition coveredSpan (E : Engine) (spans : list jsstring) (normalizedText : jsstring)
    (k : nat) : Prop :=
  exists span, nth_error spans k = Some span /\ coveredBy E normalizedText span = true.

(** A paragraph laid out as texts each followed by a citation, and then
    [rest]; and the matches of those citations, with their positions from
    [offset] on. *)
Fixpoint assemble (segments : list (jsstring * jsstring)) (rest : jsstring) : jsstring :=
  match segments with
  | [] => rest
  | (gap, citation) :: more => gap ++ citation ++ assemble more rest
  end.

Fixpoint matchesAt (offset : Z) (segments : list (jsstring * jsstring))
    : list ChatPage.CitationMatch :=
  match segments with
  | [] => []
  | (gap, citation) :: more =>
      {| ChatPage.matched := citation;
         ChatPage.index := Some (offset + Z.of_nat (length gap)) |}
      :: matchesAt (offset + Z.of_nat (length gap) + Z.of_nat (length citation)) more
  end.

(* ================================================================== *)
(** * Properties *)

(** ** Substrings *)

Lemma jsstring_eqb_eq a b : jsstring_eqb a b = true <-> a = b.
Proof.
  revert b. induction a as [|x a IH]; destruct b as [|y b]; simpl;
    try (split; [discriminate | intros [=]]); [split; reflexivity|].
  rewrite andb_true_iff, N.eqb_eq, IH. split; [intros [-> ->]; reflexivity|].
  intros [= -> ->]. now split.
Qed.

Lemma startsWith_spec s sub :
  startsWith s sub = true <-> exists post, s = sub ++ post.
Proof.
  revert s. induction sub as [|x sub IH]; intros s.
  - split; [intros _; now exists s | intros _; now destruct s].
  - destruct s as [|c s]; cbn [startsWith].
    + split; [discriminate | intros [post H]; discriminate].
    + rewrite andb_true_iff, N.eqb_eq, IH. split.
      * intros [-> [post ->]]. now exists post.
      * intros [post H]. injection H as -> ->. split; [reflexivity | now exists post].
Qed.

Lemma includes_spec s sub : includes s sub = true <-> substring_of sub s.
Proof.
  unfold substring_of. induction s as [|c s IH].
  - cbn [includes]. rewrite orb_false_r, startsWith_spec. split.
    + intros [post H]. now exists [], post.
    + intros [pre [post H]]. destruct pre; [now exists post | discriminate].
  - cbn [includes]. rewrite orb_true_iff, startsWith_spec, IH. split.
    + intros [[post H] | [pre [post H]]].
      * now exists [], post.
      * exists (c :: pre), post. now rewrite H.
    + intros [pre [post H]]. destruct pre as [|p pre].
      * left. now exists post.
      * right. injection H as -> H. now exists pre, post.
Qed.

Lemma substring_of_nil s : substring_of [] s.
Proof. now exists [], s. Qed.

Lemma substring_of_trans a b c :
  substring_of a b -> substring_of b c -> substring_of a c.
Proof.
  intros [p1 [q1 ->]] [p2 [q2 ->]].
  exists (p2 ++ p1), (q1 ++ q2). now rewrite !app_assoc.
Qed.

Lemma substring_of_cons c a b : substring_of a b -> substring_of a (c :: b).
Proof. intros [p [q ->]]. now exists (c :: p), q. Qed.

(** ** White space, trimming and run replacement *)

(** Decides a goal on character classes by splitting every comparison. *)
Ltac class_cases :=
  repeat match goal with
  | |- context [N.leb ?a ?b] => destruct (N.leb_spec a b); try lia
  | |- context [N.eqb ?a ?b] => destruct (N.eqb_spec a b); try lia
  end; try reflexivity; try discriminate.

Lemma isSpaceOrNbsp_ws c : isSpaceOrNbsp c = isWhiteSpace c.
Proof.
  unfold isSpaceOrNbsp. destruct (N.eqb_spec c 160) as [->|_].
  - reflexivity.
  - apply orb_false_r.
Qed.

Lemma replaceRuns_ext cls cls' rep s :
  (forall c, cls c = cls' c) -> replaceRuns cls rep s = replaceRuns cls' rep s.
Proof.
  intros H. induction s as [|c r IH]; simpl; [reflexivity|].
  rewrite <- (H c). destruct (cls c).
  - destruct r as [|d r']; [reflexivity|]. rewrite <- (H d). now rewrite IH.
  - now rewrite IH.
Qed.

Lemma isWhiteSpace_space : isWhiteSpace SPACE = true.
Proof. reflexivity. Qed.

Lemma isDashVariant_not_ws c : isDashVariant c = true -> isWhiteSpace c = false.
Proof.
  unfold isDashVariant, isWhiteSpace. rewrite andb_true_iff, !N.leb_le.
  intros [H1 H2]. class_cases.
Qed.

Lemma dashUnit_ws c : isWhiteSpace (dashUnit c) = isWhiteSpace c.
Proof.
  unfold dashUnit. destruct (isDashVariant c) eqn:H; [|reflexivity].
  now rewrite (isDashVariant_not_ws _ H).
Qed.

Lemma dashUnit_idem c : dashUnit (dashUnit c) = dashUnit c.
Proof.
  unfold dashUnit. destruct (isDashVariant c) eqn:H.
  - reflexivity.
  - now rewrite H.
Qed.

Lemma normalizeSpacing_unfold s :
  normalizeSpacing s = trim (map dashUnit (collapseSpaces s)).
Proof.
  unfold normalizeSpacing, collapseSpaces, replaceEach.
  now rewrite (replaceRuns_ext _ isWhiteSpace _ _ isSpaceOrNbsp_ws).
Qed.

Lemma normalizeForComparison_unfold E s :
  normalizeForComparison E s = toLowerCase E (normalizeSpacing s).
Proof. reflexivity. Qed.

Lemma trimStart_head s : headNonSpace (trimStart s).
Proof.
  induction s as [|c r IH]; simpl; [exact I|].
  destruct (isWhiteSpace c) eqn:H; [exact IH | exact H].
Qed.

Lemma trimStart_fixed s : headNonSpace s -> trimStart s = s.
Proof. destruct s as [|c r]; simpl; [reflexivity | now intros ->]. Qed.

Lemma trimEnd_cons_nonspace c x :
  isWhiteSpace c = false -> trimEnd (c :: x) = c :: trimEnd x.
Proof. intros H. simpl. rewrite H. now destruct (trimEnd x). Qed.

Lemma trimEnd_cons_space c x :
  isWhiteSpace c = true ->
  trimEnd (c :: x) = match trimEnd x with [] => [] | y => c :: y end.
Proof. intros H. simpl. now rewrite H. Qed.

Lemma trimEnd_idem s : trimEnd (trimEnd s) = trimEnd s.
Proof.
  induction s as [|c r IH]; [reflexivity|].
  destruct (isWhiteSpace c) eqn:H.
  - rewrite (trimEnd_cons_space _ _ H). destruct (trimEnd r) as [|y ys] eqn:Hr.
    + reflexivity.
    + rewrite (trimEnd_cons_space _ _ H). now rewrite IH.
  - rewrite (trimEnd_cons_nonspace _ _ H). rewrite (trimEnd_cons_nonspace _ _ H).
    now rewrite IH.
Qed.

Lemma trimEnd_head s : headNonSpace s -> headNonSpace (trimEnd s).
Proof.
  destruct s as [|c r]; [intros _; exact I|]. intros H. simpl in H.
  now rewrite (trimEnd_cons_nonspace _ _ H).
Qed.

Lemma trim_idem s : trim (trim s) = trim s.
Proof.
  unfold trim.
  rewrite (trimStart_fixed _ (trimEnd_head _ (trimStart_head s))).
  apply trimEnd_idem.
Qed.

Lemma trimStart_decompose s : exists w, s = w ++ trimStart s.
Proof.
  induction s as [|c r [w IH]]; [now exists []|]. simpl.
  destruct (isWhiteSpace c).
  - exists (c :: w). simpl. now rewrite <- IH.
  - now exists [].
Qed.

Lemma trimEnd_decompose s : exists w, s = trimEnd s ++ w.
Proof.
  induction s as [|c r [w IH]]; [now exists []|]. simpl.
  destruct (trimEnd r) as [|y ys].
  - destruct (isWhiteSpace c).
    + now exists (c :: r).
    + exists w. simpl. now rewrite IH at 1.
  - exists w. simpl. now rewrite IH at 1.
Qed.

Lemma trim_substring s : substring_of (trim s) s.
Proof.
  unfold trim. destruct (trimStart_decompose s) as [w1 H1].
  destruct (trimEnd_decompose (trimStart s)) as [w2 H2].
  exists w1, w2. now rewrite <- H2.
Qed.

Lemma trimEnd_shape s : trimEnd s = [] \/ endsNonSpace (trimEnd s).
Proof.
  induction s as [|c r IH]; [now left|].
  destruct (isWhiteSpace c) eqn:H.
  - rewrite (trimEnd_cons_space _ _ H). destruct (trimEnd r) as [|y ys].
    + now left.
    + right. destruct IH as [IH|[z [d [IH Hd]]]]; [discriminate|].
      exists (c :: z), d. simpl. now rewrite IH.
  - rewrite (trimEnd_cons_nonspace _ _ H). right.
    destruct IH as [IH|[z [d [IH Hd]]]].
    + rewrite IH. now exists [], c.
    + rewrite IH. now exists (c :: z), d.
Qed.

Lemma trim_shape s : trim s = [] \/ (headNonSpace (trim s) /\ endsNonSpace (trim s)).
Proof.
  destruct (trimEnd_shape (trimStart s)) as [H|H]; [now left|].
  right. split; [|exact H]. apply trimEnd_head, trimStart_head.
Qed.

(** Trimming commutes with a map that keeps the classes. *)
Section ClassPreservingMap.

Variable f : N -> N.
Hypothesis f_ws : forall c, isWhiteSpace (f c) = isWhiteSpace c.

Lemma trimStart_map s : trimStart (map f s) = map f (trimStart s).
Proof.
  induction s as [|c r IH]; [reflexivity|]. simpl. rewrite f_ws.
  now destruct (isWhiteSpace c).
Qed.

Lemma trimEnd_map s : trimEnd (map f s) = map f (trimEnd s).
Proof.
  induction s as [|c r IH]; [reflexivity|]. simpl. rewrite IH, f_ws.
  destruct (trimEnd r); simpl; [now destruct (isWhiteSpace c) | reflexivity].
Qed.

Lemma trim_map s : trim (map f s) = map f (trim s).
Proof. unfold trim. now rewrite trimStart_map, trimEnd_map. Qed.

Hypothesis f_space : f SPACE = SPACE.

Lemma collapseSpaces_map s :
  collapseSpaces (map f s) = map f (collapseSpaces s).
Proof.
  unfold collapseSpaces. induction s as [|c r IH]; [reflexivity|].
  cbn [map replaceRuns]. rewrite f_ws. destruct (isWhiteSpace c).
  - destruct r as [|d r']; [simpl; now rewrite f_space|].
    cbn [map]. rewrite f_ws. cbn [map] in IH. rewrite IH.
    destruct (isWhiteSpace d); [reflexivity|].
    simpl. now rewrite f_space.
  - simpl. now rewrite IH.
Qed.

End ClassPreservingMap.

Lemma collapse_nonspace c r :
  isWhiteSpace c = false -> collapseSpaces (c :: r) = c :: collapseSpaces r.
Proof. intros H. unfold collapseSpaces. simpl. now rewrite H. Qed.

Lemma collapse_space_space c d r :
  isWhiteSpace c = true -> isWhiteSpace d = true ->
  collapseSpaces (c :: d :: r) = collapseSpaces (d :: r).
Proof. intros Hc Hd. unfold collapseSpaces. cbn [replaceRuns]. now rewrite Hc, Hd. Qed.

Lemma collapse_space_nonspace c d r :
  isWhiteSpace c = true -> isWhiteSpace d = false ->
  collapseSpaces (c :: d :: r) = SPACE :: collapseSpaces (d :: r).
Proof. intros Hc Hd. unfold collapseSpaces. cbn [replaceRuns]. now rewrite Hc, Hd. Qed.

Lemma collapse_space_end c :
  isWhiteSpace c = true -> collapseSpaces [c] = [SPACE].
Proof. intros Hc. unfold collapseSpaces. cbn [replaceRuns]. now rewrite Hc. Qed.

Lemma collapseSpaces_idem s :
  collapseSpaces (collapseSpaces s) = collapseSpaces s.
Proof.
  induction s as [|c r IH]; [reflexivity|].
  destruct (isWhiteSpace c) eqn:Hc.
  - destruct r as [|d r'].
    + rewrite (collapse_space_end _ Hc). now apply collapse_space_end.
    + destruct (isWhiteSpace d) eqn:Hd.
      * now rewrite (collapse_space_space _ _ _ Hc Hd).
      * rewrite (collapse_space_nonspace _ _ _ Hc Hd).
        rewrite (collapse_nonspace _ _ Hd) in *.
        rewrite (collapse_space_nonspace _ _ _ isWhiteSpace_space Hd).
        now rewrite IH.
  - rewrite (collapse_nonspace _ _ Hc), (collapse_nonspace _ _ Hc). now rewrite IH.
Qed.

Lemma collapseSpaces_trimStart s :
  trimStart (collapseSpaces s) = collapseSpaces (trimStart s).
Proof.
  induction s as [|c r IH]; [reflexivity|].
  destruct (isWhiteSpace c) eqn:Hc.
  - cbn [trimStart]. rewrite Hc. destruct r as [|d r'].
    + now rewrite (collapse_space_end _ Hc).
    + destruct (isWhiteSpace d) eqn:Hd.
      * now rewrite (collapse_space_space _ _ _ Hc Hd).
      * rewrite (collapse_space_nonspace _ _ _ Hc Hd). cbn [trimStart].
        rewrite isWhiteSpace_space. exact IH.
  - rewrite (collapse_nonspace _ _ Hc). cbn [trimStart]. rewrite Hc.
    now rewrite (collapse_nonspace _ _ Hc).
Qed.

Lemma trimEnd_keeps_head c r y ys : trimEnd (c :: r) = y :: ys -> y = c.
Proof.
  simpl. destruct (trimEnd r).
  - destruct (isWhiteSpace c); [discriminate | congruence].
  - congruence.
Qed.

Lemma collapseSpaces_trimEnd s :
  trimEnd (collapseSpaces s) = collapseSpaces (trimEnd s).
Proof.
  induction s as [|c r IH]; [reflexivity|].
  destruct (isWhiteSpace c) eqn:Hc.
  - rewrite (trimEnd_cons_space _ _ Hc). destruct r as [|d r'].
    + now rewrite (collapse_space_end _ Hc).
    + destruct (isWhiteSpace d) eqn:Hd.
      * rewrite (collapse_space_space _ _ _ Hc Hd), IH.
        destruct (trimEnd (d :: r')) as [|y ys] eqn:Hr; [reflexivity|].
        apply trimEnd_keeps_head in Hr as Hy. subst y.
        now rewrite (collapse_space_space _ _ _ Hc Hd).
      * rewrite (collapse_space_nonspace _ _ _ Hc Hd).
        rewrite (trimEnd_cons_space _ _ isWhiteSpace_space), IH.
        rewrite (trimEnd_cons_nonspace _ _ Hd).
        rewrite (collapse_nonspace _ _ Hd).
        now rewrite (collapse_space_nonspace _ _ _ Hc Hd), (collapse_nonspace _ _ Hd).
  - rewrite (collapse_nonspace _ _ Hc), !(trimEnd_cons_nonspace _ _ Hc).
    now rewrite (collapse_nonspace _ _ Hc), IH.
Qed.

Lemma collapseSpaces_trim s : trim (collapseSpaces s) = collapseSpaces (trim s).
Proof. unfold trim. now rewrite collapseSpaces_trimStart, collapseSpaces_trimEnd. Qed.

Lemma map_dashUnit_idem s : map dashUnit (map dashUnit s) = map dashUnit s.
Proof.
  rewrite map_map. apply map_ext. intros c. apply dashUnit_idem.
Qed.

Lemma dashUnit_space : dashUnit SPACE = SPACE.
Proof. reflexivity. Qed.

(** The spacing steps commute, so each of them is applied once. *)
Lemma normalizeSpacing_idem s :
  normalizeSpacing (normalizeSpacing s) = normalizeSpacing s.
Proof.
  rewrite !normalizeSpacing_unfold.
  rewrite <- collapseSpaces_trim.
  rewrite (collapseSpaces_map dashUnit dashUnit_ws dashUnit_space).
  rewrite collapseSpaces_idem.
  rewrite <- (trim_map dashUnit dashUnit_ws), map_dashUnit_idem.
  now rewrite !trim_idem.
Qed.

Lemma normalizeSpacing_trim s : normalizeSpacing (trim s) = normalizeSpacing s.
Proof.
  rewrite !normalizeSpacing_unfold.
  rewrite <- collapseSpaces_trim, <- (trim_map dashUnit dashUnit_ws).
  apply trim_idem.
Qed.

Lemma normalizeSpacing_map f s :
  (forall c, isWhiteSpace (f c) = isWhiteSpace c) ->
  f SPACE = SPACE ->
  (forall c, dashUnit (f c) = f (dashUnit c)) ->
  normalizeSpacing (map f s) = map f (normalizeSpacing s).
Proof.
  intros Hws Hsp Hdash. rewrite !normalizeSpacing_unfold.
  rewrite (collapseSpaces_map f Hws Hsp).
  rewrite <- (trim_map f Hws). f_equal.
  rewrite !map_map. apply map_ext. exact Hdash.
Qed.

(** Collapsing splits at a boundary next to a character that is not white
    space. *)
Lemma collapseSpaces_app_head x y :
  headNonSpace y -> collapseSpaces (x ++ y) = collapseSpaces x ++ collapseSpaces y.
Proof.
  intros Hy. destruct y as [|d y']; [now rewrite !app_nil_r|]. simpl in Hy.
  induction x as [|c x IH]; [reflexivity|].
  destruct (isWhiteSpace c) eqn:Hc.
  - destruct x as [|e x'].
    + cbn [app]. rewrite (collapse_space_nonspace _ _ _ Hc Hy).
      now rewrite (collapse_space_end _ Hc).
    + cbn [app] in *. destruct (isWhiteSpace e) eqn:He.
      * now rewrite !(collapse_space_space _ _ _ Hc He).
      * rewrite !(collapse_space_nonspace _ _ _ Hc He), IH. reflexivity.
  - cbn [app]. rewrite !(collapse_nonspace _ _ Hc), IH. reflexivity.
Qed.

Lemma collapseSpaces_app_last x y :
  endsNonSpace x -> collapseSpaces (x ++ y) = collapseSpaces x ++ collapseSpaces y.
Proof.
  intros [z [d [-> Hd]]]. induction z as [|c z IH].
  - cbn [app]. now rewrite !(collapse_nonspace _ _ Hd).
  - destruct (isWhiteSpace c) eqn:Hc.
    + destruct z as [|e z'].
      * cbn [app] in *. rewrite !(collapse_space_nonspace _ _ _ Hc Hd).
        cbn [app] in IH. now rewrite IH.
      * cbn [app] in *. destruct (isWhiteSpace e) eqn:He.
        -- now rewrite !(collapse_space_space _ _ _ Hc He).
        -- rewrite !(collapse_space_nonspace _ _ _ Hc He), IH. reflexivity.
    + cbn [app] in *. rewrite !(collapse_nonspace _ _ Hc), IH. reflexivity.
Qed.

Lemma trimStart_app x z :
  headNonSpace z -> z <> [] -> trimStart (x ++ z) = trimStart x ++ z.
Proof.
  intros Hz Hne. induction x as [|c x IH].
  - now apply trimStart_fixed.
  - simpl. now destruct (isWhiteSpace c).
Qed.

Lemma trimEnd_app z y : endsNonSpace z -> trimEnd (z ++ y) = z ++ trimEnd y.
Proof.
  intros [z' [d [-> Hd]]]. induction z' as [|c z' IH].
  - apply (trimEnd_cons_nonspace _ _ Hd).
  - cbn [app] in *. cbn [trimEnd]. rewrite IH.
    destruct ((z' ++ [d]) ++ trimEnd y) eqn:H; [|reflexivity].
    now destruct z'.
Qed.

Lemma endsNonSpace_app x z : endsNonSpace z -> endsNonSpace (x ++ z).
Proof.
  intros [z' [d [-> Hd]]]. exists (x ++ z'), d. now rewrite app_assoc.
Qed.

Lemma endsNonSpace_map f z :
  (forall c, isWhiteSpace (f c) = isWhiteSpace c) ->
  endsNonSpace z -> endsNonSpace (map f z).
Proof.
  intros Hf [z' [d [-> Hd]]]. exists (map f z'), (f d).
  rewrite map_app. split; [reflexivity | now rewrite Hf].
Qed.

Lemma endsNonSpace_collapse z : endsNonSpace z -> endsNonSpace (collapseSpaces z).
Proof.
  intros [z' [d [-> Hd]]]. rewrite (collapseSpaces_app_head z' [d] Hd).
  apply endsNonSpace_app. rewrite (collapse_nonspace _ _ Hd). now exists [], d.
Qed.

Lemma headNonSpace_collapse z : headNonSpace z -> headNonSpace (collapseSpaces z).
Proof.
  destruct z as [|c r]; [intros _; exact I|]. simpl. intros Hc.
  now rewrite (collapse_nonspace _ _ Hc).
Qed.

Lemma headNonSpace_map f z :
  (forall c, isWhiteSpace (f c) = isWhiteSpace c) ->
  headNonSpace z -> headNonSpace (map f z).
Proof. intros Hf. destruct z; simpl; [easy | now rewrite Hf]. Qed.

(** The spacing normal form of a substring occurs in that of the string. *)
Lemma normalizeSpacing_substring m s :
  substring_of m s -> substring_of (normalizeSpacing m) (normalizeSpacing s).
Proof.
  intros Hms. rewrite <- (normalizeSpacing_trim m).
  assert (Hts : substring_of (trim m) s)
    by (eapply substring_of_trans; [apply trim_substring | exact Hms]).
  destruct (trim_shape m) as [Hnil | [Hhead Hend]].
  - rewrite Hnil. apply substring_of_nil.
  - destruct Hts as [a [b ->]]. set (t := trim m) in *.
    rewrite !normalizeSpacing_unfold.
    rewrite (collapseSpaces_app_head a (t ++ b)).
    2:{ destruct Hend as [z [d [Ht _]]]. destruct t; [now destruct z|exact Hhead]. }
    rewrite (collapseSpaces_app_last t b Hend), !map_app.
    set (M := map dashUnit (collapseSpaces t)).
    assert (HMh : headNonSpace M)
      by (apply headNonSpace_map; [exact dashUnit_ws | now apply headNonSpace_collapse]).
    assert (HMe : endsNonSpace M)
      by (apply endsNonSpace_map; [exact dashUnit_ws | now apply endsNonSpace_collapse]).
    assert (HMne : M <> []) by (destruct HMe as [z [d [-> _]]]; now destruct z).
    unfold trim at 2.
    rewrite (trimStart_app _ (M ++ _)).
    2:{ destruct M; [contradiction | exact HMh]. }
    2:{ destruct M; [contradiction | discriminate]. }
    rewrite app_assoc, (trimEnd_app (_ ++ M) _ (endsNonSpace_app _ M HMe)).
    unfold trim.
    rewrite (trimStart_fixed M HMh).
    replace (trimEnd M) with M.
    2:{ rewrite <- (app_nil_r M) at 2. now rewrite (trimEnd_app M [] HMe), app_nil_r. }
    eexists _, _. rewrite <- app_assoc. reflexivity.
Qed.

Lemma substring_of_flat_map (g : N -> jsstring) a b :
  substring_of a b -> substring_of (flat_map g a) (flat_map g b).
Proof.
  intros [p [q ->]]. exists (flat_map g p), (flat_map g q).
  now rewrite !flat_map_app.
Qed.

(** Under a case conversion that converts each code unit on its own, the
    normal form of a substring occurs in that of the string. *)
Lemma normalizeForComparison_substring E g m s :
  (forall x, toLowerCase E x = flat_map g x) ->
  substring_of m s ->
  substring_of (normalizeForComparison E m) (normalizeForComparison E s).
Proof.
  intros Hg H. rewrite !normalizeForComparison_unfold, !Hg.
  now apply substring_of_flat_map, normalizeSpacing_substring.
Qed.

(** ** Claim C8: the normalizer is idempotent *)

Lemma asciiLowerUnit_ws c : isWhiteSpace (asciiLowerUnit c) = isWhiteSpace c.
Proof.
  unfold asciiLowerUnit, isAsciiUpper.
  destruct ((65 <=? c)%N && (c <=? 90)%N) eqn:H; [|reflexivity].
  apply andb_true_iff in H as [H1 H2]. apply N.leb_le in H1, H2.
  unfold isWhiteSpace. class_cases.
Qed.

Lemma asciiLowerUnit_idem c : asciiLowerUnit (asciiLowerUnit c) = asciiLowerUnit c.
Proof.
  unfold asciiLowerUnit.
  destruct (isAsciiUpper c) eqn:H; [|now rewrite H].
  assert (Hb : (65 <= c <= 90)%N).
  { unfold isAsciiUpper in H. apply andb_true_iff in H as [H1 H2].
    now apply N.leb_le in H1, H2. }
  assert (Hc : isAsciiUpper (c + 32) = false) by (unfold isAsciiUpper; class_cases).
  now rewrite Hc.
Qed.

Lemma asciiLowerUnit_dash c : dashUnit (asciiLowerUnit c) = asciiLowerUnit (dashUnit c).
Proof.
  unfold asciiLowerUnit, dashUnit.
  destruct (isAsciiUpper c) eqn:H.
  - assert (Hb : (65 <= c <= 90)%N).
    { unfold isAsciiUpper in H. apply andb_true_iff in H as [H1 H2].
      now apply N.leb_le in H1, H2. }
    assert (Hc : isDashVariant c = false) by (unfold isDashVariant; class_cases).
    assert (Hd : isDashVariant (c + 32) = false) by (unfold isDashVariant; class_cases).
    now rewrite Hc, Hd, H.
  - destruct (isDashVariant c) eqn:H'; [reflexivity | now rewrite H].
Qed.

Lemma asciiLower_idem s :
  map asciiLowerUnit (map asciiLowerUnit s) = map asciiLowerUnit s.
Proof. rewrite map_map. apply map_ext, asciiLowerUnit_idem. Qed.

Lemma asciiLower_keeps_spacing s :
  normalizeSpacing s = s ->
  normalizeSpacing (map asciiLowerUnit s) = map asciiLowerUnit s.
Proof.
  intros H.
  rewrite (normalizeSpacing_map asciiLowerUnit s asciiLowerUnit_ws eq_refl asciiLowerUnit_dash).
  now rewrite H.
Qed.

(** C8.  [normalizeForComparison (normalizeForComparison s)] is
    [normalizeForComparison s] for every string [s], on every engine whose
    lower-casing is idempotent and leaves a string in spacing normal form
    (single inner spaces, no dash variant, trimmed) in that form. *)
Theorem normalize_idempotent (E : Engine)
    (lower_idem : forall s, toLowerCase E (toLowerCase E s) = toLowerCase E s)
    (lower_keeps_spacing :
       forall s, normalizeSpacing s = s ->
                 normalizeSpacing (toLowerCase E s) = toLowerCase E s)
    (s : jsstring) :
  normalizeForComparison E (normalizeForComparison E s) = normalizeForComparison E s.
Proof.
  rewrite !normalizeForComparison_unfold.
  rewrite (lower_keeps_spacing _ (normalizeSpacing_idem s)).
  apply lower_idem.
Qed.

Lemma normalize_idempotent_witness :
  normalizeForComparison (asciiEngine [])
    (normalizeForComparison (asciiEngine []) sampleText)
  = normalizeForComparison (asciiEngine []) sampleText.
Proof.
  apply (normalize_idempotent (asciiEngine []) asciiLower_idem asciiLower_keeps_spacing).
Defined.

Example normalize_sample :
  normalizeForComparison (asciiEngine []) sampleText = lit "foo bar - baz".
Proof. reflexivity. Qed.

(** ** The pattern of the direct matcher *)

Lemma isEscaped_not_ws c : isEscaped c = true -> isWhiteSpace c = false.
Proof.
  unfold isEscaped, isWhiteSpace. intros H.
  repeat (apply orb_true_iff in H as [H|H]); apply N.eqb_eq in H; subst; reflexivity.
Qed.

Lemma isSyntaxCharacter_escaped c : isSyntaxCharacter c = true -> isEscaped c = true.
Proof.
  unfold isSyntaxCharacter. intros H.
  repeat (apply orb_true_iff in H as [H|H]); apply N.eqb_eq in H; subst; reflexivity.
Qed.

Lemma buildPattern_escaped c r :
  isEscaped c = true ->
  buildPattern (c :: r) = BACKSLASH :: c :: buildPattern r.
Proof.
  intros H. unfold buildPattern, escapeForRegex. cbn [flat_map]. rewrite H.
  cbn [app replaceRuns]. change (isWhiteSpace BACKSLASH) with false. cbv iota.
  now rewrite (isEscaped_not_ws _ H).
Qed.

Lemma buildPattern_plain c r :
  isEscaped c = false -> isWhiteSpace c = false ->
  buildPattern (c :: r) = c :: buildPattern r.
Proof.
  intros H Hw. unfold buildPattern, escapeForRegex. cbn [flat_map]. rewrite H.
  cbn [app replaceRuns]. now rewrite Hw.
Qed.

Lemma escapeForRegex_head_ws d r :
  match escapeForRegex (d :: r) with
  | [] => False
  | e :: _ => isWhiteSpace e = isWhiteSpace d
  end.
Proof.
  unfold escapeForRegex. cbn [flat_map]. destruct (isEscaped d) eqn:H; cbn [app].
  - now rewrite (isEscaped_not_ws _ H).
  - reflexivity.
Qed.

Lemma buildPattern_space c r :
  isWhiteSpace c = true ->
  buildPattern (c :: r) =
    match r with
    | d :: _ => if isWhiteSpace d then buildPattern r
                else [BACKSLASH; 115; 43]%N ++ buildPattern r
    | [] => [BACKSLASH; 115; 43]%N
    end.
Proof.
  intros Hw.
  assert (He : isEscaped c = false).
  { destruct (isEscaped c) eqn:He; [|reflexivity].
    rewrite (isEscaped_not_ws _ He) in Hw. discriminate. }
  unfold buildPattern. change (escapeForRegex (c :: r))
    with ((if isEscaped c then [BACKSLASH; c] else [c]) ++ escapeForRegex r).
  rewrite He. cbn [app replaceRuns]. rewrite Hw.
  destruct r as [|d r']; [reflexivity|].
  pose proof (escapeForRegex_head_ws d r') as Hh.
  destruct (escapeForRegex (d :: r')) as [|e es]; [contradiction|].
  now rewrite Hh.
Qed.

(** [new RegExp] never throws on a pattern of [buildPattern], and the
    regular expression it builds is the snippet with each run of white space
    turned into [\s+]. *)
Lemma compileRegex_buildPattern s :
  compileRegex (buildPattern s) = Some (patternOf s).
Proof.
  induction s as [|c r IH]; [reflexivity|].
  destruct (isWhiteSpace c) eqn:Hw.
  - rewrite (buildPattern_space _ _ Hw). cbn [patternOf]. rewrite Hw.
    destruct r as [|d r']; [reflexivity|].
    destruct (isWhiteSpace d); [exact IH|].
    cbn [app]. cbn [compileRegex]. change (BACKSLASH =? BACKSLASH)%N with true.
    cbv iota. change (115 =? 115)%N with true. change (43 =? 43)%N with true.
    cbv iota. now rewrite IH.
  - cbn [patternOf]. rewrite Hw. destruct (isEscaped c) eqn:He.
    + rewrite (buildPattern_escaped _ _ He). cbn [compileRegex].
      change (BACKSLASH =? BACKSLASH)%N with true. cbv iota.
      assert (Hs : (c =? 115)%N = false).
      { destruct (N.eqb_spec c 115) as [->|]; [discriminate He | reflexivity]. }
      now rewrite Hs, He, IH.
    + rewrite (buildPattern_plain _ _ He Hw). cbn [compileRegex].
      assert (Hb : (c =? BACKSLASH)%N = false).
      { destruct (N.eqb_spec c BACKSLASH) as [->|]; [discriminate He | reflexivity]. }
      assert (Hy : isSyntaxCharacter c = false).
      { destruct (isSyntaxCharacter c) eqn:Hy; [|reflexivity].
        rewrite (isSyntaxCharacter_escaped _ Hy) in He. discriminate. }
      now rewrite Hb, Hy, IH.
Qed.

Lemma newRegExp_buildPattern s : newRegExp (buildPattern s) = Ok (patternOf s).
Proof. unfold newRegExp. now rewrite compileRegex_buildPattern. Qed.

Lemma prefix_of_cons c m s : prefix_of m s -> prefix_of (c :: m) (c :: s).
Proof. intros [rest ->]. now exists rest. Qed.

Lemma moreSpaces_prefix k :
  (forall t m, k t = Some m -> prefix_of m t) ->
  forall t m, moreSpaces k t = Some m -> prefix_of m t.
Proof.
  intros Hk t. induction t as [|y t IH]; intros m; simpl.
  - apply Hk.
  - destruct (isWhiteSpace y); [|apply Hk].
    destruct (moreSpaces k t) as [m'|] eqn:Hm.
    + intros [= <-]. apply prefix_of_cons. now apply IH.
    + apply Hk.
Qed.

Lemma matchHere_prefix E re : forall s m, matchHere E re s = Some m -> prefix_of m s.
Proof.
  induction re as [|a re IH]; intros s m.
  - simpl. intros [= <-]. now exists s.
  - destruct a as [c|]; simpl; destruct s as [|x s']; try discriminate.
    + destruct (canonicalize E x =? canonicalize E c)%N; [|discriminate].
      destruct (matchHere E re s') as [m'|] eqn:Hm; [|discriminate].
      intros [= <-]. apply prefix_of_cons. now apply IH.
    + destruct (isWhiteSpace x); [|discriminate].
      destruct (moreSpaces (matchHere E re) s') as [m'|] eqn:Hm; [|discriminate].
      intros [= <-]. apply prefix_of_cons.
      now apply (moreSpaces_prefix (matchHere E re) IH).
Qed.

(** A match of a regular expression is cut out of the text searched. *)
Lemma regexSearch_substring E re s m :
  regexSearch E re s = Some m -> substring_of m s.
Proof.
  induction s as [|c s IH]; simpl.
  - destruct (matchHere E re []) as [m'|] eqn:Hm; [|discriminate].
    intros [= <-]. destruct (matchHere_prefix E re _ _ Hm) as [rest H].
    now exists [], rest.
  - destruct (matchHere E re (c :: s)) as [m'|] eqn:Hm.
    + intros [= <-]. destruct (matchHere_prefix E re _ _ Hm) as [rest H].
      now exists [], rest.
    + intros H. now apply substring_of_cons, IH.
Qed.

(** ** The direct matchers *)

Lemma isEmpty_false s : isEmpty s = false <-> s <> [].
Proof. destruct s; simpl; split; congruence. Qed.

(** The direct matcher of route.ts returns a span cut out of the raw content
    of the chunk it names. *)
Lemma directFirst_scan_raw E cleaned chunks h :
  DirectFirst.scanChunks E cleaned chunks = Ok (Some h) ->
  exists chunk, In chunk chunks /\ id chunk = chunkId h
                /\ substring_of (text h) (contentOf chunk).
Proof.
  induction chunks as [|chunk rest IH]; [discriminate|].
  cbn [DirectFirst.scanChunks].
  assert (Hrest : DirectFirst.scanChunks E cleaned rest = Ok (Some h) ->
                  exists c, In c (chunk :: rest) /\ id c = chunkId h
                            /\ substring_of (text h) (contentOf c)).
  { intros H. destruct (IH H) as [c [Hin Hc]]. exists c. split; [now right | exact Hc]. }
  destruct (isEmpty (contentOf chunk)); [exact Hrest|].
  destruct (includes (contentOf chunk) cleaned) eqn:Hinc.
  - intros [= <-]. exists chunk. cbn. repeat split; [now left|].
    now apply includes_spec.
  - rewrite newRegExp_buildPattern. cbn [bindR].
    destruct (regexSearch E (patternOf cleaned) (contentOf chunk)) as [m|] eqn:Hm;
      [|exact Hrest].
    destruct (isEmpty m); [exact Hrest|].
    intros [= <-]. exists chunk. cbn. repeat split; [now left|].
    now apply (regexSearch_substring E _ _ _ Hm).
Qed.

Lemma directFirst_find_raw E chunks snippet h :
  DirectFirst.findDirectMatch E chunks snippet = Ok (Some h) ->
  exists chunk, In chunk chunks /\ id chunk = chunkId h
                /\ substring_of (text h) (contentOf chunk).
Proof.
  unfold DirectFirst.findDirectMatch. destruct snippet; try discriminate.
  cbn [callTrim bindR]. destruct (isEmpty (trim s)); [discriminate|].
  apply directFirst_scan_raw.
Qed.

Lemma llmFirst_scan_sound E cleaned normalized chunks h :
  LlmFirst.scanChunks E cleaned normalized chunks = Ok (Some h) ->
  exists chunk, In chunk chunks /\ id chunk = chunkId h
    /\ includes (normalizeForComparison E (contentOf chunk)) normalized = true
    /\ (text h = cleaned \/ substring_of (text h) (contentOf chunk)).
Proof.
  induction chunks as [|chunk rest IH]; [discriminate|].
  cbn [LlmFirst.scanChunks].
  assert (Hrest : LlmFirst.scanChunks E cleaned normalized rest = Ok (Some h) ->
    exists c, In c (chunk :: rest) /\ id c = chunkId h
      /\ includes (normalizeForComparison E (contentOf c)) normalized = true
      /\ (text h = cleaned \/ substring_of (text h) (contentOf c))).
  { intros H. destruct (IH H) as [c [Hin Hc]]. exists c. split; [now right | exact Hc]. }
  destruct (isEmpty (contentOf chunk)); [exact Hrest|].
  destruct (includes (normalizeForComparison E (contentOf chunk)) normalized) eqn:Hinc;
    [|exact Hrest].
  rewrite newRegExp_buildPattern. cbn [bindR]. intros [= <-].
  exists chunk. cbn. repeat split; [now left | exact Hinc |].
  destruct (regexSearch E (patternOf cleaned) (contentOf chunk)) as [m|] eqn:Hm.
  - right. now apply (regexSearch_substring E _ _ _ Hm).
  - now left.
Qed.

Lemma normalizeForComparison_trim E s :
  normalizeForComparison E (trim s) = normalizeForComparison E s.
Proof. now rewrite !normalizeForComparison_unfold, normalizeSpacing_trim. Qed.

Lemma llmFirst_find_sound E chunks snippet h :
  LlmFirst.findDirectMatch E chunks (VStr snippet) = Ok (Some h) ->
  exists chunk, In chunk chunks /\ id chunk = chunkId h
    /\ includes (normalizeForComparison E (contentOf chunk))
                (normalizeForComparison E snippet) = true
    /\ (text h = trim snippet \/ substring_of (text h) (contentOf chunk)).
Proof.
  unfold LlmFirst.findDirectMatch. cbn [callTrim bindR].
  destruct (isEmpty (trim snippet)); [discriminate|].
  destruct (isEmpty (normalizeForComparison E (trim snippet))); [discriminate|].
  rewrite normalizeForComparison_trim. apply llmFirst_scan_sound.
Qed.

(** ** Claim C2: soundness of the direct matcher *)

(** C2 (amended).  When either revision of [findDirectMatch] returns
    [{text, chunkId}], [chunkId] is the id of a supplied chunk and [text] is
    cut out of that chunk's raw content or is the trimmed snippet, whose
    normal form occurs in the normal form of the content.  The normal form
    of [text] occurs in the normal form of the content whenever lower-casing
    converts each code unit on its own. *)
Theorem direct_match_sound E chunks snippet h :
  DirectFirst.findDirectMatch E chunks (VStr snippet) = Ok (Some h)
  \/ LlmFirst.findDirectMatch E chunks (VStr snippet) = Ok (Some h) ->
  exists chunk,
    In chunk chunks /\ id chunk = chunkId h
    /\ (substring_of (text h) (contentOf chunk)
        \/ (text h = trim snippet
            /\ includes (normalizeForComparison E (contentOf chunk))
                        (normalizeForComparison E snippet) = true))
    /\ (contextFree E ->
        substring_of (normalizeForComparison E (text h))
                     (normalizeForComparison E (contentOf chunk))).
Proof.
  intros [H|H].
  - destruct (directFirst_find_raw E chunks _ h H) as [chunk [Hin [Hid Hsub]]].
    exists chunk. repeat split; [exact Hin | exact Hid | now left |].
    intros [f Hf]. now apply (normalizeForComparison_substring E f).
  - destruct (llmFirst_find_sound E chunks snippet h H)
      as [chunk [Hin [Hid [Hinc Htext]]]].
    exists chunk. repeat split; [exact Hin | exact Hid | |].
    + destruct Htext as [Ht|Ht]; [right; now split | now left].
    + intros [f Hf]. destruct Htext as [Ht|Ht].
      * rewrite Ht, normalizeForComparison_trim. now apply includes_spec.
      * now apply (normalizeForComparison_substring E f).
Qed.

Lemma direct_match_sound_witness :
  exists chunk,
    In chunk [sandwichChunk] /\ id chunk = 1
    /\ substring_of (lit "sandwich method reduces price resistance") (contentOf chunk).
Proof.
  destruct (direct_match_sound (asciiEngine []) [sandwichChunk] sandwichSnippet
              {| text := lit "sandwich method reduces price resistance"; chunkId := 1 |}
              (or_intror eq_refl))
    as [chunk [Hin [Hid [[Hsub | [Habs _]] _]]]].
  - exists chunk. repeat split; assumption.
  - discriminate Habs.
Defined.

(** C2 as stated fails on Greek text: the engine lower-cases the capital sigma
    of the content to [U+03C3] before a letter and the one of the matched
    span, which ends the span, to the final form [U+03C2]. *)
Lemma direct_match_sound_counterexample :
  LlmFirst.findDirectMatch (greekEngine []) [sigmaChunk] (VStr sigmaSnippet)
    = Ok (Some {| text := sigmaMatch; chunkId := 1 |})
  /\ DirectFirst.findDirectMatch (greekEngine []) [sigmaChunk] (VStr sigmaSnippet)
    = Ok (Some {| text := sigmaMatch; chunkId := 1 |})
  /\ normalizeForComparison (greekEngine []) sigmaMatch = [945; 962]%N
  /\ normalizeForComparison (greekEngine []) (contentOf sigmaChunk) = [945; 963; 945]%N
  /\ includes (normalizeForComparison (greekEngine []) (contentOf sigmaChunk))
              (normalizeForComparison (greekEngine []) sigmaMatch) = false.
Proof. repeat split; reflexivity. Qed.

(** ** Claim C3: completeness of the direct matcher under normalization *)

Lemma llmFirst_scan_complete E cleaned normalized pre chunk post :
  contentOf chunk <> [] ->
  (forall c, In c pre ->
     includes (normalizeForComparison E (contentOf c)) normalized = false) ->
  includes (normalizeForComparison E (contentOf chunk)) normalized = true ->
  exists h, LlmFirst.scanChunks E cleaned normalized (pre ++ chunk :: post) = Ok (Some h)
            /\ chunkId h = id chunk.
Proof.
  intros Hne Hpre Hhit. induction pre as [|c pre IH]; cbn [app LlmFirst.scanChunks].
  - apply isEmpty_false in Hne. rewrite Hne, Hhit, newRegExp_buildPattern.
    cbn [bindR]. eexists. split; reflexivity.
  - rewrite (Hpre c (or_introl eq_refl)).
    destruct (isEmpty (contentOf c)); apply IH; intros c' Hc'; apply Hpre; now right.
Qed.

(** C3 (amended to the normalizing revision).  When the normal form of the
    snippet is not empty and occurs in the normal form of the content of
    some candidate, [findDirectMatch] returns a result whose [chunkId] is the
    id of the first such candidate in the order supplied. *)
Theorem direct_match_complete E chunks snippet pre chunk post
    (lower_nil : toLowerCase E [] = [])
    (snippet_nonempty : normalizeForComparison E snippet <> [])
    (position : chunks = pre ++ chunk :: post)
    (first : forall c, In c pre ->
       includes (normalizeForComparison E (contentOf c))
                (normalizeForComparison E snippet) = false)
    (hit : includes (normalizeForComparison E (contentOf chunk))
                    (normalizeForComparison E snippet) = true) :
  exists h, LlmFirst.findDirectMatch E chunks (VStr snippet) = Ok (Some h)
            /\ chunkId h = id chunk.
Proof.
  unfold LlmFirst.findDirectMatch. cbn [callTrim bindR].
  assert (Hclean : isEmpty (trim snippet) = false).
  { apply isEmpty_false. intros Hnil. apply snippet_nonempty.
    rewrite <- normalizeForComparison_trim, Hnil. exact lower_nil. }
  rewrite Hclean, normalizeForComparison_trim.
  apply isEmpty_false in snippet_nonempty as Hn. rewrite Hn. subst chunks.
  apply llmFirst_scan_complete; [|exact first | exact hit].
  intros Hnil. rewrite Hnil in hit.
  change (normalizeForComparison E []) with (toLowerCase E []) in hit.
  rewrite lower_nil in hit. destruct (normalizeForComparison E snippet);
    [now apply snippet_nonempty | discriminate hit].
Qed.

Lemma direct_match_complete_witness :
  exists h, LlmFirst.findDirectMatch (asciiEngine []) [dashChunk; sandwichChunk]
              (VStr dashSnippet) = Ok (Some h)
            /\ chunkId h = 7.
Proof.
  apply (direct_match_complete (asciiEngine []) [dashChunk; sandwichChunk] dashSnippet
           [] dashChunk [sandwichChunk] eq_refl).
  - discriminate.
  - reflexivity.
  - intros c [].
  - reflexivity.
Defined.

(** C3 as stated fails on route.ts, which has no normalizer: a dash variant
    in the content does not match the hyphen of the snippet. *)
Lemma direct_match_complete_counterexample :
  normalizeForComparison (asciiEngine []) dashSnippet <> []
  /\ includes (normalizeForComparison (asciiEngine []) (contentOf dashChunk))
              (normalizeForComparison (asciiEngine []) dashSnippet) = true
  /\ DirectFirst.findDirectMatch (asciiEngine []) [dashChunk] (VStr dashSnippet) = Ok None.
Proof. repeat split; [discriminate | reflexivity..]. Qed.

(** ** The model's span *)

Lemma elementAt_spec chunks n chunk :
  elementAt chunks n = Some chunk -> validIndex chunks (VNum n) chunk.
Proof.
  destruct n as [q| |]; try discriminate. cbn [elementAt].
  destruct (Pos.eqb_spec (Qden (Qred q)) 1) as [Hd|]; [|discriminate].
  destruct (Z.leb_spec 0 (Qnum (Qred q))) as [Hn|]; [|discriminate].
  cbn [andb]. intros H. exists q, (Z.to_nat (Qnum (Qred q))).
  split; [reflexivity|]. split; [|split; [|exact H]].
  - rewrite <- (Qred_correct q) at 1. rewrite Z2Nat.id by exact Hn.
    destruct (Qred q) as [num den]. cbn in Hd. subst den. reflexivity.
  - apply nth_error_Some. congruence.
Qed.

(** A span leaves the [try] block only through the gate: the parsed output
    names a candidate by an integer index in range, proposes a non-empty
    string, and the gate accepts the string against that candidate. *)
Lemma extractSpan_sound gate E W answerSnippet chunks h :
  extractSpan gate E W answerSnippet chunks = Ok (Some h) ->
  exists parsed chunk,
    modelOutput E W answerSnippet chunks parsed
    /\ validIndex chunks (getField parsed (lit "chunkIndex")) chunk
    /\ getField parsed (lit "exactText") = VStr (text h)
    /\ text h <> []
    /\ chunkId h = id chunk
    /\ gate (contentOf chunk) (text h) = true.
Proof.
  unfold extractSpan.
  destruct (llmInvoke W (buildLlmPrompt answerSnippet chunks)) as [|reply] eqn:Hinv;
    [discriminate|].
  destruct (truthy (parseLlmResponse E reply)); [|discriminate].
  destruct (callTrim (parseLlmResponse E reply)) as [trimmed|] eqn:Htrim;
    [|discriminate].
  cbn [bindR].
  destruct ((0 <=? indexOf trimmed LBRACE)
            && (indexOf trimmed LBRACE <=? lastIndexOf trimmed RBRACE));
    [|discriminate].
  destruct (JSON_parse E _) as [parsed|] eqn:Hparse; [|discriminate].
  cbn [bindR]. unfold readField.
  destruct (isNullish parsed); [discriminate|]. cbn [bindR].
  destruct (getField parsed (lit "chunkIndex")) as [| | |n| | |] eqn:Hidx;
    try discriminate.
  destruct (numGe0 n && numLtLength n (length chunks)); [|discriminate].
  destruct (getField parsed (lit "exactText")) as [| | | |exactText| |] eqn:Htext;
    try discriminate.
  destruct (elementAt chunks n) as [target|] eqn:Hel; [|discriminate].
  cbn [bindR].
  destruct (negb (isEmpty exactText) && gate (contentOf target) exactText) eqn:Hg;
    [|discriminate].
  intros [= <-]. apply andb_true_iff in Hg as [Hne Hg].
  exists parsed, target. cbn [text chunkId].
  split; [now exists reply, trimmed|].
  split; [rewrite Hidx; now apply elementAt_spec|].
  split; [exact Htext|].
  split; [apply isEmpty_false; now apply negb_true_iff|].
  split; [reflexivity | exact Hg].
Qed.

Lemma llmStageOf_extract r E W answerSnippet chunks h :
  llmStageOf r E W answerSnippet chunks = Some h ->
  extractSpan (gateOf r E) E W answerSnippet chunks = Ok (Some h).
Proof.
  destruct r; cbn [llmStageOf gateOf];
    unfold DirectFirst.llmStage, LlmFirst.llmStage.
  - destruct (truthy answerSnippet && openaiKey W); [|discriminate].
    destruct (extractSpan _ _ _ _ _) as [[h'|]|]; cbn; congruence.
  - destruct (openaiKey W); [|discriminate].
    destruct (extractSpan _ _ _ _ _) as [[h'|]|]; cbn; congruence.
Qed.

(** ** Claim C1: the validation gate of the model's span *)

(** C1 (amended).  In either revision the model stage surfaces a span only
    if the parsed output names a candidate by an integer index in
    [0, chunks.length), proposes a non-empty string, and the revision's gate
    holds on that candidate: there the normal form of the span occurs in the
    normal form of the content ([Normalizing]), or the span occurs verbatim
    in the raw content ([RouteTs]).  The normalized condition holds in both
    whenever lower-casing converts each code unit on its own.  Any other
    output leaves the stage null. *)
Theorem llm_validation_gate r E W answerSnippet chunks h :
  llmStageOf r E W answerSnippet chunks = Some h ->
  exists parsed chunk,
    modelOutput E W answerSnippet chunks parsed
    /\ validIndex chunks (getField parsed (lit "chunkIndex")) chunk
    /\ getField parsed (lit "exactText") = VStr (text h)
    /\ text h <> []
    /\ chunkId h = id chunk
    /\ gateOf r E (contentOf chunk) (text h) = true
    /\ (r = Normalizing \/ contextFree E ->
        includes (normalizeForComparison E (contentOf chunk))
                 (normalizeForComparison E (text h)) = true).
Proof.
  intros H. apply llmStageOf_extract in H.
  destruct (extractSpan_sound _ E W answerSnippet chunks h H)
    as [parsed [chunk [Hout [Hidx [Htext [Hne [Hid Hgate]]]]]]].
  exists parsed, chunk. do 6 (split; [assumption|]).
  intros [-> | [f Hf]].
  - exact Hgate.
  - destruct r; cbn [gateOf] in Hgate; [|exact Hgate].
    apply includes_spec. apply (normalizeForComparison_substring E f _ _ Hf).
    now apply includes_spec.
Qed.

Lemma llm_validation_gate_witness :
  llmStageOf Normalizing sandwichEngine sandwichWorld paraphrase [sandwichChunk]
    = Some {| text := sandwichSpan; chunkId := 1 |}
  /\ exists parsed chunk,
       validIndex [sandwichChunk] (getField parsed (lit "chunkIndex")) chunk
       /\ includes (normalizeForComparison sandwichEngine (contentOf chunk))
                   (normalizeForComparison sandwichEngine sandwichSpan) = true.
Proof.
  split; [reflexivity|].
  destruct (llm_validation_gate Normalizing sandwichEngine sandwichWorld paraphrase
              [sandwichChunk] {| text := sandwichSpan; chunkId := 1 |} eq_refl)
    as [parsed [chunk [_ [Hidx [_ [_ [_ [_ Hnorm]]]]]]]].
  exists parsed, chunk. split; [exact Hidx | apply Hnorm; now left].
Defined.

(** C1 as stated fails on route.ts, whose gate is the raw [includes]: the
    span [U+0391 U+03A3] is cut out of the content [U+0391 U+03A3 U+0391]
    and is surfaced, in the response too, while its normal form (ending in
    the final sigma) does not occur in the normal form of the content. *)
Lemma llm_validation_gate_counterexample :
  DirectFirst.llmStage sigmaEngine sigmaWorld paraphrase [sigmaChunk]
    = Some {| text := sigmaMatch; chunkId := 1 |}
  /\ fst (DirectFirst.POST sigmaEngine sigmaWorld (Some (requestBody paraphrase)))
    = Resp200 (Some {| text := sigmaMatch; chunkId := 1 |})
              (serializeChunks sigmaEngine [sigmaChunk])
  /\ includes (normalizeForComparison sigmaEngine (contentOf sigmaChunk))
              (normalizeForComparison sigmaEngine sigmaMatch) = false.
Proof. repeat split; reflexivity. Qed.

(** ** Claim C9: highlights of route.ts are verbatim *)

Lemma serialized_In E chunks chunk :
  In chunk chunks ->
  exists sc, In sc (serializeChunks E chunks)
             /\ s_id sc = id chunk /\ s_text sc = contentOf chunk.
Proof.
  intros H. exists (serializeChunk E chunk). split; [|split; reflexivity].
  unfold serializeChunks. now apply in_map.
Qed.

(** The response of route.ts from the located candidates on. *)
Lemma directFirst_resolve_cases E W answerSnippet chunks :
  DirectFirst.resolve E W answerSnippet chunks = Throw
  \/ (exists h, DirectFirst.findDirectMatch E chunks answerSnippet = Ok (Some h)
                /\ DirectFirst.resolve E W answerSnippet chunks
                   = Ok (Resp200 (Some h) (serializeChunks E chunks)))
  \/ DirectFirst.resolve E W answerSnippet chunks
     = Ok (Resp200 (DirectFirst.llmStage E W answerSnippet chunks)
                   (serializeChunks E chunks)).
Proof.
  unfold DirectFirst.resolve. destruct (truthy answerSnippet).
  - destruct (DirectFirst.findDirectMatch E chunks answerSnippet) as [[h|]|];
      cbn [bindR]; [right; left; now exists h | now right; right | now left].
  - cbn [bindR]. now right; right.
Qed.

(** C9.  A non-null highlight in a 200 response of route.ts names, by
    [chunkId], a chunk of the response whose raw text contains the
    highlight's [text] verbatim. *)
Theorem verbatim_highlight E W body h cs trace :
  DirectFirst.POST E W body = (Resp200 (Some h) cs, trace) ->
  exists sc, In sc cs /\ s_id sc = chunkId h /\ substring_of (text h) (s_text sc).
Proof.
  unfold DirectFirst.POST. destruct body as [b|]; [|discriminate].
  destruct (negb (truthy (filename (destructure b))) || isUndefined (page (destructure b)));
    [discriminate|].
  destruct (negb (supabaseConfigured W)); [discriminate|].
  destruct (DirectFirst.locateChunks W _ _ _ []) as [[chunks|] trace'];
    [|discriminate].
  destruct (isNil chunks); [discriminate|].
  assert (Hfound : forall chunk, In chunk chunks -> id chunk = chunkId h ->
            substring_of (text h) (contentOf chunk) ->
            exists sc, In sc (serializeChunks E chunks) /\ s_id sc = chunkId h
                       /\ substring_of (text h) (s_text sc)).
  { intros chunk Hin Hid Hsub.
    destruct (serialized_In E chunks chunk Hin) as [sc [Hsc [Hi Ht]]].
    exists sc. rewrite Hi, Ht. now repeat split. }
  destruct (directFirst_resolve_cases E W (answerSnippet (destructure b)) chunks)
    as [Hr | [[h' [Hfind Hr]] | Hr]]; rewrite Hr; cbn [catchTo500].
  - discriminate.
  - intros [= <- <- _].
    destruct (directFirst_find_raw E chunks _ h' Hfind) as [chunk [Hin [Hid Hsub]]].
    now apply (Hfound chunk).
  - intros [= Hstage <- _].
    apply (llmStageOf_extract RouteTs) in Hstage.
    destruct (extractSpan_sound _ E W _ chunks h Hstage)
      as [parsed [chunk [_ [[q [i [_ [_ [_ Hnth]]]]] [_ [_ [Hid Hgate]]]]]]].
    apply (Hfound chunk); [now apply (nth_error_In chunks i) | now symmetry |].
    now apply includes_spec.
Qed.

Lemma verbatim_highlight_witness :
  exists sc,
    In sc (serializeChunks sandwichEngine [sandwichChunk])
    /\ s_id sc = 1
    /\ substring_of (lit "sandwich method reduces price resistance") (s_text sc).
Proof.
  apply (verbatim_highlight sandwichEngine sandwichWorld
           (Some (requestBody (VStr sandwichSnippet)))
           {| text := lit "sandwich method reduces price resistance"; chunkId := 1 |}
           (serializeChunks sandwichEngine [sandwichChunk])
           [pageQuery (VStr (lit "sales.pdf")) (VStr (lit "5")) (VStr (lit "acme"))]).
  reflexivity.
Defined.

(** ** The chunk locator *)

Lemma withOrg_filters orgUrl q :
  filters (withOrg orgUrl q) = filters q ++ orgFilter orgUrl
  /\ limit (withOrg orgUrl q) = limit q.
Proof.
  unfold withOrg, orgFilter. destruct (truthy orgUrl); cbn; [easy|].
  now rewrite app_nil_r.
Qed.

Lemma directFirst_locate_hit W filename pageValue orgUrl c cs :
  error (store W (pageQuery filename pageValue orgUrl)) = false ->
  data (store W (pageQuery filename pageValue orgUrl)) = Some (c :: cs) ->
  DirectFirst.locateChunks W filename pageValue orgUrl []
  = (Some (c :: cs), [pageQuery filename pageValue orgUrl]).
Proof.
  intros He Hd. unfold DirectFirst.locateChunks, bindT, await, retT, rowsOf.
  now rewrite He, Hd.
Qed.

Lemma llmFirst_locate_hit E W filename page orgUrl c cs :
  error (store W (pageQuery filename (stringifyPage E page) orgUrl)) = false ->
  data (store W (pageQuery filename (stringifyPage E page) orgUrl)) = Some (c :: cs) ->
  LlmFirst.locateChunks E W filename page orgUrl []
  = (Some (c :: cs), [pageQuery filename (stringifyPage E page) orgUrl]).
Proof.
  intros He Hd. unfold LlmFirst.locateChunks, bindT, await, retT, rowsOf.
  now rewrite He, Hd.
Qed.

Lemma directFirst_locate_order W filename pageValue orgUrl :
  inTierOrder (pageQuery filename pageValue orgUrl) None (fallbackQuery filename orgUrl)
    (snd (DirectFirst.locateChunks W filename pageValue orgUrl [])).
Proof.
  unfold DirectFirst.locateChunks, bindT, await, retT.
  destruct (error (store W _)); [now left|].
  destruct (isNil (rowsOf (store W _))); cbn; [right; now left | now left].
Qed.

Lemma llmFirst_locate_order E W filename page orgUrl :
  inTierOrder (pageQuery filename (stringifyPage E page) orgUrl)
    (option_map (fun d => locQuery filename d orgUrl) (LlmFirst.pageNumberFallback E page))
    (fallbackQuery filename orgUrl)
    (snd (LlmFirst.locateChunks E W filename page orgUrl [])).
Proof.
  unfold LlmFirst.locateChunks, bindT, await, retT.
  destruct (error (store W _)); [now left|].
  destruct (isNil (rowsOf (store W _))) eqn:Hnil; cbn [app].
  - destruct (LlmFirst.pageNumberFallback E page) as [d|]; cbn [option_map].
    + destruct (isEmpty d).
      * rewrite Hnil. cbn. right; now left.
      * destruct (data (store W (locQuery filename d orgUrl))) as [[|c cs]|];
          cbn [isNil]; try rewrite Hnil; cbn; right; right;
          exists (locQuery filename d orgUrl); (split; [reflexivity|]);
          try (now left); now right.
    + rewrite Hnil. cbn. right; now left.
  - rewrite Hnil. cbn. now left.
Qed.

(** ** Claim C5: the locator stops at the first tier that answers *)

(** C5.  When the exact-page query (source and stringified page, and the
    tenant when given) returns at least one chunk, it is the only query
    either revision issues and its rows are the candidates; and the queries
    of any lookup come in the order of the tiers. *)
Theorem locator_short_circuit E W filename page orgUrl :
  let q1 := pageQuery filename (stringifyPage E page) orgUrl in
  let q2 := option_map (fun d => locQuery filename d orgUrl)
                       (LlmFirst.pageNumberFallback E page) in
  let q3 := fallbackQuery filename orgUrl in
  filters q1 = [(ColSource, filename); (ColPage, stringifyPage E page)] ++ orgFilter orgUrl
  /\ limit q1 = None
  /\ (forall c cs,
        error (store W q1) = false -> data (store W q1) = Some (c :: cs) ->
        DirectFirst.locateChunks W filename (stringifyPage E page) orgUrl []
          = (Some (c :: cs), [q1])
        /\ LlmFirst.locateChunks E W filename page orgUrl [] = (Some (c :: cs), [q1]))
  /\ inTierOrder q1 None q3
       (snd (DirectFirst.locateChunks W filename (stringifyPage E page) orgUrl []))
  /\ inTierOrder q1 q2 q3 (snd (LlmFirst.locateChunks E W filename page orgUrl [])).
Proof.
  cbv zeta. split; [apply withOrg_filters|]. split; [apply withOrg_filters|].
  split; [|split].
  - intros c cs He Hd. split.
    + now apply directFirst_locate_hit.
    + now apply llmFirst_locate_hit.
  - apply directFirst_locate_order.
  - apply llmFirst_locate_order.
Qed.

Lemma locator_short_circuit_witness :
  DirectFirst.locateChunks sandwichWorld salesPdf (stringifyPage sandwichEngine pageFive) acme []
    = (Some [sandwichChunk], [pageQuery salesPdf (VStr (lit "5")) acme])
  /\ LlmFirst.locateChunks sandwichEngine sandwichWorld salesPdf pageFive acme []
    = (Some [sandwichChunk], [pageQuery salesPdf (VStr (lit "5")) acme]).
Proof.
  apply (proj1 (proj2 (proj2
           (locator_short_circuit sandwichEngine sandwichWorld salesPdf pageFive acme)))
           sandwichChunk [] eq_refl eq_refl).
Defined.

(** ** Claim C6: the retry on the loader's page number *)

Lemma takeDigits_spec s :
  exists post, s = LlmFirst.takeDigits s ++ post
    /\ forallb LlmFirst.isDigit (LlmFirst.takeDigits s) = true
    /\ match post with [] => True | c :: _ => LlmFirst.isDigit c = false end.
Proof.
  induction s as [|c r [post [Hs [Hd Hp]]]]; [now exists []|]. simpl.
  destruct (LlmFirst.isDigit c) eqn:Hc.
  - exists post. simpl. rewrite Hc, Hd. repeat split; [now rewrite <- Hs | exact Hp].
  - exists (c :: r). now repeat split.
Qed.

(** [page.match(/\d+/)] finds the first maximal run of decimal digits. *)
Lemma matchDigits_spec s digits :
  LlmFirst.matchDigits s = Some digits ->
  exists pre post, s = pre ++ digits ++ post
    /\ forallb (fun c => negb (LlmFirst.isDigit c)) pre = true
    /\ forallb LlmFirst.isDigit digits = true
    /\ digits <> []
    /\ match post with [] => True | c :: _ => LlmFirst.isDigit c = false end.
Proof.
  induction s as [|c r IH]; [discriminate|]. simpl.
  destruct (LlmFirst.isDigit c) eqn:Hc.
  - intros [= <-]. destruct (takeDigits_spec r) as [post [Hs [Hd Hp]]].
    exists [], post. cbn [app forallb]. rewrite Hc, Hd.
    repeat split; [now rewrite <- Hs | discriminate | exact Hp].
  - intros H. destruct (IH H) as [pre [post [Hs [Hpre Hrest]]]].
    exists (c :: pre), post. cbn [app forallb]. rewrite Hc, Hpre.
    split; [now rewrite Hs | now split].
Qed.

Lemma matchDigits_some s :
  existsb LlmFirst.isDigit s = true -> LlmFirst.matchDigits s <> None.
Proof.
  induction s as [|c r IH]; [discriminate|]. simpl.
  destruct (LlmFirst.isDigit c); [discriminate | exact IH].
Qed.

(** C6 (amended to the revision that has the retry).  When the exact-page
    query returns no chunk and the page yields a non-empty page number (the
    first run of decimal digits of a string page, the printed number of a
    numeric page), the locator queries [metadata.loc.pageNumber] for it, with
    the tenant when given, before the page-free query: a non-empty answer is
    the candidate list and ends the lookup, an empty one is followed by the
    page-free query. *)
Theorem tier2_alternate_page_field E W filename page orgUrl digits
    (no_error : error (store W (pageQuery filename (stringifyPage E page) orgUrl)) = false)
    (tier1_empty : rowsOf (store W (pageQuery filename (stringifyPage E page) orgUrl)) = [])
    (extracted : LlmFirst.pageNumberFallback E page = Some digits)
    (nonempty : digits <> []) :
  let q1 := pageQuery filename (stringifyPage E page) orgUrl in
  let q2 := locQuery filename digits orgUrl in
  let q3 := fallbackQuery filename orgUrl in
  filters q2 = [(ColSource, filename); (ColLocPageNumber, VStr digits)] ++ orgFilter orgUrl
  /\ limit q2 = None
  /\ LlmFirst.locateChunks E W filename page orgUrl [] =
       match data (store W q2) with
       | Some (c :: cs) => (Some (c :: cs), [q1; q2])
       | _ => (Some (rowsOf (store W q3)), [q1; q2; q3])
       end
  /\ (forall s, page = VStr s ->
        exists pre post, s = pre ++ digits ++ post
          /\ forallb (fun c => negb (LlmFirst.isDigit c)) pre = true
          /\ forallb LlmFirst.isDigit digits = true
          /\ match post with [] => True | c :: _ => LlmFirst.isDigit c = false end)
  /\ (forall n, page = VNum n -> digits = numberToString E n).
Proof.
  cbv zeta. split; [apply withOrg_filters|]. split; [apply withOrg_filters|].
  split; [|split].
  - unfold LlmFirst.locateChunks, bindT, await, retT.
    rewrite no_error, tier1_empty, extracted. cbn [isNil].
    apply isEmpty_false in nonempty. rewrite nonempty. cbn [app].
    destruct (data (store W (locQuery filename digits orgUrl))) as [[|c cs]|];
      reflexivity.
  - intros s ->. cbn in extracted.
    destruct (matchDigits_spec s digits extracted) as [pre [post [H1 [H2 [H3 [_ H4]]]]]].
    now exists pre, post.
  - intros n ->. cbn in extracted. congruence.
Qed.

(** Scenario C of the specification. *)
Lemma tier2_alternate_page_field_witness :
  LlmFirst.locateChunks sandwichEngine scenarioC salesPdf pageFive acme []
  = (Some [locChunk],
     [pageQuery salesPdf (VStr (lit "5")) acme; locQuery salesPdf (lit "5") acme]).
Proof.
  apply (proj1 (proj2 (proj2
           (tier2_alternate_page_field sandwichEngine scenarioC salesPdf pageFive acme
              (lit "5") eq_refl eq_refl eq_refl ltac:(discriminate))))).
Defined.

(** C6 as stated fails on route.ts, which has no such retry: in scenario C it
    goes from the exact-page query straight to the page-free query and
    returns its rows, although the location query would have found the
    chunk. *)
Lemma tier2_alternate_page_field_counterexample :
  rowsOf (store scenarioC (pageQuery salesPdf (VStr (lit "5")) acme)) = []
  /\ LlmFirst.pageNumberFallback sandwichEngine pageFive = Some (lit "5")
  /\ data (store scenarioC (locQuery salesPdf (lit "5") acme)) = Some [locChunk]
  /\ DirectFirst.locateChunks scenarioC salesPdf (stringifyPage sandwichEngine pageFive) acme []
     = (Some [otherChunk],
        [pageQuery salesPdf (VStr (lit "5")) acme; fallbackQuery salesPdf acme])
  /\ fst (DirectFirst.POST sandwichEngine scenarioC (Some (requestBody paraphrase)))
     = Resp200 None (serializeChunks sandwichEngine [otherChunk]).
Proof. repeat split; reflexivity. Qed.

(** ** The handlers from the candidates on *)

Lemma directFirst_scan_total E cleaned chunks :
  exists r, DirectFirst.scanChunks E cleaned chunks = Ok r.
Proof.
  induction chunks as [|chunk rest [r IH]]; [now exists None|].
  cbn [DirectFirst.scanChunks]. rewrite newRegExp_buildPattern. cbn [bindR].
  destruct (isEmpty (contentOf chunk)); [now exists r|].
  destruct (includes (contentOf chunk) cleaned); [eexists; reflexivity|].
  destruct (regexSearch E (patternOf cleaned) (contentOf chunk)) as [m|];
    [|now exists r].
  destruct (isEmpty m); [now exists r | eexists; reflexivity].
Qed.

Lemma llmFirst_scan_total E cleaned normalized chunks :
  exists r, LlmFirst.scanChunks E cleaned normalized chunks = Ok r.
Proof.
  induction chunks as [|chunk rest [r IH]]; [now exists None|].
  cbn [LlmFirst.scanChunks]. rewrite newRegExp_buildPattern. cbn [bindR].
  destruct (isEmpty (contentOf chunk)); [now exists r|].
  destruct (includes _ normalized); [eexists; reflexivity | now exists r].
Qed.

(** On a string, neither direct matcher throws. *)
Lemma findDirectMatch_total r E chunks s :
  exists res, findDirectMatchOf r E chunks (VStr s) = Ok res.
Proof.
  destruct r; cbn [findDirectMatchOf];
    unfold DirectFirst.findDirectMatch, LlmFirst.findDirectMatch;
    cbn [callTrim bindR]; (destruct (isEmpty (trim s)); [now exists None|]).
  - apply directFirst_scan_total.
  - destruct (isEmpty _); [now exists None | apply llmFirst_scan_total].
Qed.

Lemma logCandidates_ok chunks :
  Forall (fun c => isNullish (metadata c) = false) chunks ->
  LlmFirst.logCandidates chunks = Ok tt.
Proof.
  induction 1 as [|chunk rest Hc _ IH]; [reflexivity|].
  cbn [LlmFirst.logCandidates]. unfold LlmFirst.logCandidate, readField.
  destruct (isNullish (getFieldOptional (metadata chunk) (lit "page")));
    rewrite ?Hc; cbn [bindR]; exact IH.
Qed.

Lemma llmFirst_resolve_cases E W answerSnippet chunks :
  LlmFirst.resolve E W answerSnippet chunks = Throw
  \/ exists h, LlmFirst.resolve E W answerSnippet chunks
               = Ok (Resp200 h (serializeChunks E chunks)).
Proof.
  unfold LlmFirst.resolve. destruct (LlmFirst.logCandidates chunks); [|now left].
  cbn [bindR]. destruct (LlmFirst.llmStage E W answerSnippet chunks) as [h|].
  - right. now exists (Some h).
  - destruct (LlmFirst.findDirectMatch E chunks answerSnippet) as [h|]; [|now left].
    right. now exists h.
Qed.

(** Past validation and configuration the response is that of [resolve],
    unless no candidate was found. *)
Lemma POST_located r E W b chunks trace :
  passesValidation (destructure b) ->
  supabaseConfigured W = true ->
  candidatesOf r E W (destructure b) = (Some chunks, trace) ->
  chunks <> [] ->
  match r with
  | RouteTs =>
      DirectFirst.POST E W (Some b)
      = (catchTo500 (DirectFirst.resolve E W (answerSnippet (destructure b)) chunks), trace)
  | Normalizing =>
      LlmFirst.POST E W (Some b)
      = match LlmFirst.logRequest (answerSnippet (destructure b)) with
        | Ok _ =>
            (catchTo500 (LlmFirst.resolve E W (answerSnippet (destructure b)) chunks), trace)
        | Throw => (Resp500 InternalServerError, [])
        end
  end.
Proof.
  intros [Hf Hp] Hcfg Hloc Hne.
  assert (Hnil : isNil chunks = false) by (destruct chunks; [contradiction | reflexivity]).
  destruct r; cbn [candidatesOf] in Hloc;
    unfold DirectFirst.POST, LlmFirst.POST; rewrite Hf, Hp, Hcfg, Hloc, Hnil;
    cbn [negb orb]; [reflexivity|].
  now destruct (LlmFirst.logRequest _).
Qed.

(** ** Claim C4: the candidate list reaches the response whole *)

(** C4.  When the locator returns at least one candidate, every 200 response
    carries the serialized candidates, one entry per candidate in the
    locator's order, whatever the highlight is; and the response is a 200 for
    every request and candidate list of the data model. *)
Theorem fallback_completeness r E W b chunks trace
    (valid : passesValidation (destructure b))
    (configured : supabaseConfigured W = true)
    (located : candidatesOf r E W (destructure b) = (Some chunks, trace))
    (some_candidate : chunks <> []) :
  (forall h cs t,
     POSTOf r E W (Some b) = (Resp200 h cs, t) ->
     cs = serializeChunks E chunks
     /\ length cs = length chunks
     /\ map s_id cs = map id chunks)
  /\ (wellTyped r (destructure b) chunks ->
      exists h, POSTOf r E W (Some b) = (Resp200 h (serializeChunks E chunks), trace)).
Proof.
  pose proof (POST_located r E W b chunks trace valid configured located some_candidate)
    as HP.
  assert (Hser : length (serializeChunks E chunks) = length chunks
                 /\ map s_id (serializeChunks E chunks) = map id chunks).
  { unfold serializeChunks. rewrite length_map, map_map. now split. }
  split.
  - intros h cs t. destruct r; cbn [POSTOf]; rewrite HP.
    + destruct (directFirst_resolve_cases E W (answerSnippet (destructure b)) chunks)
        as [Hr | [[h' [_ Hr]] | Hr]]; rewrite Hr; cbn [catchTo500];
        [discriminate | | ]; intros [= _ <- _]; now split.
    + destruct (LlmFirst.logRequest _); [|discriminate].
      destruct (llmFirst_resolve_cases E W (answerSnippet (destructure b)) chunks)
        as [Hr | [h' Hr]]; rewrite Hr; cbn [catchTo500];
        [discriminate|]; intros [= _ <- _]; now split.
  - intros [[s Hs] Hmeta]. destruct r; cbn [POSTOf]; rewrite HP, Hs.
    + destruct (directFirst_resolve_cases E W (VStr s) chunks)
        as [Hr | [[h' [_ Hr]] | Hr]]; try (rewrite Hr; eexists; reflexivity).
      exfalso. unfold DirectFirst.resolve in Hr.
      destruct (findDirectMatch_total RouteTs E chunks s) as [res Hres].
      cbn [findDirectMatchOf] in Hres. rewrite Hres in Hr.
      destruct (truthy (VStr s)); cbn [bindR] in Hr; [destruct res|]; discriminate.
    + cbn [LlmFirst.logRequest]. unfold LlmFirst.resolve.
      rewrite (logCandidates_ok chunks (Hmeta eq_refl)). cbn [bindR].
      destruct (findDirectMatch_total Normalizing E chunks s) as [res Hres].
      cbn [findDirectMatchOf] in Hres. rewrite Hres.
      destruct (LlmFirst.llmStage E W (VStr s) chunks); cbn [bindR catchTo500];
        eexists; reflexivity.
Qed.

Lemma fallback_completeness_witness :
  exists h,
    POSTOf Normalizing sandwichEngine sandwichWorld (Some (requestBody paraphrase))
    = (Resp200 h (serializeChunks sandwichEngine [sandwichChunk]),
       [pageQuery salesPdf (VStr (lit "5")) acme]).
Proof.
  apply (proj2 (fallback_completeness Normalizing sandwichEngine sandwichWorld
                  (requestBody paraphrase) [sandwichChunk]
                  [pageQuery salesPdf (VStr (lit "5")) acme]
                  (conj eq_refl eq_refl) eq_refl eq_refl ltac:(discriminate))).
  split; [now exists (lit "what lowers price resistance?")|].
  intros _. repeat constructor.
Defined.

(** ** Claim C7: a failing model stage is not fatal *)








(** ** Claim C10: request validation *)

Lemma resolve_status r E W a chunks :
  statusOf (catchTo500 (match r with
                        | RouteTs => DirectFirst.resolve E W a chunks
                        | Normalizing => LlmFirst.resolve E W a chunks
                        end)) <> 400.
Proof.
  destruct r.
  - destruct (directFirst_resolve_cases E W a chunks) as [H | [[h [_ H]] | H]];
      rewrite H; discriminate.
  - destruct (llmFirst_resolve_cases E W a chunks) as [H | [h H]];
      rewrite H; discriminate.
Qed.

(** route.ts answers 400 exactly when the filename is falsy or the page is
    [undefined]. *)
Lemma directFirst_validation_exact E W b :
  statusOf (fst (DirectFirst.POST E W (Some b))) = 400
  <-> truthy (filename (destructure b)) = false \/ page (destructure b) = VUndef.
Proof.
  unfold DirectFirst.POST.
  destruct (truthy (filename (destructure b))) eqn:Hf; cbn [negb orb].
  2:{ split; [now left | reflexivity]. }
  destruct (page (destructure b)) eqn:Hp; cbn [isUndefined];
    try (split; [intros _; now right | reflexivity]);
    (split; [|intros [H|H]; discriminate]);
    (destruct (negb (supabaseConfigured W)); [discriminate|]);
    (destruct (DirectFirst.locateChunks W _ _ _ []) as [[chunks|] trace];
       [|discriminate]);
    (destruct (isNil chunks); [discriminate|]);
    cbn [fst]; intros H; now apply (resolve_status RouteTs) in H.
Qed.

(** The revision with logging answers 400 exactly when, in addition, the
    arguments of its first log entry can be evaluated. *)
Lemma llmFirst_validation_exact E W b :
  statusOf (fst (LlmFirst.POST E W (Some b))) = 400
  <-> LlmFirst.logRequest (answerSnippet (destructure b)) = Ok tt
      /\ (truthy (filename (destructure b)) = false \/ page (destructure b) = VUndef).
Proof.
  unfold LlmFirst.POST.
  destruct (LlmFirst.logRequest (answerSnippet (destructure b))) as [[]|] eqn:Hlog.
  2:{ split; [discriminate | intros [H _]; discriminate]. }
  destruct (truthy (filename (destructure b))) eqn:Hf; cbn [negb orb].
  2:{ split; [intros _; split; [reflexivity | now left] | reflexivity]. }
  destruct (page (destructure b)) eqn:Hp; cbn [isUndefined];
    try (split; [intros _; split; [reflexivity | now right] | reflexivity]);
    (split; [|intros [_ [H|H]]; discriminate]);
    (destruct (negb (supabaseConfigured W)); [discriminate|]);
    (destruct (LlmFirst.locateChunks E W _ _ _ []) as [[chunks|] trace];
       [|discriminate]);
    (destruct (isNil chunks); [discriminate|]);
    cbn [fst]; intros H; now apply (resolve_status Normalizing) in H.
Qed.

(** A page that is [null], [0] or the empty string passes validation, and
    the exact-page query is issued with it, turned into a string only when it
    is a number. *)
Lemma validation_edge_pages r E W b :
  truthy (filename (destructure b)) = true ->
  supabaseConfigured W = true ->
  (r = Normalizing -> LlmFirst.logRequest (answerSnippet (destructure b)) = Ok tt) ->
  page (destructure b) = VNull \/ page (destructure b) = VNum (NFin 0)
  \/ page (destructure b) = VStr [] ->
  statusOf (fst (POSTOf r E W (Some b))) <> 400
  /\ (exists rest,
       snd (POSTOf r E W (Some b))
       = pageQuery (filename (destructure b)) (stringifyPage E (page (destructure b)))
                   (orgUrl (destructure b)) :: rest)
  /\ (page (destructure b) = VNull -> stringifyPage E (page (destructure b)) = VNull)
  /\ (page (destructure b) = VStr [] -> stringifyPage E (page (destructure b)) = VStr [])
  /\ (page (destructure b) = VNum (NFin 0) ->
      stringifyPage E (page (destructure b)) = VStr (numberToString E (NFin 0))).
Proof.
  intros Hf Hcfg Hlog Hpage.
  assert (Hu : isUndefined (page (destructure b)) = false)
    by (destruct Hpage as [->|[->| ->]]; reflexivity).
  split; [|split; [|repeat split; intros ->; reflexivity]].
  - destruct r; cbn [POSTOf].
    + intros H. apply directFirst_validation_exact in H as [H|H]; [congruence|].
      now rewrite H in Hu.
    + intros H. apply llmFirst_validation_exact in H as [_ [H|H]]; [congruence|].
      now rewrite H in Hu.
  - destruct r; cbn [POSTOf]; unfold DirectFirst.POST, LlmFirst.POST;
      rewrite ?(Hlog eq_refl), Hf, Hu, Hcfg; cbn [negb orb].
    + pose proof (directFirst_locate_order W (filename (destructure b))
                    (stringifyPage E (page (destructure b))) (orgUrl (destructure b))) as Ho.
      destruct (DirectFirst.locateChunks W _ _ _ []) as [[chunks|] trace]; cbn [snd] in *;
        [destruct (isNil chunks)|]; cbn [snd];
        destruct Ho as [->|[->|[q [_ [->| ->]]]]]; eexists; reflexivity.
    + pose proof (llmFirst_locate_order E W (filename (destructure b))
                    (page (destructure b)) (orgUrl (destructure b))) as Ho.
      destruct (LlmFirst.locateChunks E W _ _ _ []) as [[chunks|] trace]; cbn [snd] in *;
        [destruct (isNil chunks)|]; cbn [snd];
        destruct Ho as [->|[->|[q [_ [->| ->]]]]]; eexists; reflexivity.
Qed.

(** C10 on the failing input: with no filename and the number 42 as answer
    snippet, the revision with logging answers 500, because the arguments of
    its first log entry throw before the validation, where route.ts answers
    400. *)
Theorem validation_after_logging E W :
  fst (LlmFirst.POST E W (Some numericSnippetBody)) = Resp500 InternalServerError
  /\ fst (DirectFirst.POST E W (Some numericSnippetBody)) = Resp400 FilenameAndPageRequired
  /\ truthy (filename (destructure numericSnippetBody)) = false.
Proof. repeat split. Qed.

(** ** The scenarios of the specification *)

Example scenario_A :
  findDirectMatchOf Normalizing (asciiEngine []) [sandwichChunk]
    (VStr (lit "sandwich method reduces price resistance"))
  = Ok (Some {| text := lit "sandwich method reduces price resistance"; chunkId := 1 |})
  /\ findDirectMatchOf RouteTs (asciiEngine []) [sandwichChunk]
    (VStr (lit "sandwich method reduces price resistance"))
  = Ok (Some {| text := lit "sandwich method reduces price resistance"; chunkId := 1 |}).
Proof. split; reflexivity. Qed.

(** Extra white space and different casing in the snippet: the text returned
    is the chunk's own. *)
Example scenario_B :
  findDirectMatchOf Normalizing (asciiEngine []) [sandwichChunk] (VStr sandwichSnippet)
  = Ok (Some {| text := lit "sandwich method reduces price resistance"; chunkId := 1 |}).
Proof. reflexivity. Qed.

Example scenario_D :
  POSTOf Normalizing scenarioDEngine scenarioD (Some (requestBody paraphrase))
  = (Resp200 None (serializeChunks scenarioDEngine [sandwichChunk]),
     [pageQuery salesPdf (VStr (lit "5")) acme]).
Proof. reflexivity. Qed.

Example scenario_E :
  fst (POSTOf RouteTs (asciiEngine []) sandwichWorld (Some scenarioE))
    = Resp400 FilenameAndPageRequired
  /\ fst (POSTOf Normalizing (asciiEngine []) sandwichWorld (Some scenarioE))
    = Resp400 FilenameAndPageRequired.
Proof. split; reflexivity. Qed.

(* ================================================================== *)
(** * Further properties of the handlers *)

(** ** The pattern of the direct matcher, as a language *)

Lemma moreSpaces_sound (k : jsstring -> option jsstring) (P : jsstring -> Prop) :
  (forall t m, k t = Some m -> P m) ->
  forall t m, moreSpaces k t = Some m ->
  exists w m', m = w ++ m' /\ forallb isWhiteSpace w = true /\ P m'.
Proof.
  intros Hk t. induction t as [|y t IH]; intros m; simpl.
  - intros H. exists [], m. repeat split. now apply (Hk []).
  - destruct (isWhiteSpace y) eqn:Hy.
    + destruct (moreSpaces k t) as [m1|] eqn:Hm.
      * intros [= <-]. destruct (IH m1 eq_refl) as [w [m' [-> [Hw Hp]]]].
        exists (y :: w), m'. cbn [forallb app]. rewrite Hy, Hw. now repeat split.
      * intros H. exists [], m. repeat split. now apply (Hk (y :: t)).
    + intros H. exists [], m. repeat split. now apply (Hk (y :: t)).
Qed.

Lemma matchHere_sound E re : forall s m, matchHere E re s = Some m -> denotes E re m.
Proof.
  induction re as [|a re IH]; intros s m.
  - simpl. intros [= <-]. constructor.
  - destruct a as [c|]; simpl; destruct s as [|x s']; try discriminate.
    + destruct (N.eqb_spec (canonicalize E x) (canonicalize E c)) as [Hx|]; [|discriminate].
      destruct (matchHere E re s') as [m'|] eqn:Hm; [|discriminate].
      intros [= <-]. constructor; [exact Hx | now apply (IH s')].
    + destruct (isWhiteSpace x) eqn:Hx; [|discriminate].
      destruct (moreSpaces (matchHere E re) s') as [m'|] eqn:Hm; [|discriminate].
      intros [= <-].
      destruct (moreSpaces_sound (matchHere E re) (denotes E re) IH s' m' Hm)
        as [w [m1 [-> [Hw Hd]]]].
      apply (denotes_spaces E re (x :: w) m1); [discriminate | | exact Hd].
      cbn [forallb]. now rewrite Hx, Hw.
Qed.

Lemma regexSearch_sound E re s m : regexSearch E re s = Some m -> denotes E re m.
Proof.
  induction s as [|c s IH]; simpl.
  - destruct (matchHere E re []) as [m'|] eqn:Hm; [|discriminate].
    intros [= <-]. now apply (matchHere_sound E re []).
  - destruct (matchHere E re (c :: s)) as [m'|] eqn:Hm; [|exact IH].
    intros [= <-]. now apply (matchHere_sound E re (c :: s)).
Qed.

Lemma moreSpaces_complete (k : jsstring -> option jsstring) w u :
  forallb isWhiteSpace w = true -> k u <> None -> moreSpaces k (w ++ u) <> None.
Proof.
  intros Hw Hk. induction w as [|y w IH]; cbn [app].
  - destruct u as [|c u]; simpl; [exact Hk|].
    destruct (isWhiteSpace c); [|exact Hk].
    destruct (moreSpaces k u); [discriminate | exact Hk].
  - cbn [forallb] in Hw. apply andb_true_iff in Hw as [Hy Hw]. simpl. rewrite Hy.
    destruct (moreSpaces k (w ++ u)) eqn:Hm; [discriminate|]. now destruct (IH Hw).
Qed.

Lemma matchHere_complete E re m :
  denotes E re m -> forall rest, matchHere E re (m ++ rest) <> None.
Proof.
  induction 1 as [|c re x m Hx Hd IH|re w m Hne Hw Hd IH]; intros rest.
  - discriminate.
  - cbn [app matchHere]. rewrite Hx, N.eqb_refl.
    specialize (IH rest). now destruct (matchHere E re (m ++ rest)).
  - destruct w as [|x w]; [contradiction|]. cbn [forallb] in Hw.
    apply andb_true_iff in Hw as [Hx Hw]. cbn [app matchHere]. rewrite Hx.
    rewrite <- app_assoc.
    pose proof (moreSpaces_complete (matchHere E re) w (m ++ rest) Hw (IH rest)) as Hc.
    now destruct (moreSpaces (matchHere E re) (w ++ m ++ rest)).
Qed.

Lemma regexSearch_complete E re pre m post :
  denotes E re m -> regexSearch E re (pre ++ m ++ post) <> None.
Proof.
  intros Hd. induction pre as [|c pre IH]; cbn [app].
  - pose proof (matchHere_complete E re m Hd post) as Hc.
    destruct (m ++ post); simpl; now destruct (matchHere E re _).
  - simpl. now destruct (matchHere E re (c :: pre ++ m ++ post)).
Qed.

Lemma patternOf_nonempty s : s <> [] -> patternOf s <> [].
Proof.
  induction s as [|c r IH]; [contradiction|]. intros _. cbn [patternOf].
  destruct (isWhiteSpace c); [|discriminate].
  destruct r as [|d r']; [discriminate|].
  destruct (isWhiteSpace d); [apply IH; discriminate | discriminate].
Qed.

Lemma denotes_nonempty E re m : denotes E re m -> re <> [] -> m <> [].
Proof.
  destruct 1 as [|c re x m Hx Hd|re w m Hne Hw Hd]; [contradiction | discriminate|].
  intros _ H. apply app_eq_nil in H as [H _]. contradiction.
Qed.

Lemma patternOf_cons c r :
  patternOf (c :: r) =
    if isWhiteSpace c then
      match r with
      | d :: _ => if isWhiteSpace d then patternOf r else SpacePlus :: patternOf r
      | [] => [SpacePlus]
      end
    else Char c :: patternOf r.
Proof. reflexivity. Qed.

Lemma patternOf_space_head r : forall d,
  isWhiteSpace d = true -> exists re, patternOf (d :: r) = SpacePlus :: re.
Proof.
  induction r as [|e r IH]; intros d Hd; rewrite patternOf_cons, Hd.
  - now exists [].
  - destruct (isWhiteSpace e) eqn:He; [now apply IH | eexists; reflexivity].
Qed.

Lemma matchHere_self E s : matchHere E (patternOf s) s = Some s.
Proof.
  induction s as [|c r IH]; [reflexivity|].
  rewrite patternOf_cons. destruct (isWhiteSpace c) eqn:Hc.
  - destruct r as [|d r'].
    + cbn [matchHere]. now rewrite Hc.
    + destruct (isWhiteSpace d) eqn:Hd.
      * destruct (patternOf_space_head r' d Hd) as [re Hre]. rewrite Hre in *.
        cbn [matchHere] in *. rewrite Hc. rewrite Hd in IH.
        cbn [moreSpaces]. rewrite Hd.
        destruct (moreSpaces (matchHere E re) r') as [m|]; [|discriminate].
        cbn [option_map] in *. now injection IH as ->.
      * cbn [matchHere]. rewrite Hc. cbn [moreSpaces]. rewrite Hd, IH. reflexivity.
  - cbn [matchHere]. now rewrite N.eqb_refl, IH.
Qed.

Lemma denotes_self E s : occurrenceOf E s s.
Proof. apply (matchHere_sound E (patternOf s) s s), matchHere_self. Qed.

(** X1.  Escaping is adequate, and the pattern round-trips: for every
    snippet, the pattern [escapeForRegex(snippet).replace(/\s+/g, '\\s+')]
    is accepted by [new RegExp] (no SyntaxError, whatever punctuation the
    snippet holds), and the compiled expression matches the snippet itself,
    whole and at its first position. *)
Theorem pattern_matches_own_snippet E s :
  exists re,
    newRegExp (buildPattern s) = Ok re
    /\ matchHere E re s = Some s
    /\ regexSearch E re s = Some s.
Proof.
  exists (patternOf s). split; [apply newRegExp_buildPattern|].
  pose proof (matchHere_self E s) as H. split; [exact H|].
  destruct s; cbn [regexSearch]; now rewrite H.
Qed.

Lemma directFirst_scan_occurrence E cleaned chunks h :
  cleaned <> [] ->
  DirectFirst.scanChunks E cleaned chunks = Ok (Some h) ->
  occurrenceOf E cleaned (text h) /\ text h <> [].
Proof.
  intros Hne. induction chunks as [|chunk rest IH]; [discriminate|].
  cbn [DirectFirst.scanChunks]. rewrite newRegExp_buildPattern. cbn [bindR].
  destruct (isEmpty (contentOf chunk)) eqn:Hc; [exact IH|].
  destruct (includes (contentOf chunk) cleaned) eqn:Hi.
  - intros [= <-]. cbn [text]. split; [apply denotes_self | exact Hne].
  - destruct (regexSearch E (patternOf cleaned) (contentOf chunk)) as [m|] eqn:Hm;
      [|exact IH].
    destruct (isEmpty m) eqn:He; [exact IH|].
    intros [= <-]. cbn [text]. split.
    + now apply (regexSearch_sound E _ (contentOf chunk)).
    + now apply isEmpty_false.
Qed.

Lemma llmFirst_scan_occurrence E cleaned normalized chunks h :
  cleaned <> [] ->
  LlmFirst.scanChunks E cleaned normalized chunks = Ok (Some h) ->
  occurrenceOf E cleaned (text h) /\ text h <> [].
Proof.
  intros Hne. induction chunks as [|chunk rest IH]; [discriminate|].
  cbn [LlmFirst.scanChunks]. rewrite newRegExp_buildPattern. cbn [bindR].
  destruct (isEmpty (contentOf chunk)) eqn:Hc; [exact IH|].
  destruct (includes _ normalized); [|exact IH].
  intros [= <-]. cbn [text].
  destruct (regexSearch E (patternOf cleaned) (contentOf chunk)) as [m|] eqn:Hm.
  - pose proof (regexSearch_sound E _ _ _ Hm) as Hd. split; [exact Hd|].
    apply (denotes_nonempty E _ _ Hd), patternOf_nonempty, Hne.
  - split; [apply denotes_self | exact Hne].
Qed.

(** X2.  Whatever either direct matcher returns is the trimmed answer
    snippet up to the case fold of the regular expression and the length of
    its runs of white space, and is never empty: the matcher returns no
    normalized text (dashes and lower-casing are not applied to it) and no
    text for a snippet that is not a string. *)
Theorem direct_match_is_occurrence r E chunks a h :
  findDirectMatchOf r E chunks a = Ok (Some h) ->
  exists snippet,
    a = VStr snippet
    /\ occurrenceOf E (trim snippet) (text h)
    /\ text h <> [].
Proof.
  destruct a as [| | | |s| |];
    try (destruct r; discriminate).
  intros H. exists s. split; [reflexivity|].
  destruct r; cbn [findDirectMatchOf] in H;
    unfold DirectFirst.findDirectMatch, LlmFirst.findDirectMatch in H;
    cbn [callTrim bindR] in H;
    destruct (isEmpty (trim s)) eqn:He; try discriminate;
    apply isEmpty_false in He.
  - exact (directFirst_scan_occurrence E (trim s) chunks h He H).
  - cbv zeta in H.
    destruct (isEmpty (normalizeForComparison E (trim s))); [discriminate|].
    exact (llmFirst_scan_occurrence E (trim s) _ chunks h He H).
Qed.

Lemma direct_match_is_occurrence_witness :
  exists snippet,
    VStr sandwichSnippet = VStr snippet
    /\ occurrenceOf (asciiEngine []) (trim snippet)
         (lit "sandwich method reduces price resistance")
    /\ lit "sandwich method reduces price resistance" <> [].
Proof.
  exact (direct_match_is_occurrence Normalizing (asciiEngine []) [sandwichChunk]
           (VStr sandwichSnippet)
           {| text := lit "sandwich method reduces price resistance"; chunkId := 1 |}
           eq_refl).
Defined.

(** X3.  The direct matcher of route.ts is exactly a search for the first
    chunk holding an occurrence of the trimmed snippet up to case fold and
    white-space run length: if no chunk before [chunk] holds one and [chunk]
    does, the matcher names [chunk] and returns an occurrence cut out of its
    raw content. *)
Theorem route_direct_match_first_occurrence E snippet pre chunk post m
    (nonblank : trim snippet <> [])
    (first : forall c m', In c pre -> occurrenceOf E (trim snippet) m' ->
               ~ substring_of m' (contentOf c))
    (occurs : occurrenceOf E (trim snippet) m)
    (inside : substring_of m (contentOf chunk)) :
  exists h,
    DirectFirst.findDirectMatch E (pre ++ chunk :: post) (VStr snippet) = Ok (Some h)
    /\ chunkId h = id chunk
    /\ occurrenceOf E (trim snippet) (text h)
    /\ substring_of (text h) (contentOf chunk).
Proof.
  unfold DirectFirst.findDirectMatch. cbn [callTrim bindR].
  rewrite (proj2 (isEmpty_false _) nonblank). induction pre as [|c pre IH]; cbn [app DirectFirst.scanChunks];
    rewrite newRegExp_buildPattern; cbn [bindR].
  - destruct inside as [u [v Hc]].
    pose proof (denotes_nonempty E _ _ occurs (patternOf_nonempty _ nonblank)) as Hm.
    assert (Hcont : isEmpty (contentOf chunk) = false).
    { rewrite Hc. destruct u; [destruct m; [contradiction | reflexivity] | reflexivity]. }
    rewrite Hcont. destruct (includes (contentOf chunk) (trim snippet)) eqn:Hi.
    + eexists. split; [reflexivity|]. cbn [text chunkId].
      split; [reflexivity|]. split; [apply denotes_self | now apply includes_spec].
    + pose proof (regexSearch_complete E _ u m v occurs) as Hs. rewrite <- Hc in Hs.
      destruct (regexSearch E (patternOf (trim snippet)) (contentOf chunk)) as [m'|] eqn:Hr;
        [|contradiction].
      pose proof (regexSearch_sound E _ _ _ Hr) as Hd.
      pose proof (denotes_nonempty E _ _ Hd (patternOf_nonempty _ nonblank)) as Hm'.
      apply isEmpty_false in Hm'. rewrite Hm'.
      eexists. split; [reflexivity|]. cbn [text chunkId].
      split; [reflexivity|]. split; [exact Hd | now apply (regexSearch_substring E _ _ _ Hr)].
  - assert (IH' := IH (fun c' m' Hin => first c' m' (or_intror Hin))).
    destruct (isEmpty (contentOf c)); [exact IH'|].
    destruct (includes (contentOf c) (trim snippet)) eqn:Hi.
    + exfalso. apply (first c (trim snippet) (or_introl eq_refl) (denotes_self E _)).
      now apply includes_spec.
    + destruct (regexSearch E (patternOf (trim snippet)) (contentOf c)) as [m'|] eqn:Hr;
        [|exact IH'].
      exfalso. apply (first c m' (or_introl eq_refl) (regexSearch_sound E _ _ _ Hr)).
      now apply (regexSearch_substring E _ _ _ Hr).
Qed.

Lemma route_direct_match_first_occurrence_witness :
  exists h,
    DirectFirst.findDirectMatch (asciiEngine []) ([] ++ sandwichChunk :: [])
      (VStr sandwichSnippet) = Ok (Some h)
    /\ chunkId h = id sandwichChunk
    /\ occurrenceOf (asciiEngine []) (trim sandwichSnippet) (text h)
    /\ substring_of (text h) (contentOf sandwichChunk).
Proof.
  apply (route_direct_match_first_occurrence (asciiEngine []) sandwichSnippet
           [] sandwichChunk [] (lit "sandwich method reduces price resistance")).
  - discriminate.
  - intros c m' [].
  - apply (matchHere_sound _ _ (lit "sandwich method reduces price resistance")).
    reflexivity.
  - apply includes_spec. reflexivity.
Defined.

(** ** The region handed to JSON.parse *)

Lemma indexOf_spec c s :
  0 <= indexOf s c ->
  exists pre post, s = pre ++ c :: post /\ Z.of_nat (length pre) = indexOf s c
                   /\ ~ In c pre.
Proof.
  induction s as [|x r IH]; cbn [indexOf]; [lia|].
  destruct (N.eqb_spec x c) as [->|Hx].
  - intros _. exists [], r. repeat split. intros [].
  - destruct (indexOf r c <? 0) eqn:Hi; [lia|]. intros _.
    apply Z.ltb_ge in Hi. destruct (IH Hi) as [pre [post [-> [Hl Hn]]]].
    exists (x :: pre), post. split; [reflexivity|]. split.
    + cbn [length]. lia.
    + intros [H|H]; [now apply Hx | now apply Hn].
Qed.

Lemma lastIndexOf_none c s : lastIndexOf s c < 0 -> ~ In c s.
Proof.
  induction s as [|x r IH]; cbn [lastIndexOf]; [intros _ []|].
  destruct (0 <=? lastIndexOf r c) eqn:Hi.
  - apply Z.leb_le in Hi. lia.
  - apply Z.leb_gt in Hi. destruct (N.eqb_spec x c) as [->|Hx]; [lia|].
    intros _ [H|H]; [now apply Hx | now apply IH].
Qed.

Lemma lastIndexOf_spec c s :
  0 <= lastIndexOf s c ->
  exists pre post, s = pre ++ c :: post /\ Z.of_nat (length pre) = lastIndexOf s c
                   /\ ~ In c post.
Proof.
  induction s as [|x r IH]; cbn [lastIndexOf]; [lia|].
  destruct (0 <=? lastIndexOf r c) eqn:Hi.
  - intros _. apply Z.leb_le in Hi. destruct (IH Hi) as [pre [post [-> [Hl Hn]]]].
    exists (x :: pre), post. split; [reflexivity|]. split; [cbn [length]; lia | exact Hn].
  - apply Z.leb_gt in Hi. destruct (N.eqb_spec x c) as [->|Hx]; [|lia].
    intros _. exists [], r. repeat split. now apply lastIndexOf_none.
Qed.

(** X4.  The text the handlers hand to [JSON.parse].  When the trimmed reply
    has a [{] and its last [}] does not come before its first [{], the region
    [trimmed.slice(jsonStart, jsonEnd + 1)] starts with that first [{], ends
    with that last [}], and the reply is the region between a prefix without
    [{] and a suffix without [}]: commentary around the object is cut off,
    and nothing of the object is. *)
Theorem json_region_between_braces trimmed
    (has_open : 0 <= indexOf trimmed LBRACE)
    (ordered : indexOf trimmed LBRACE <= lastIndexOf trimmed RBRACE) :
  exists pre mid post,
    trimmed = pre ++ (LBRACE :: mid ++ [RBRACE]) ++ post
    /\ ~ In LBRACE pre
    /\ ~ In RBRACE post
    /\ slice trimmed (indexOf trimmed LBRACE) (lastIndexOf trimmed RBRACE + 1)
       = LBRACE :: mid ++ [RBRACE].
Proof.
  destruct (indexOf_spec LBRACE trimmed has_open) as [p1 [q1 [H1 [L1 N1]]]].
  assert (has_close : 0 <= lastIndexOf trimmed RBRACE) by lia.
  destruct (lastIndexOf_spec RBRACE trimmed has_close) as [p2 [q2 [H2 [L2 N2]]]].
  assert (Heq : p1 ++ LBRACE :: q1 = p2 ++ RBRACE :: q2) by congruence.
  apply app_eq_app in Heq as [l [[Hp Hq] | [Hp Hq]]].
  - (* the last [}] would stand at or before the first [{] *)
    exfalso. destruct l as [|x l].
    + cbn [app] in Hq. discriminate Hq.
    + rewrite Hp, length_app in L1. cbn [length] in L1. lia.
  - destruct l as [|x l]; [cbn [app] in Hq; discriminate Hq|].
    cbn [app] in Hq. injection Hq as <- ->.
    exists p1, l, q2. split; [|split; [exact N1 | split; [exact N2|]]].
    + rewrite H2, Hp, <- !app_assoc. cbn [app]. now rewrite <- app_assoc.
    + unfold slice. rewrite <- L1, <- L2, Hp, length_app. cbn [length].
      rewrite H2, Hp, <- app_assoc, Nat2Z.id, skipn_app, skipn_all, Nat.sub_diag.
      cbn [skipn app].
      replace (Z.to_nat (Z.of_nat (length p1 + S (length l)) + 1 - Z.of_nat (length p1)))
        with (length (LBRACE :: l ++ [RBRACE])) by (cbn [length]; rewrite length_app; cbn [length]; lia).
      change (LBRACE :: l ++ RBRACE :: q2) with ((LBRACE :: l) ++ [RBRACE] ++ q2).
      rewrite app_assoc.
      change ((LBRACE :: l) ++ [RBRACE]) with (LBRACE :: l ++ [RBRACE]).
      generalize (LBRACE :: l ++ [RBRACE]). intros region.
      now rewrite firstn_app, firstn_all, Nat.sub_diag, app_nil_r.
Qed.

Lemma json_region_between_braces_witness :
  exists pre mid post,
    lit "Sure: {x} done" = pre ++ (LBRACE :: mid ++ [RBRACE]) ++ post
    /\ ~ In LBRACE pre
    /\ ~ In RBRACE post
    /\ slice (lit "Sure: {x} done") (indexOf (lit "Sure: {x} done") LBRACE)
         (lastIndexOf (lit "Sure: {x} done") RBRACE + 1)
       = LBRACE :: mid ++ [RBRACE].
Proof.
  apply (json_region_between_braces (lit "Sure: {x} done")); vm_compute; discriminate.
Defined.

(** ** The index of the prompt *)





(** ** The handlers past validation *)

Lemma POST_past_validation r E W b :
  passesValidation (destructure b) ->
  supabaseConfigured W = true ->
  logsRequest r (destructure b) ->
  POSTOf r E W (Some b) =
    match candidatesOf r E W (destructure b) with
    | (None, trace) => (Resp500 FailedToFetchChunks, trace)
    | (Some chunks, trace) =>
        if isNil chunks then (Resp200 None [], trace)
        else (catchTo500 (resolveOf r E W (answerSnippet (destructure b)) chunks), trace)
    end.
Proof.
  intros [Hf Hp] Hcfg Hlog.
  destruct r; cbn [POSTOf candidatesOf resolveOf];
    unfold DirectFirst.POST, LlmFirst.POST; [|rewrite (Hlog eq_refl)];
    rewrite Hf, Hp, Hcfg; cbn [negb orb]; reflexivity.
Qed.

Lemma resolveOf_cases r E W a chunks :
  catchTo500 (resolveOf r E W a chunks) = Resp500 InternalServerError
  \/ exists h, catchTo500 (resolveOf r E W a chunks) = Resp200 h (serializeChunks E chunks).
Proof.
  destruct r; cbn [resolveOf].
  - destruct (directFirst_resolve_cases E W a chunks) as [H | [[h [_ H]] | H]];
      rewrite H; [now left | right; now eexists | right; now eexists].
  - destruct (llmFirst_resolve_cases E W a chunks) as [H | [h H]];
      rewrite H; [now left | right; now eexists].
Qed.

Lemma candidatesOf_error r E W f :
  error (store W (firstQuery E f)) = true ->
  candidatesOf r E W f = (None, [firstQuery E f]).
Proof.
  intros He. unfold firstQuery in He.
  destruct r; cbn [candidatesOf];
    unfold DirectFirst.locateChunks, LlmFirst.locateChunks, bindT, await, retT;
    now rewrite He.
Qed.

Lemma candidatesOf_no_error r E W f :
  error (store W (firstQuery E f)) = false ->
  exists chunks rest, candidatesOf r E W f = (Some chunks, firstQuery E f :: rest)
    /\ (length rest <= match r with RouteTs => 1 | Normalizing => 2 end)%nat.
Proof.
  intros He. unfold firstQuery in *.
  destruct r; cbn [candidatesOf];
    unfold DirectFirst.locateChunks, LlmFirst.locateChunks, bindT, await, retT;
    rewrite He; cbn [app].
  - destruct (isNil (rowsOf (store W _))); eexists; eexists; split;
      try reflexivity; cbn [length]; lia.
  - destruct (isNil (rowsOf (store W _))) eqn:Hnil.
    + destruct (LlmFirst.pageNumberFallback E (page f)) as [d|].
      * destruct (isEmpty d).
        -- rewrite Hnil. eexists; eexists; split; [reflexivity | cbn [length]; lia].
        -- destruct (data (store W (locQuery _ d _))) as [[|c cs]|]; cbn [isNil app];
             rewrite ?Hnil; eexists; eexists; split; try reflexivity; cbn [length]; lia.
      * rewrite Hnil. eexists; eexists; split; [reflexivity | cbn [length]; lia].
    + rewrite Hnil. eexists; eexists; split; [reflexivity | cbn [length]; lia].
Qed.

(** X6.  Of the store's errors only that of the first query is reported.
    For a request that passes validation, with the store configured, the
    answer is 500 "Failed to fetch chunks" exactly when the exact-page query
    reports an error, and then no other query is issued; an error reported
    by a later query never reaches the response. *)
Theorem failed_fetch_only_on_first_query r E W b
    (valid : passesValidation (destructure b))
    (configured : supabaseConfigured W = true)
    (logged : logsRequest r (destructure b)) :
  (error (store W (firstQuery E (destructure b))) = true ->
   POSTOf r E W (Some b) = (Resp500 FailedToFetchChunks, [firstQuery E (destructure b)]))
  /\ (fst (POSTOf r E W (Some b)) = Resp500 FailedToFetchChunks ->
      error (store W (firstQuery E (destructure b))) = true).
Proof.
  rewrite (POST_past_validation r E W b valid configured logged). split.
  - intros He. now rewrite (candidatesOf_error r E W _ He).
  - destruct (error (store W (firstQuery E (destructure b)))) eqn:He; [reflexivity|].
    destruct (candidatesOf_no_error r E W _ He) as [chunks [rest [-> _]]].
    destruct (isNil chunks); cbn [fst]; [discriminate|].
    destruct (resolveOf_cases r E W (answerSnippet (destructure b)) chunks)
      as [H | [h H]]; rewrite H; discriminate.
Qed.

Lemma failed_fetch_only_on_first_query_witness :
  POSTOf Normalizing (asciiEngine []) failingWorld (Some (requestBody paraphrase))
  = (Resp500 FailedToFetchChunks,
     [firstQuery (asciiEngine []) (destructure (requestBody paraphrase))]).
Proof.
  apply (proj1 (failed_fetch_only_on_first_query Normalizing (asciiEngine []) failingWorld
                  (requestBody paraphrase) (conj eq_refl eq_refl) eq_refl
                  (fun _ => eq_refl))).
  reflexivity.
Defined.

(** Either the request reaches the locator, or the handler answers without
    a query: with 500 when the arguments of the request log throw, with 400
    when the validation fails, with 500 when the store is not configured. *)
Lemma POST_stops_early r E W b :
  (logsRequest r (destructure b) /\ passesValidation (destructure b)
   /\ supabaseConfigured W = true)
  \/ (snd (POSTOf r E W (Some b)) = []
      /\ ((fst (POSTOf r E W (Some b)) = Resp500 InternalServerError
           /\ ~ logsRequest r (destructure b))
          \/ (fst (POSTOf r E W (Some b)) = Resp400 FilenameAndPageRequired
              /\ ~ passesValidation (destructure b))
          \/ (fst (POSTOf r E W (Some b)) = Resp500 MissingSupabaseConfiguration
              /\ supabaseConfigured W = false))).
Proof.
  unfold logsRequest, passesValidation.
  destruct r; cbn [POSTOf]; unfold DirectFirst.POST, LlmFirst.POST;
    [|destruct (LlmFirst.logRequest (answerSnippet (destructure b))) as [[]|];
      [|right; split; [reflexivity|]; left; split; [reflexivity|];
        intros H; now specialize (H eq_refl)]];
    (destruct (truthy (filename (destructure b))); cbn [negb orb];
       [|right; split; [reflexivity|]; right; left; split; [reflexivity|];
         intros [H _]; discriminate]);
    (destruct (isUndefined (page (destructure b))); cbn [negb orb];
       [right; split; [reflexivity|]; right; left; split; [reflexivity|];
        intros [_ H]; discriminate|]);
    (destruct (supabaseConfigured W); cbn [negb];
       [|right; split; [reflexivity|]; right; right; now split]);
    left; repeat split; intros; discriminate.
Qed.

(** X7.  Queries and responses.  A request answered with 400, or with 500
    for the missing store configuration, issues no query; a request answered
    with 200 issued the exact-page query first and at most one more query in
    route.ts, at most two more in the revision with the location retry. *)
Theorem queries_bounded_and_after_validation r E W body :
  (statusOf (fst (POSTOf r E W body)) = 400 -> snd (POSTOf r E W body) = [])
  /\ (fst (POSTOf r E W body) = Resp500 MissingSupabaseConfiguration ->
      snd (POSTOf r E W body) = [])
  /\ (statusOf (fst (POSTOf r E W body)) = 200 ->
      exists b rest,
        body = Some b
        /\ snd (POSTOf r E W body) = firstQuery E (destructure b) :: rest
        /\ (length rest <= match r with RouteTs => 1 | Normalizing => 2 end)%nat).
Proof.
  destruct body as [b|]; [|destruct r; repeat split; discriminate].
  destruct (POST_stops_early r E W b) as [[Hl [Hv Hcfg]] | [Htr Hst]].
  2:{ rewrite Htr. repeat split; try reflexivity.
      destruct Hst as [[-> _] | [[-> _] | [-> _]]]; discriminate. }
  rewrite (POST_past_validation r E W b Hv Hcfg Hl).
  destruct (error (store W (firstQuery E (destructure b)))) eqn:He.
  - rewrite (candidatesOf_error r E W _ He). repeat split; discriminate.
  - destruct (candidatesOf_no_error r E W _ He) as [chunks [rest [-> Hlen]]].
    destruct (isNil chunks); cbn [fst snd].
    + repeat split; try discriminate. intros _. now exists b, rest.
    + destruct (resolveOf_cases r E W (answerSnippet (destructure b)) chunks)
        as [H | [h H]]; rewrite H; repeat split; try discriminate.
      intros _. now exists b, rest.
Qed.

(** ** Rows without metadata *)

Lemma directFirst_resolve_string E W s chunks :
  exists h, DirectFirst.resolve E W (VStr s) chunks
            = Ok (Resp200 h (serializeChunks E chunks)).
Proof.
  unfold DirectFirst.resolve.
  destruct (findDirectMatch_total RouteTs E chunks s) as [res Hres].
  cbn [findDirectMatchOf] in Hres.
  destruct (truthy (VStr s)); [rewrite Hres|]; cbn [bindR];
    [destruct res|]; eexists; reflexivity.
Qed.





(** ** Requests without a snippet *)

(** X9.  A request without a usable snippet.  In route.ts a falsy snippet
    (absent, empty, null, 0, false) reaches neither the direct matcher nor
    the model: the answer is 200 with a null highlight and the candidates.
    In the revision that asks the model first, the empty snippet is sent to
    the model and the highlight is whatever span of the model passes the
    gate; a null snippet is an error there unless the model supplies a
    highlight. *)
Theorem falsy_snippet_paths E W chunks :
  (forall a, truthy a = false ->
     DirectFirst.resolve E W a chunks = Ok (Resp200 None (serializeChunks E chunks)))
  /\ (LlmFirst.logCandidates chunks = Ok tt ->
      LlmFirst.resolve E W (VStr []) chunks
      = Ok (Resp200 (LlmFirst.llmStage E W (VStr []) chunks) (serializeChunks E chunks))
      /\ LlmFirst.resolve E W VNull chunks
         = match LlmFirst.llmStage E W VNull chunks with
           | Some h => Ok (Resp200 (Some h) (serializeChunks E chunks))
           | None => Throw
           end).
Proof.
  split.
  - intros a Ha. unfold DirectFirst.resolve, DirectFirst.llmStage. now rewrite Ha.
  - intros Hlog. unfold LlmFirst.resolve. rewrite Hlog. cbn [bindR]. split.
    + now destruct (LlmFirst.llmStage E W (VStr []) chunks).
    + now destruct (LlmFirst.llmStage E W VNull chunks).
Qed.

(** ** Pages without a number *)

Lemma matchDigits_none s :
  LlmFirst.matchDigits s = None <-> existsb LlmFirst.isDigit s = false.
Proof.
  induction s as [|c r IH]; [easy|]. cbn [LlmFirst.matchDigits existsb].
  destruct (LlmFirst.isDigit c); cbn [orb]; [easy | exact IH].
Qed.

(** X10.  The location retry is skipped for a page without a number.  The
    handler derives no page number exactly from a page that is neither a
    number nor a string holding a decimal digit (null, a boolean, an object,
    "cover"); then, after an empty answer to the exact-page query, the
    page-free query is the next and last one and its rows are the
    candidates. *)
Theorem tier2_skipped_without_page_number E W filename page orgUrl
    (no_error : error (store W (pageQuery filename (stringifyPage E page) orgUrl)) = false)
    (tier1_empty : rowsOf (store W (pageQuery filename (stringifyPage E page) orgUrl)) = [])
    (no_number : LlmFirst.pageNumberFallback E page = None) :
  LlmFirst.locateChunks E W filename page orgUrl []
  = (Some (rowsOf (store W (fallbackQuery filename orgUrl))),
     [pageQuery filename (stringifyPage E page) orgUrl; fallbackQuery filename orgUrl])
  /\ (forall p,
        LlmFirst.pageNumberFallback E p = None
        <-> match p with
            | VNum _ => False
            | VStr s => existsb LlmFirst.isDigit s = false
            | _ => True
            end).
Proof.
  split.
  - unfold LlmFirst.locateChunks, bindT, await, retT.
    rewrite no_error, tier1_empty, no_number. reflexivity.
  - intros p. destruct p; cbn [LlmFirst.pageNumberFallback]; try easy.
    apply matchDigits_none.
Qed.

Lemma tier2_skipped_without_page_number_witness :
  LlmFirst.locateChunks (asciiEngine []) emptyWorld salesPdf (VStr (lit "cover")) VUndef []
  = (Some [],
     [pageQuery salesPdf (VStr (lit "cover")) VUndef; fallbackQuery salesPdf VUndef]).
Proof.
  exact (proj1 (tier2_skipped_without_page_number (asciiEngine []) emptyWorld salesPdf
                  (VStr (lit "cover")) VUndef eq_refl eq_refl eq_refl)).
Defined.

(** ** The normal form of the comparison normalizer *)

Lemma collapseSpaces_length s : (length (collapseSpaces s) <= length s)%nat.
Proof.
  induction s as [|c r IH]; [apply Nat.le_refl|].
  destruct (isWhiteSpace c) eqn:Hc.
  - destruct r as [|d r'].
    + rewrite (collapse_space_end _ Hc). apply Nat.le_refl.
    + destruct (isWhiteSpace d) eqn:Hd.
      * rewrite (collapse_space_space _ _ _ Hc Hd). cbn [length] in *. lia.
      * rewrite (collapse_space_nonspace _ _ _ Hc Hd). cbn [length] in *. lia.
  - rewrite (collapse_nonspace _ _ Hc). cbn [length]. lia.
Qed.

Lemma collapseSpaces_fixed s : collapseSpaces s = s <-> singleSpaced s = true.
Proof.
  induction s as [|c r IH]; [easy|]. cbn [singleSpaced].
  destruct (isWhiteSpace c) eqn:Hc.
  - destruct r as [|d r'].
    + rewrite (collapse_space_end _ Hc). cbn [singleSpaced]. rewrite !andb_true_r.
      rewrite N.eqb_eq. split; [now intros [= ->] | now intros ->].
    + destruct (isWhiteSpace d) eqn:Hd.
      * rewrite (collapse_space_space _ _ _ Hc Hd). cbn [negb]. rewrite andb_false_r.
        cbn [andb]. split; [|discriminate]. intros H.
        pose proof (collapseSpaces_length (d :: r')) as Hl. rewrite H in Hl.
        cbn [length] in Hl. lia.
      * rewrite (collapse_space_nonspace _ _ _ Hc Hd). cbn [negb]. rewrite andb_true_r.
        rewrite andb_true_iff, N.eqb_eq, <- IH. split.
        -- intros [= <- H]. now split.
        -- intros [-> ->]. reflexivity.
  - rewrite (collapse_nonspace _ _ Hc). cbn [andb]. rewrite <- IH. split.
    + now intros [= ->].
    + now intros ->.
Qed.

Lemma dashUnit_fixed c : dashUnit c = c <-> isDashVariant c = false.
Proof.
  unfold dashUnit. destruct (isDashVariant c) eqn:H; [|easy].
  split; [|discriminate]. intros <-. discriminate H.
Qed.

Lemma map_dashUnit_fixed s : map dashUnit s = s <-> noDash s = true.
Proof.
  unfold noDash. induction s as [|c r IH]; [easy|]. cbn [map forallb].
  rewrite andb_true_iff, negb_true_iff, <- IH, <- dashUnit_fixed. split.
  - intros [= H1 H2]. now split.
  - intros [-> ->]. reflexivity.
Qed.

Lemma trimEnd_fixed s :
  isWhiteSpace (last s SPACE) = false -> s <> [] -> trimEnd s = s.
Proof.
  induction s as [|c r IH]; [contradiction|]. intros Hl _.
  destruct r as [|d r'].
  - cbn [last] in Hl. cbn [trimEnd]. now rewrite Hl.
  - change (last (c :: d :: r') SPACE) with (last (d :: r') SPACE) in Hl.
    cbn [trimEnd] in *. rewrite (IH Hl ltac:(discriminate)). reflexivity.
Qed.

Lemma trim_fixed s : trim s = s <-> trimmed s = true.
Proof.
  split.
  - intros H. destruct (trim_shape s) as [Hs | [Hh [z [d [Hz Hd]]]]];
      rewrite H in *; [now subst|].
    destruct s as [|c r]; [reflexivity|]. cbn [trimmed headNonSpace] in *.
    rewrite Hh, Hz, last_last, Hd. reflexivity.
  - destruct s as [|c r]; [reflexivity|]. cbn [trimmed].
    rewrite andb_true_iff, !negb_true_iff. intros [Hc Hl]. unfold trim.
    rewrite (trimStart_fixed (c :: r) Hc). now apply trimEnd_fixed.
Qed.

Lemma normalizeSpacing_fixed s : normalizeSpacing s = s <-> spacingNormal s = true.
Proof.
  unfold spacingNormal.
  rewrite !andb_true_iff, <- collapseSpaces_fixed, <- map_dashUnit_fixed, <- trim_fixed.
  split.
  - intros H. repeat split; rewrite <- H at 1; rewrite normalizeSpacing_unfold.
    + rewrite <- collapseSpaces_trim,
        (collapseSpaces_map dashUnit dashUnit_ws dashUnit_space), collapseSpaces_idem.
      now rewrite <- normalizeSpacing_unfold.
    + rewrite <- (trim_map dashUnit dashUnit_ws), map_dashUnit_idem.
      now rewrite <- normalizeSpacing_unfold.
    + rewrite trim_idem. now rewrite <- normalizeSpacing_unfold.
  - intros [[H1 H2] H3]. now rewrite normalizeSpacing_unfold, H1, H2.
Qed.

(** X11.  The normal form of [normalizeForComparison].  The normalizer
    lower-cases a text in which every white space is one U+0020 standing
    between two other characters, no dash variant is left and neither end is
    white space; the texts of that form are exactly those the three spacing
    steps leave unchanged, and on them the normalizer is [toLowerCase]
    alone. *)
Theorem normalizer_normal_form E s :
  (exists t, normalizeForComparison E s = toLowerCase E t /\ spacingNormal t = true)
  /\ (spacingNormal s = true <-> normalizeSpacing s = s)
  /\ (spacingNormal s = true -> normalizeForComparison E s = toLowerCase E s).
Proof.
  split; [|split].
  - exists (normalizeSpacing s). split; [apply normalizeForComparison_unfold|].
    apply normalizeSpacing_fixed, normalizeSpacing_idem.
  - symmetry. apply normalizeSpacing_fixed.
  - intros H. rewrite normalizeForComparison_unfold.
    now rewrite (proj2 (normalizeSpacing_fixed s) H).
Qed.

(** ** The scope of the queries *)

Lemma POST_trace r E W b :
  snd (POSTOf r E W (Some b)) = []
  \/ snd (POSTOf r E W (Some b)) = snd (candidatesOf r E W (destructure b)).
Proof.
  destruct (POST_stops_early r E W b) as [[Hl [Hv Hcfg]] | [Htr _]]; [|now left].
  right. rewrite (POST_past_validation r E W b Hv Hcfg Hl).
  destruct (candidatesOf r E W (destructure b)) as [[chunks|] trace]; [|reflexivity].
  now destruct (isNil chunks).
Qed.

Lemma candidatesOf_order r E W f :
  inTierOrder (firstQuery E f)
    (match r with
     | RouteTs => None
     | Normalizing =>
         option_map (fun d => locQuery (filename f) d (orgUrl f))
                    (LlmFirst.pageNumberFallback E (page f))
     end)
    (fallbackQuery (filename f) (orgUrl f))
    (snd (candidatesOf r E W f)).
Proof.
  destruct r; cbn [candidatesOf].
  - apply directFirst_locate_order.
  - apply llmFirst_locate_order.
Qed.

(** X12.  Every query is scoped to the file, and to the tenant when one is
    given.  Each query a handler issues filters first on
    [metadata->>source] being the filename of the request, then at most on
    the page or on the loader's page number, and last, exactly when [orgUrl]
    is truthy, on [metadata->>orgUrl] being that value; its row cap is none
    or eight.  Without an [orgUrl] no query is restricted to a tenant. *)
Theorem queries_scoped_to_file_and_tenant r E W b q
    (issued : In q (snd (POSTOf r E W (Some b)))) :
  (exists middle,
     filters q = (ColSource, filename (destructure b)) :: middle
                 ++ orgFilter (orgUrl (destructure b))
     /\ (middle = []
         \/ middle = [(ColPage, stringifyPage E (page (destructure b)))]
         \/ exists digits, middle = [(ColLocPageNumber, VStr digits)]))
  /\ (limit q = None \/ limit q = Some 8%nat).
Proof.
  destruct (POST_trace r E W b) as [Htr | Htr]; rewrite Htr in issued; [destruct issued|].
  assert (Hq : q = firstQuery E (destructure b)
               \/ q = fallbackQuery (filename (destructure b)) (orgUrl (destructure b))
               \/ exists d, q = locQuery (filename (destructure b)) d (orgUrl (destructure b))).
  { pose proof (candidatesOf_order r E W (destructure b)) as Ho.
    destruct Ho as [Ho | [Ho | [q2 [Hq2 [Ho | Ho]]]]]; rewrite Ho in issued;
      cbn [In] in issued.
    - destruct issued as [<- | []]. now left.
    - destruct issued as [<- | [<- | []]]; [now left | right; now left].
    - destruct r; [discriminate|].
      destruct (LlmFirst.pageNumberFallback E (page (destructure b))) as [d|];
        [|discriminate]. injection Hq2 as <-.
      destruct issued as [<- | [<- | []]]; [now left | right; right; now exists d].
    - destruct r; [discriminate|].
      destruct (LlmFirst.pageNumberFallback E (page (destructure b))) as [d|];
        [|discriminate]. injection Hq2 as <-.
      destruct issued as [<- | [<- | [<- | []]]];
        [now left | right; right; now exists d | right; now left]. }
  destruct Hq as [-> | [-> | [d ->]]];
    unfold firstQuery, pageQuery, fallbackQuery, locQuery;
    destruct (withOrg_filters (orgUrl (destructure b))
                {| filters := [(ColSource, filename (destructure b));
                               (ColPage, stringifyPage E (page (destructure b)))];
                   limit := None |}) as [Hf1 Hl1];
    destruct (withOrg_filters (orgUrl (destructure b))
                {| filters := [(ColSource, filename (destructure b))];
                   limit := Some 8%nat |}) as [Hf3 Hl3];
    destruct (withOrg_filters (orgUrl (destructure b))
                {| filters := [(ColSource, filename (destructure b));
                               (ColLocPageNumber, VStr d)];
                   limit := None |}) as [Hf2 Hl2] || idtac.
  - rewrite Hf1, Hl1. split; [|now left]. eexists. split; [reflexivity|]. right. now left.
  - rewrite Hf3, Hl3. split; [|now right]. exists []. split; [reflexivity | now left].
  - rewrite Hf2, Hl2. split; [|now left]. eexists. split; [reflexivity|].
    right. right. now exists d.
Qed.

Lemma queries_scoped_to_file_and_tenant_witness :
  (exists middle,
     filters (pageQuery salesPdf (VStr (lit "5")) acme)
     = (ColSource, filename (destructure (requestBody paraphrase))) :: middle
       ++ orgFilter (orgUrl (destructure (requestBody paraphrase)))
     /\ (middle = []
         \/ middle = [(ColPage, stringifyPage sandwichEngine
                                  (page (destructure (requestBody paraphrase))))]
         \/ exists digits, middle = [(ColLocPageNumber, VStr digits)]))
  /\ (limit (pageQuery salesPdf (VStr (lit "5")) acme) = None
      \/ limit (pageQuery salesPdf (VStr (lit "5")) acme) = Some 8%nat).
Proof.
  exact (queries_scoped_to_file_and_tenant Normalizing sandwichEngine sandwichWorld
           (requestBody paraphrase) (pageQuery salesPdf (VStr (lit "5")) acme)
           (or_introl eq_refl)).
Defined.

(** ** Numeric and textual pages *)





(** ** The reply of the model as an array of parts *)

(** X14.  A reply whose content is an array of parts is processed as the
    string of its parts joined: the texts of the string parts and of the
    parts with a [text] key, in order, the other parts contributing nothing.
    The model stage gives the same result for both replies, and a reply
    whose parts join to the empty string is no reply. *)
Theorem array_reply_as_joined_string gate E W W' answerSnippet chunks parts
    (as_array : llmInvoke W (buildLlmPrompt answerSnippet chunks) = LlmReplies (VArr parts))
    (as_string : llmInvoke W' (buildLlmPrompt answerSnippet chunks)
                 = LlmReplies (VStr (concat (map (partText E) parts)))) :
  extractSpan gate E W answerSnippet chunks = extractSpan gate E W' answerSnippet chunks
  /\ (concat (map (partText E) parts) = [] ->
      extractSpan gate E W answerSnippet chunks = Ok None).
Proof.
  unfold extractSpan. rewrite as_array, as_string.
  unfold parseLlmResponse. cbn [truthy negb].
  destruct (concat (map (partText E) parts)) as [|c r]; cbn [truthy negb].
  - split; reflexivity.
  - split; [reflexivity | discriminate].
Qed.

Lemma array_reply_as_joined_string_witness :
  extractSpan (LlmFirst.gate sandwichEngine) sandwichEngine sandwichPartsWorld paraphrase
    [sandwichChunk]
  = extractSpan (LlmFirst.gate sandwichEngine) sandwichEngine sandwichWorld paraphrase
      [sandwichChunk].
Proof.
  exact (proj1 (array_reply_as_joined_string (LlmFirst.gate sandwichEngine) sandwichEngine
                  sandwichPartsWorld sandwichWorld paraphrase [sandwichChunk] sandwichParts
                  eq_refl eq_refl)).
Defined.

(** ** The serialized candidates *)

(** X15.  The page and source of a serialized candidate.  The page is a
    finite number or null, never NaN or an infinity; it is taken from
    [metadata.page] whenever that converts to a finite number, whatever
    [metadata.loc] holds, and from [metadata.loc.pageNumber] otherwise; the
    source is null unless [metadata.source] is a string.  A candidate whose
    page was found through [metadata.loc.pageNumber] alone is therefore
    serialized with that page. *)
Theorem serialized_page_finite_or_null E chunk :
  (forall n, s_page (serializeChunk E chunk) = Some n -> isFiniteNum n = true)
  /\ (forall n, toNumberOrNull E (getFieldOptional (metadata chunk) (lit "page")) = Some n ->
        s_page (serializeChunk E chunk) = Some n)
  /\ (toNumberOrNull E (getFieldOptional (metadata chunk) (lit "page")) = None ->
      s_page (serializeChunk E chunk)
      = toNumberOrNull E
          (getFieldOptional (getFieldOptional (metadata chunk) (lit "loc"))
                            (lit "pageNumber")))
  /\ (forall s, s_source (serializeChunk E chunk) = Some s <->
                getFieldOptional (metadata chunk) (lit "source") = VStr s).
Proof.
  assert (Hfin : forall v n, toNumberOrNull E v = Some n -> isFiniteNum n = true).
  { intros v n. unfold toNumberOrNull. destruct v as [| | |m|t| |]; try discriminate.
    - destruct (isFiniteNum m) eqn:Hm; [now intros [= <-] | discriminate].
    - destruct (isFiniteNum (stringToNumber E t)) eqn:Hm; [now intros [= <-] | discriminate]. }
  assert (Hmeta : forall key,
            getField (nullishOr (metadata chunk) (VObj [])) key
            = getFieldOptional (metadata chunk) key).
  { intros key. unfold nullishOr, getFieldOptional.
    now destruct (isNullish (metadata chunk)). }
  unfold serializeChunk. cbn [s_page s_source]. rewrite !Hmeta.
  split; [|split; [|split]].
  - intros n. destruct (toNumberOrNull E (getFieldOptional (metadata chunk) (lit "page")))
      as [m|] eqn:Hp.
    + intros [= <-]. now apply (Hfin _ _ Hp).
    + apply Hfin.
  - now intros n ->.
  - now intros ->.
  - intros s0. unfold toStringOrNull.
    destruct (getFieldOptional (metadata chunk) (lit "source")); split;
      try discriminate; now intros [= ->].
Qed.

(* ================================================================== *)
(** * The chat page *)

(** ** Cleaning of white space *)

Lemma cleanWhitespace_unfold s : ChatPage.cleanWhitespace s = trim (collapseSpaces s).
Proof. reflexivity. Qed.

Lemma cleanWhitespace_idem s :
  ChatPage.cleanWhitespace (ChatPage.cleanWhitespace s) = ChatPage.cleanWhitespace s.
Proof.
  rewrite !cleanWhitespace_unfold.
  now rewrite <- collapseSpaces_trim, collapseSpaces_idem, !trim_idem.
Qed.

(** X16.  The white space cleaning of the chat page and the normalizer of
    the handler.  Cleaning is idempotent; what it returns is already
    trimmed, so the [trim] of the direct matcher leaves a cleaned snippet as
    it is; and the handler's normalizer gives the same normal form for a
    text and for its cleaned form. *)
Theorem client_cleaning_absorbed E s :
  ChatPage.cleanWhitespace (ChatPage.cleanWhitespace s) = ChatPage.cleanWhitespace s
  /\ trim (ChatPage.cleanWhitespace s) = ChatPage.cleanWhitespace s
  /\ normalizeForComparison E (ChatPage.cleanWhitespace s) = normalizeForComparison E s.
Proof.
  split; [apply cleanWhitespace_idem|]. split.
  - rewrite cleanWhitespace_unfold. apply trim_idem.
  - rewrite !normalizeForComparison_unfold, cleanWhitespace_unfold.
    rewrite normalizeSpacing_trim, !normalizeSpacing_unfold.
    now rewrite collapseSpaces_idem.
Qed.

(** X17.  The three normalizers.  The normalizer of the handler is the
    cleaning of the chat page followed by the dash replacement and the
    lower-casing, and the normalizer of the viewer is the same without the
    dash replacement: the two agree on every text without a dash variant. *)
Theorem viewer_normalize_agrees_without_dashes E s :
  normalizeForComparison E s
    = toLowerCase E (replaceEach isDashVariant HYPHEN (ChatPage.cleanWhitespace s))
  /\ PdfViewer.normalize E s = toLowerCase E (ChatPage.cleanWhitespace s)
  /\ (noDash s = true -> PdfViewer.normalize E s = normalizeForComparison E s).
Proof.
  assert (H : normalizeForComparison E s
              = toLowerCase E (replaceEach isDashVariant HYPHEN (ChatPage.cleanWhitespace s))).
  { rewrite normalizeForComparison_unfold, normalizeSpacing_unfold, cleanWhitespace_unfold.
    now rewrite (trim_map dashUnit dashUnit_ws). }
  split; [exact H|]. split; [reflexivity|].
  intros Hd. rewrite H. unfold PdfViewer.normalize.
  change (replaceEach isDashVariant HYPHEN (ChatPage.cleanWhitespace s))
    with (map dashUnit (ChatPage.cleanWhitespace s)).
  assert (Hc : noDash (ChatPage.cleanWhitespace s) = true).
  { apply map_dashUnit_fixed. rewrite cleanWhitespace_unfold.
    rewrite <- (trim_map dashUnit dashUnit_ws),
      <- (collapseSpaces_map dashUnit dashUnit_ws dashUnit_space).
    now rewrite (proj2 (map_dashUnit_fixed s) Hd). }
  now rewrite (proj2 (map_dashUnit_fixed _) Hc).
Qed.

(** ** The snippet of a citation *)

Lemma splitSentences_cases st c r :
  (st = ChatPage.InSeparator /\ isWhiteSpace c = true
   /\ ChatPage.splitSentences st (c :: r) = ChatPage.splitSentences ChatPage.InSeparator r)
  \/ (st = ChatPage.InPiece true /\ isWhiteSpace c = true
      /\ ChatPage.splitSentences st (c :: r)
         = [] :: ChatPage.splitSentences ChatPage.InSeparator r)
  \/ ((st = ChatPage.InSeparator -> isWhiteSpace c = false)
      /\ (st = ChatPage.InPiece true -> isWhiteSpace c = false)
      /\ ChatPage.splitSentences st (c :: r)
         = ChatPage.extend c
             (ChatPage.splitSentences (ChatPage.InPiece (ChatPage.isSentenceEnd c)) r)).
Proof.
  cbn [ChatPage.splitSentences].
  destruct st as [[|]|]; destruct (isWhiteSpace c); cbn [andb];
    try (left; now repeat split);
    try (right; left; now repeat split);
    right; right; repeat split; intros; congruence.
Qed.

Lemma extend_nonempty c pieces : ChatPage.extend c pieces <> [].
Proof. now destruct pieces. Qed.

Lemma splitSentences_nonempty s : forall st, ChatPage.splitSentences st s <> [].
Proof.
  induction s as [|c r IH]; intros st; [discriminate|].
  destruct (splitSentences_cases st c r) as [[_ [_ ->]] | [[_ [_ ->]] | [_ [_ ->]]]].
  - apply IH.
  - discriminate.
  - apply extend_nonempty.
Qed.

Lemma last_cons_nonempty (x : jsstring) l : l <> [] -> last (x :: l) [] = last l [].
Proof. now destruct l. Qed.

Lemma afterBreak_cons c pre : afterBreak pre -> afterBreak (c :: pre).
Proof.
  intros [u [e [w [-> [He [Hw Ha]]]]]]. exists (c :: u), e, w. now repeat split.
Qed.

(** The last piece of the split is a suffix of the text, and what comes
    before it ends with a sentence break. *)
Lemma splitSentences_last s : forall st,
  exists pre,
    s = pre ++ last (ChatPage.splitSentences st s) []
    /\ match ChatPage.splitSentences st s with
       | [_] =>
           match st with
           | ChatPage.InPiece _ => pre = []
           | ChatPage.InSeparator => forallb isWhiteSpace pre = true
           end
       | _ =>
           (st = ChatPage.InPiece true /\ pre <> [] /\ forallb isWhiteSpace pre = true)
           \/ afterBreak pre
       end.
Proof.
  induction s as [|c r IH]; intros st.
  - exists []. split; [reflexivity|]. now destruct st.
  - destruct (splitSentences_cases st c r) as [[-> [Hc ->]] | [[-> [Hc ->]] | [Hs [Hp ->]]]].
    + destruct (IH ChatPage.InSeparator) as [pre [Hr Hk]]. exists (c :: pre).
      split; [cbn [app]; now rewrite <- Hr|].
      destruct (ChatPage.splitSentences ChatPage.InSeparator r) as [|p [|q l]].
      * destruct Hk as [[H _]|H]; [discriminate | right; now apply afterBreak_cons].
      * cbn [forallb]. now rewrite Hc, Hk.
      * destruct Hk as [[H _]|H]; [discriminate | right; now apply afterBreak_cons].
    + destruct (IH ChatPage.InSeparator) as [pre [Hr Hk]]. exists (c :: pre).
      rewrite (last_cons_nonempty _ _ (splitSentences_nonempty r _)).
      split; [cbn [app]; now rewrite <- Hr|].
      pose proof (splitSentences_nonempty r ChatPage.InSeparator) as Hne.
      destruct (ChatPage.splitSentences ChatPage.InSeparator r) as [|p [|q l]];
        [contradiction | |].
      * left. split; [reflexivity|]. split; [discriminate|].
        cbn [forallb]. now rewrite Hc, Hk.
      * destruct Hk as [[H _]|H]; [discriminate | right; now apply afterBreak_cons].
    + destruct (IH (ChatPage.InPiece (ChatPage.isSentenceEnd c))) as [pre [Hr Hk]].
      pose proof (splitSentences_nonempty r (ChatPage.InPiece (ChatPage.isSentenceEnd c)))
        as Hne.
      destruct (ChatPage.splitSentences (ChatPage.InPiece (ChatPage.isSentenceEnd c)) r)
        as [|p [|q l]]; [contradiction | |].
      * subst pre. cbn [app last] in Hr. subst p. exists []. cbn [ChatPage.extend last app].
        split; [reflexivity|]. now destruct st.
      * exists (c :: pre). cbn [ChatPage.extend].
        change (last ((c :: p) :: q :: l) []) with (last (p :: q :: l) []).
        split; [cbn [app]; now rewrite <- Hr|]. right.
        destruct Hk as [[Hb [Hn Hw]] | H]; [|now apply afterBreak_cons].
        injection Hb as Hb. exists [], c, pre. now repeat split.
Qed.

(** Every piece after the first starts with a character that is no white
    space, and so does the first when the scan starts in a separator. *)
Lemma splitSentences_heads s : forall st,
  match ChatPage.splitSentences st s with
  | p :: rest => (st = ChatPage.InSeparator -> headNonSpace p) /\ Forall headNonSpace rest
  | [] => True
  end.
Proof.
  induction s as [|c r IH]; intros st; [now split|].
  destruct (splitSentences_cases st c r) as [[-> [Hc ->]] | [[-> [Hc ->]] | [Hs [Hp ->]]]].
  - apply IH.
  - split; [discriminate|]. specialize (IH ChatPage.InSeparator).
    destruct (ChatPage.splitSentences ChatPage.InSeparator r) as [|p rest]; [constructor|].
    destruct IH as [H1 H2]. constructor; [now apply H1 | exact H2].
  - specialize (IH (ChatPage.InPiece (ChatPage.isSentenceEnd c))).
    destruct (ChatPage.splitSentences _ r) as [|p rest]; cbn [ChatPage.extend].
    + split; [exact Hs | constructor].
    + split; [exact Hs | apply IH].
Qed.

(** No piece holds a sentence break. *)
Lemma splitSentences_no_break s : forall st,
  Forall (fun p => hasBreak p = false) (ChatPage.splitSentences st s)
  /\ (st = ChatPage.InPiece true ->
      match ChatPage.splitSentences st s with
      | p :: _ => headNonSpace p
      | [] => True
      end).
Proof.
  induction s as [|c r IH]; intros st.
  - split; [now repeat constructor | now intros _].
  - destruct (splitSentences_cases st c r) as [[-> [Hc ->]] | [[-> [Hc ->]] | [Hs [Hp ->]]]].
    + split; [apply IH | discriminate].
    + split; [constructor; [reflexivity | apply IH] | now intros _].
    + destruct (IH (ChatPage.InPiece (ChatPage.isSentenceEnd c))) as [Hall Hhead].
      destruct (ChatPage.splitSentences _ r) as [|p rest]; cbn [ChatPage.extend].
      * split; [now repeat constructor | exact Hp].
      * inversion Hall as [|? ? Hp0 Hrest]; subst. split; [|exact Hp].
        constructor; [|exact Hrest]. cbn [hasBreak]. rewrite Hp0, orb_false_r.
        destruct p as [|d p']; [reflexivity|].
        destruct (ChatPage.isSentenceEnd c) eqn:He; [|reflexivity].
        cbn [andb]. exact (Hhead eq_refl).
Qed.

Lemma last_In_nonempty (l : list jsstring) : l <> [] -> In (last l []) l.
Proof.
  induction l as [|x l IH]; [contradiction|]. intros _.
  destruct l as [|y l']; [now left|]. right. apply IH. discriminate.
Qed.

Lemma endsNonSpace_last s : endsNonSpace s -> isWhiteSpace (last s SPACE) = false /\ s <> [].
Proof.
  intros [z [d [-> Hd]]]. rewrite last_last. split; [exact Hd|].
  now destruct z.
Qed.

Lemma last_app_nonempty (pre l : jsstring) : l <> [] -> last (pre ++ l) SPACE = last l SPACE.
Proof.
  intros Hl. induction pre as [|c pre IH]; [reflexivity|].
  cbn [app]. destruct (pre ++ l) eqn:H; [|exact IH].
  apply app_eq_nil in H as [_ H]. contradiction.
Qed.

Lemma afterBreak_last pre : afterBreak pre -> isWhiteSpace (last pre SPACE) = true.
Proof.
  intros [u [e [w [-> [_ [Hw Ha]]]]]].
  change (u ++ e :: w) with (u ++ [e] ++ w). rewrite app_assoc.
  rewrite (last_app_nonempty _ w Hw).
  destruct (exists_last Hw) as [w' [d ->]]. rewrite last_last.
  rewrite forallb_app in Ha. apply andb_true_iff in Ha as [_ Ha].
  cbn [forallb] in Ha. now rewrite andb_true_r in Ha.
Qed.

(** The last piece of the split of a cleaned text. *)
Lemma cleaned_last_piece value :
  let cleaned := ChatPage.cleanWhitespace value in
  let piece := last (ChatPage.splitSentences (ChatPage.InPiece false) cleaned) [] in
  cleaned <> [] ->
  piece <> [] /\ trim piece = piece
  /\ exists pre, cleaned = pre ++ piece /\ (pre = [] \/ afterBreak pre).
Proof.
  cbv zeta. intros Hne.
  destruct (trim_shape (collapseSpaces value)) as [H | [Hh He]];
    [now rewrite <- cleanWhitespace_unfold in H|].
  rewrite <- cleanWhitespace_unfold in Hh, He.
  destruct (endsNonSpace_last _ He) as [Hl _].
  destruct (splitSentences_last (ChatPage.cleanWhitespace value) (ChatPage.InPiece false))
    as [pre [Hs Hk]].
  pose proof (splitSentences_heads (ChatPage.cleanWhitespace value) (ChatPage.InPiece false))
    as Hheads.
  pose proof (splitSentences_nonempty (ChatPage.cleanWhitespace value) (ChatPage.InPiece false))
    as Hnn.
  destruct (ChatPage.splitSentences (ChatPage.InPiece false) (ChatPage.cleanWhitespace value))
    as [|p [|q l]] eqn:Hsplit; [contradiction | |].
  - subst pre. cbn [last app] in *. rewrite <- Hs.
    split; [exact Hne|]. split; [|exists []; split; [reflexivity | now left]].
    apply trim_fixed. destruct (ChatPage.cleanWhitespace value) as [|c r];
      [contradiction|]. cbn [trimmed headNonSpace] in *. now rewrite Hh, Hl.
  - destruct Hk as [[Hb _] | Hbrk]; [discriminate|].
    set (piece := last (p :: q :: l) []) in *.
    assert (Hpiece : piece <> []).
    { intros Hp. rewrite Hp, app_nil_r in Hs. rewrite Hs in Hl.
      now rewrite (afterBreak_last _ Hbrk) in Hl. }
    split; [exact Hpiece|]. split; [|exists pre; split; [exact Hs | now right]].
    assert (Hin : In piece (q :: l)).
    { unfold piece. change (last (p :: q :: l) []) with (last (q :: l) []).
      apply last_In_nonempty. discriminate. }
    destruct Hheads as [_ Hheads].
    pose proof (proj1 (Forall_forall _ _) Hheads piece Hin) as Hhp.
    apply trim_fixed. destruct piece as [|c r] eqn:Hp; [contradiction|].
    cbn [trimmed headNonSpace] in *. rewrite Hhp. cbn [negb andb].
    rewrite Hs, (last_app_nonempty pre (c :: r)) in Hl by discriminate.
    now rewrite Hl.
Qed.

(** X18.  The snippet of a citation is the last sentence of the text before
    it.  [extractRepresentativeSnippet] returns the empty string exactly for
    a text of white space alone; otherwise the snippet is the last piece of
    the sentence split of the cleaned text: it is not empty, has no white
    space at its ends, holds no sentence break, and the cleaned text is the
    snippet alone or a text ending in a sentence break and then the snippet.
    The window of the last 35 words in the function is never reached. *)
Theorem snippet_is_last_sentence value :
  let cleaned := ChatPage.cleanWhitespace value in
  let snippet := ChatPage.extractRepresentativeSnippet value in
  snippet = last (ChatPage.splitSentences (ChatPage.InPiece false) cleaned) []
  /\ (snippet = [] <-> cleaned = [])
  /\ trim snippet = snippet
  /\ hasBreak snippet = false
  /\ exists pre, cleaned = pre ++ snippet /\ (pre = [] \/ afterBreak pre).
Proof.
  cbv zeta.
  assert (Heq : ChatPage.extractRepresentativeSnippet value
                = last (ChatPage.splitSentences (ChatPage.InPiece false)
                          (ChatPage.cleanWhitespace value)) []).
  { unfold ChatPage.extractRepresentativeSnippet.
    destruct (ChatPage.cleanWhitespace value) as [|c r] eqn:Hc; [reflexivity|].
    cbn [isEmpty]. rewrite <- Hc.
    destruct (cleaned_last_piece value) as [Hne [Htrim _]]; [rewrite Hc; discriminate|].
    rewrite Htrim.
    destruct (last (ChatPage.splitSentences (ChatPage.InPiece false)
                      (ChatPage.cleanWhitespace value)) []); [contradiction|].
    reflexivity. }
  rewrite Heq. split; [reflexivity|].
  destruct (ChatPage.cleanWhitespace value) as [|c r] eqn:Hc.
  - cbn. repeat split. exists []. split; [reflexivity | now left].
  - rewrite <- Hc in *.
    destruct (cleaned_last_piece value) as [Hne [Htrim Hpre]]; [rewrite Hc; discriminate|].
    split; [split; intros H; [contradiction | now rewrite Hc in H]|].
    split; [exact Htrim|]. split; [|exact Hpre].
    pose proof (proj1 (splitSentences_no_break (ChatPage.cleanWhitespace value)
                         (ChatPage.InPiece false))) as Hall.
    apply (proj1 (Forall_forall _ _) Hall).
    apply last_In_nonempty, splitSentences_nonempty.
Qed.

(** ** The citations of a paragraph *)

Lemma slice_middle (pre gap post : jsstring) :
  slice (pre ++ gap ++ post) (Z.of_nat (length pre))
        (Z.of_nat (length pre) + Z.of_nat (length gap)) = gap.
Proof.
  unfold slice.
  replace (Z.to_nat (Z.of_nat (length pre) + Z.of_nat (length gap) - Z.of_nat (length pre)))
    with (length gap) by lia.
  rewrite Nat2Z.id, skipn_app, skipn_all, Nat.sub_diag. cbn [skipn app].
  now rewrite firstn_app, firstn_all, Nat.sub_diag, app_nil_r.
Qed.

Lemma citationDataFrom_assemble segments rest : forall pre,
  ChatPage.citationDataFrom (pre ++ assemble segments rest) (Z.of_nat (length pre))
    (matchesAt (Z.of_nat (length pre)) segments)
  = map (fun segment =>
           {| ChatPage.citationText := snd segment;
              ChatPage.snippet := ChatPage.extractRepresentativeSnippet (fst segment) |})
        segments.
Proof.
  induction segments as [|[gap citation] more IH]; intros pre; [reflexivity|].
  cbn [assemble matchesAt ChatPage.citationDataFrom ChatPage.index ChatPage.matched map
       fst snd].
  replace (0 <=? Z.of_nat (length pre) + Z.of_nat (length gap)) with true
    by (symmetry; apply Z.leb_le; lia).
  rewrite slice_middle. f_equal.
  specialize (IH (pre ++ gap ++ citation)).
  rewrite !length_app, !Nat2Z.inj_add, <- !app_assoc in IH.
  rewrite !Z.add_assoc in IH. exact IH.
Qed.

(** X19.  The snippet of each citation comes from the text before it.  For
    a paragraph made of texts each followed by a citation, and the matches
    of those citations at their positions, [buildCitationData] pairs every
    citation with the representative snippet of the text between the end of
    the previous citation (the start of the paragraph for the first) and the
    citation itself; what follows the last citation is not used. *)
Theorem citation_snippets_come_from_gaps segments rest :
  ChatPage.buildCitationData (assemble segments rest) (matchesAt 0 segments)
  = map (fun segment =>
           {| ChatPage.citationText := snd segment;
              ChatPage.snippet := ChatPage.extractRepresentativeSnippet (fst segment) |})
        segments.
Proof. exact (citationDataFrom_assemble segments rest []). Qed.

(** ** The request of the chat page *)

Lemma destructure_highlightRequest orgUrl source pageNumber snippet :
  destructure (ChatPage.highlightRequest orgUrl source pageNumber snippet)
  = {| filename := VStr source;
       page := ChatPage.jsonNumber pageNumber;
       answerSnippet := VStr (match snippet with Some s => s | None => [] end);
       orgUrl := VStr orgUrl |}.
Proof. reflexivity. Qed.

Lemma jsonNumber_defined n : isUndefined (ChatPage.jsonNumber n) = false.
Proof. unfold ChatPage.jsonNumber. now destruct (isFiniteNum n). Qed.

(** X20.  The requests of the chat page and the validation of the handlers.
    The body [handleShowSource] posts always has a string as answer snippet
    and a page that is a number or null, so the request log of the revision
    with logging can be evaluated and the page test never fails: the request
    is answered with 400, and without a query, exactly when the source of the
    citation is empty; and route.ts never answers it with 500 "Internal
    server error". *)
Theorem chat_request_is_well_formed r E W orgUrl source pageNumber snippet :
  let b := ChatPage.highlightRequest orgUrl source pageNumber snippet in
  logsRequest r (destructure b)
  /\ (exists s, answerSnippet (destructure b) = VStr s)
  /\ (source = [] -> POSTOf r E W (Some b) = (Resp400 FilenameAndPageRequired, []))
  /\ (source <> [] -> statusOf (fst (POSTOf r E W (Some b))) <> 400)
  /\ fst (POSTOf RouteTs E W (Some b)) <> Resp500 InternalServerError.
Proof.
  cbv zeta. rewrite destructure_highlightRequest.
  split; [intros _; reflexivity|]. split; [eexists; reflexivity|].
  assert (Hv : source <> [] ->
               passesValidation
                 (destructure (ChatPage.highlightRequest orgUrl source pageNumber snippet))).
  { intros Hs. rewrite destructure_highlightRequest. split; cbn [filename page].
    - now destruct source.
    - apply jsonNumber_defined. }
  assert (Hl : forall r', logsRequest r'
                 (destructure (ChatPage.highlightRequest orgUrl source pageNumber snippet)))
    by (intros r' _; reflexivity).
  split; [|split].
  - intros ->. destruct r; reflexivity.
  - intros Hs. destruct (POST_stops_early r E W
                           (ChatPage.highlightRequest orgUrl source pageNumber snippet))
      as [[_ [_ Hcfg]] | [_ [[_ Hn] | [[_ Hn] | [-> _]]]]];
      [| now destruct (Hn (Hl r)) | now destruct (Hn (Hv Hs)) | discriminate].
    rewrite (POST_past_validation r E W _ (Hv Hs) Hcfg (Hl r)).
    destruct (candidatesOf r E W _) as [[chunks|] trace]; [|discriminate].
    destruct (isNil chunks); [discriminate|]. cbn [fst].
    destruct (resolveOf_cases r E W
                (answerSnippet (destructure
                   (ChatPage.highlightRequest orgUrl source pageNumber snippet))) chunks)
      as [H | [h H]]; rewrite H; discriminate.
  - destruct (POST_stops_early RouteTs E W
                (ChatPage.highlightRequest orgUrl source pageNumber snippet))
      as [[_ [Hv' Hcfg]] | [_ [[_ Hn] | [[-> _] | [-> _]]]]];
      [| now destruct (Hn (Hl RouteTs)) | discriminate | discriminate].
    rewrite (POST_past_validation RouteTs E W _ Hv' Hcfg (Hl RouteTs)).
    destruct (candidatesOf RouteTs E W _) as [[chunks|] trace]; [|discriminate].
    destruct (isNil chunks); [discriminate|]. cbn [fst resolveOf].
    rewrite destructure_highlightRequest. cbn [answerSnippet].
    destruct (directFirst_resolve_string E W
                (match snippet with Some s => s | None => [] end) chunks) as [h ->].
    discriminate.
Qed.

(** ** The state of the viewer *)

Lemma nonBlankTexts_spec texts l :
  nonBlankTexts texts = Some l ->
  l <> [] /\ Forall (fun t => trim t <> []) l
  /\ l = filter (fun t => negb (ChatPage.isBlank t)) texts.
Proof.
  unfold nonBlankTexts.
  destruct (filter (fun t => negb (ChatPage.isBlank t)) texts) as [|x kept] eqn:Hf;
    [discriminate|].
  cbn [isNil]. intros [= <-]. split; [discriminate|]. split; [|reflexivity].
  rewrite <- Hf. apply Forall_forall. intros t Ht. apply filter_In in Ht as [_ Ht].
  apply negb_true_iff in Ht. now apply isEmpty_false.
Qed.

(** X21.  From the response of a handler to the state of the viewer.  When
    a handler answers with the located candidates, the chat page keeps as
    fallback chunks the contents of the candidates that are not blank, in
    the order of the locator, and none when all are blank; it shows one
    highlight snippet, the trimmed text of the highlight, exactly when the
    handler returned a highlight whose text is not blank; a blank highlight
    is dropped.  Any answer that is not a 200 leaves the viewer without
    highlight and without fallback. *)
Theorem viewer_state_from_response r E W a chunks h cs
    (answered : catchTo500 (resolveOf r E W a chunks) = Resp200 h cs) :
  let st := ChatPage.stateOfResponse (Resp200 h cs) in
  ChatPage.fallbackChunks st = nonBlankTexts (map contentOf chunks)
  /\ (forall l, ChatPage.fallbackChunks st = Some l ->
        l <> [] /\ Forall (fun t => trim t <> []) l)
  /\ ChatPage.highlightSnippets st
     = match h with
       | Some hl => if ChatPage.isBlank (text hl) then None else Some [trim (text hl)]
       | None => None
       end
  /\ (forall response, statusOf response <> 200 ->
        ChatPage.stateOfResponse response = ChatPage.openedState).
Proof.
  cbv zeta.
  assert (Hcs : map s_text cs = map contentOf chunks).
  { destruct (resolveOf_cases r E W a chunks) as [H | [h' H]];
      rewrite H in answered; [discriminate|].
    injection answered as _ <-. unfold serializeChunks. rewrite map_map. reflexivity. }
  assert (Hfb : ChatPage.fallbackChunks (ChatPage.stateOfResponse (Resp200 h cs))
                = nonBlankTexts (map contentOf chunks)).
  { rewrite <- Hcs. unfold ChatPage.stateOfResponse, nonBlankTexts.
    destruct h as [hl|]; cbn [option_map]; [destruct (isEmpty (trim (text hl)))|];
      reflexivity. }
  split; [exact Hfb|]. split; [|split].
  - intros l Hl. rewrite Hfb in Hl. destruct (nonBlankTexts_spec _ _ Hl) as [H1 [H2 _]].
    now split.
  - unfold ChatPage.stateOfResponse, ChatPage.isBlank.
    destruct h as [hl|]; cbn [option_map]; [destruct (isEmpty (trim (text hl)))|];
      reflexivity.
  - intros [h' cs'| |] Hst; [now destruct Hst | reflexivity | reflexivity].
Qed.

Lemma viewer_state_from_response_witness :
  ChatPage.highlightSnippets
    (ChatPage.stateOfResponse
       (Resp200 (Some {| text := sandwichSpan; chunkId := 1 |})
                (serializeChunks sandwichEngine [sandwichChunk])))
  = Some [sandwichSpan].
Proof.
  exact (proj1 (proj2 (proj2
           (viewer_state_from_response Normalizing sandwichEngine sandwichWorld paraphrase
              [sandwichChunk] (Some {| text := sandwichSpan; chunkId := 1 |})
              (serializeChunks sandwichEngine [sandwichChunk]) eq_refl)))).
Defined.

(** ** The viewer *)

(** X22.  Paging stays in the document.  With the document loaded and the
    page in [1, numPages], the previous and next page stay in that range,
    the first page is its own previous page and the last page its own next
    page.  Before the document is loaded (or for a document of no page) the
    next page is the current one; a page beyond the end goes back to the last
    page, and the previous page is never below 1. *)
Theorem paging_stays_in_document numPages prev
    (loaded : 1 <= numPages)
    (in_range : 1 <= prev <= numPages) :
  1 <= PdfViewer.goToPrevPage prev <= numPages
  /\ 1 <= PdfViewer.goToNextPage (Some numPages) prev <= numPages
  /\ PdfViewer.goToPrevPage 1 = 1
  /\ PdfViewer.goToNextPage (Some numPages) numPages = numPages
  /\ (forall p, PdfViewer.goToNextPage None p = p
                /\ PdfViewer.goToNextPage (Some 0) p = p
                /\ 1 <= PdfViewer.goToPrevPage p)
  /\ (forall p, numPages <= p -> PdfViewer.goToNextPage (Some numPages) p = numPages).
Proof.
  unfold PdfViewer.goToPrevPage, PdfViewer.goToNextPage.
  assert (Hn : (numPages =? 0) = false) by (apply Z.eqb_neq; lia).
  rewrite Hn. cbn [Z.eqb]. repeat split; try lia.
Qed.

Lemma paging_stays_in_document_witness :
  1 <= PdfViewer.goToPrevPage 2 <= 3
  /\ 1 <= PdfViewer.goToNextPage (Some 3) 2 <= 3.
Proof.
  destruct (paging_stays_in_document 3 2 ltac:(lia) ltac:(lia)) as [H1 [H2 _]].
  now split.
Defined.

(** ** The highlights of the text layer *)

Section TextLayer.

Variable E : Engine.
Variable spans : list jsstring.

Lemma has_spec st k : PdfViewer.has st k = true <-> In k (PdfViewer.highlighted st).
Proof.
  unfold PdfViewer.has. rewrite existsb_exists. split.
  - intros [x [Hx Hk]]. apply Nat.eqb_eq in Hk. now subst.
  - intros H. exists k. split; [exact H | apply Nat.eqb_refl].
Qed.

Lemma mark_consistent st k :
  consistentLayer E spans st -> PdfViewer.has st k = false -> visibleSpan E spans k ->
  consistentLayer E spans (PdfViewer.mark k st).
Proof.
  intros [Hnd [Hc Hv]] Hh Hk. unfold consistentLayer, PdfViewer.mark.
  cbn [PdfViewer.highlighted PdfViewer.totalHighlights]. split; [|split].
  - apply NoDup_app; [exact Hnd | repeat constructor; intros [] |].
    intros x Hx [<-|[]]. apply has_spec in Hx. congruence.
  - rewrite length_app. cbn [length]. lia.
  - apply Forall_app. split; [exact Hv | now constructor].
Qed.

Lemma markNew_consistent st k :
  consistentLayer E spans st -> visibleSpan E spans k ->
  consistentLayer E spans (PdfViewer.markNew st k).
Proof.
  intros Hst Hk. unfold PdfViewer.markNew.
  destruct (PdfViewer.has st k) eqn:Hh; [exact Hst | now apply mark_consistent].
Qed.

Lemma fold_markNew_consistent seq : forall st,
  consistentLayer E spans st -> Forall (visibleSpan E spans) seq ->
  consistentLayer E spans (fold_left PdfViewer.markNew seq st).
Proof.
  induction seq as [|k seq IH]; intros st Hst Hseq; [exact Hst|].
  inversion Hseq; subst. cbn [fold_left]. apply IH; [|assumption].
  now apply markNew_consistent.
Qed.

Lemma spansFrom_tail j span rest :
  spansFrom spans j (span :: rest) ->
  nth_error spans j = Some span /\ spansFrom spans (S j) rest.
Proof.
  intros H. split.
  - rewrite <- (Nat.add_0_r j). now apply (H 0%nat).
  - intros idx t Ht. replace (S j + idx)%nat with (j + S idx)%nat by lia.
    now apply (H (S idx)).
Qed.

Lemma spansFrom_all : spansFrom spans 0 spans.
Proof. intros idx t Ht. exact Ht. Qed.

Lemma long_visible span k :
  nth_error spans k = Some span ->
  (3 <? length (PdfViewer.normalize E span))%nat = true ->
  visibleSpan E spans k.
Proof.
  intros Hn Hl. exists span. split; [exact Hn|]. intros H. rewrite H in Hl. discriminate.
Qed.

Lemma growWindow_visible ns rest : forall seq combined j out,
  spansFrom spans j rest ->
  Forall (visibleSpan E spans) seq ->
  PdfViewer.growWindow E ns seq combined j rest = Some out ->
  Forall (visibleSpan E spans) out.
Proof.
  induction rest as [|span rest IH]; intros seq combined j out Hfrom Hseq; [discriminate|].
  destruct (spansFrom_tail _ _ _ Hfrom) as [Hj Hrest].
  cbn [PdfViewer.growWindow].
  destruct (isEmpty (PdfViewer.normalize E span)) eqn:Hb; [now apply IH|].
  assert (Hseq' : Forall (visibleSpan E spans) (seq ++ [j])).
  { apply Forall_app. split; [exact Hseq|]. constructor; [|constructor].
    exists span. split; [exact Hj | now apply isEmpty_false]. }
  destruct (length ns <=? length _)%nat.
  - destruct (includes _ ns); [|discriminate]. now intros [= <-].
  - now apply IH.
Qed.

Lemma findWindow_visible ns rest : forall i out,
  spansFrom spans i rest ->
  PdfViewer.findWindow E ns i rest = Some out ->
  Forall (visibleSpan E spans) out.
Proof.
  induction rest as [|span rest IH]; intros i out Hfrom; [discriminate|].
  cbn [PdfViewer.findWindow].
  destruct (PdfViewer.growWindow E ns [] [] i (span :: rest)) as [seq|] eqn:Hg.
  - intros [= <-]. now apply (growWindow_visible ns (span :: rest) [] [] i).
  - apply IH. now apply (spansFrom_tail _ _ _ Hfrom).
Qed.

Lemma markPartial_consistent ns rest : forall k st,
  spansFrom spans k rest -> consistentLayer E spans st ->
  consistentLayer E spans (PdfViewer.markPartial E ns k rest st).
Proof.
  induction rest as [|span rest IH]; intros k st Hfrom Hst; [exact Hst|].
  destruct (spansFrom_tail _ _ _ Hfrom) as [Hk Hrest].
  cbn [PdfViewer.markPartial].
  destruct (PdfViewer.has st k) eqn:Hh; [now apply IH|].
  destruct (3 <? length (PdfViewer.normalize E span))%nat eqn:Hl; cbn [andb];
    [|now apply IH].
  destruct (includes ns _); [|now apply IH].
  apply IH; [exact Hrest|]. apply mark_consistent; [exact Hst | exact Hh|].
  now apply (long_visible span).
Qed.

Lemma markChunk_consistent nc rest : forall k st,
  spansFrom spans k rest -> consistentLayer E spans st ->
  consistentLayer E spans (PdfViewer.markChunk E nc k rest st).
Proof.
  induction rest as [|span rest IH]; intros k st Hfrom Hst; [exact Hst|].
  destruct (spansFrom_tail _ _ _ Hfrom) as [Hk Hrest].
  cbn [PdfViewer.markChunk].
  destruct (3 <? length (PdfViewer.normalize E span))%nat eqn:Hl; cbn [andb];
    [|now apply IH].
  destruct (includes nc _); cbn [andb]; [|now apply IH].
  destruct (PdfViewer.has st k) eqn:Hh; cbn [negb]; [now apply IH|].
  apply IH; [exact Hrest|]. apply mark_consistent; [exact Hst | exact Hh|].
  now apply (long_visible span).
Qed.

Lemma highlightSnippet_consistent st snippet :
  consistentLayer E spans st ->
  consistentLayer E spans (PdfViewer.highlightSnippet E spans st snippet).
Proof.
  intros Hst. unfold PdfViewer.highlightSnippet.
  destruct (isEmpty (PdfViewer.normalize E snippet)); [exact Hst|].
  destruct (PdfViewer.findWindow E _ 0 spans) as [seq|] eqn:Hw.
  - apply fold_markNew_consistent; [exact Hst|].
    exact (findWindow_visible _ spans 0 seq spansFrom_all Hw).
  - now apply markPartial_consistent; [apply spansFrom_all|].
Qed.

Lemma highlightChunk_consistent st chunk :
  consistentLayer E spans st ->
  consistentLayer E spans (PdfViewer.highlightChunk E spans st chunk).
Proof.
  intros Hst. unfold PdfViewer.highlightChunk.
  destruct (isEmpty (PdfViewer.normalize E chunk)); [exact Hst|].
  now apply markChunk_consistent; [apply spansFrom_all|].
Qed.

Lemma fold_consistent (f : PdfViewer.Layer -> jsstring -> PdfViewer.Layer) l :
  (forall st x, consistentLayer E spans st -> consistentLayer E spans (f st x)) ->
  forall st, consistentLayer E spans st -> consistentLayer E spans (fold_left f l st).
Proof.
  intros Hf. induction l as [|x l IH]; intros st Hst; [exact Hst|].
  cbn [fold_left]. apply IH. now apply Hf.
Qed.

Lemma noHighlight_consistent : consistentLayer E spans PdfViewer.noHighlight.
Proof. repeat split; constructor. Qed.

Lemma highlightTextLayer_consistent highlightSnippets fallbackChunks :
  consistentLayer E spans
    (PdfViewer.highlightTextLayer E (Some spans) highlightSnippets fallbackChunks).
Proof.
  unfold PdfViewer.highlightTextLayer.
  destruct (PdfViewer.missing highlightSnippets); cbn [andb negb].
  - destruct (PdfViewer.missing fallbackChunks); cbn [negb];
      [apply noHighlight_consistent|].
    apply fold_consistent; [apply highlightChunk_consistent | apply noHighlight_consistent].
  - apply fold_consistent; [apply highlightSnippet_consistent | apply noHighlight_consistent].
Qed.

End TextLayer.

(** X23.  The bookkeeping of the viewer.  Whatever the snippets, the
    fallback chunks and the text layer: no span is highlighted twice, the
    count the viewer logs is the number of highlighted spans, and every
    highlighted span is a span of the layer whose text is not blank; without
    a text layer, or without snippets and chunks, nothing is highlighted. *)
Theorem highlight_bookkeeping E textLayer highlightSnippets fallbackChunks :
  let st := PdfViewer.highlightTextLayer E textLayer highlightSnippets fallbackChunks in
  NoDup (PdfViewer.highlighted st)
  /\ PdfViewer.totalHighlights st = length (PdfViewer.highlighted st)
  /\ (forall k, In k (PdfViewer.highlighted st) ->
        exists spans, textLayer = Some spans /\ visibleSpan E spans k)
  /\ (textLayer = None
      \/ (PdfViewer.missing highlightSnippets = true
          /\ PdfViewer.missing fallbackChunks = true) ->
      st = PdfViewer.noHighlight).
Proof.
  cbv zeta. destruct textLayer as [spans|].
  - destruct (highlightTextLayer_consistent E spans highlightSnippets fallbackChunks)
      as [H1 [H2 H3]].
    split; [exact H1|]. split; [exact H2|]. split.
    + intros k Hk. exists spans. split; [reflexivity|].
      exact (proj1 (Forall_forall _ _) H3 k Hk).
    + intros [H | [Hs Hc]]; [discriminate|].
      unfold PdfViewer.highlightTextLayer. now rewrite Hs, Hc.
  - assert (H : PdfViewer.highlightTextLayer E None highlightSnippets fallbackChunks
                = PdfViewer.noHighlight).
    { unfold PdfViewer.highlightTextLayer.
      now destruct (PdfViewer.missing highlightSnippets && PdfViewer.missing fallbackChunks). }
    rewrite H. split; [constructor|]. split; [reflexivity|]. split; [intros k []|].
    now intros _.
Qed.

Section TextLayerModes.

Variable E : Engine.
Variable spans : list jsstring.

Lemma fold_markNew_In seq k : forall st,
  In k (PdfViewer.highlighted (fold_left PdfViewer.markNew seq st))
  <-> In k (PdfViewer.highlighted st) \/ In k seq.
Proof.
  induction seq as [|x seq IH]; intros st; cbn [fold_left In]; [tauto|].
  rewrite IH. unfold PdfViewer.markNew.
  destruct (PdfViewer.has st x) eqn:Hh.
  - apply has_spec in Hh. split; [tauto|]. intros [H | [<- | H]]; tauto.
  - cbn [PdfViewer.mark PdfViewer.highlighted]. rewrite in_app_iff. cbn [In]. tauto.
Qed.

Lemma windowOf_app seq texts k span :
  windowOf E spans seq texts ->
  nth_error spans k = Some span -> PdfViewer.normalize E span <> [] ->
  windowOf E spans (seq ++ [k]) (texts ++ [span]).
Proof.
  intros Hw Hk Hn. apply Forall2_app; [exact Hw|]. now repeat constructor.
Qed.

Lemma combineSpans_app combined texts span :
  combineSpans E combined (texts ++ [span])
  = trim (combineSpans E combined texts ++ [SPACE] ++ PdfViewer.normalize E span).
Proof. unfold combineSpans. now rewrite fold_left_app. Qed.

Lemma growWindow_sound ns rest : forall seq texts j out,
  spansFrom spans j rest ->
  windowOf E spans seq texts ->
  PdfViewer.growWindow E ns seq (combineSpans E [] texts) j rest = Some out ->
  out <> []
  /\ exists texts', windowOf E spans out texts'
                    /\ includes (combineSpans E [] texts') ns = true.
Proof.
  induction rest as [|span rest IH]; intros seq texts j out Hfrom Hw; [discriminate|].
  destruct (spansFrom_tail _ _ _ _ Hfrom) as [Hj Hrest].
  cbn [PdfViewer.growWindow].
  destruct (isEmpty (PdfViewer.normalize E span)) eqn:Hb; [now apply IH|].
  apply isEmpty_false in Hb.
  pose proof (windowOf_app seq texts j span Hw Hj Hb) as Hw'.
  rewrite <- combineSpans_app.
  destruct (length ns <=? length _)%nat.
  - destruct (includes _ ns) eqn:Hi; [|discriminate]. intros [= <-].
    split; [now destruct seq|]. now exists (texts ++ [span]).
  - now apply IH.
Qed.

Lemma findWindow_sound ns rest : forall i out,
  spansFrom spans i rest ->
  PdfViewer.findWindow E ns i rest = Some out ->
  out <> []
  /\ exists texts, windowOf E spans out texts
                   /\ includes (combineSpans E [] texts) ns = true.
Proof.
  induction rest as [|span rest IH]; intros i out Hfrom; [discriminate|].
  cbn [PdfViewer.findWindow].
  destruct (PdfViewer.growWindow E ns [] [] i (span :: rest)) as [seq|] eqn:Hg.
  - intros [= <-].
    exact (growWindow_sound ns (span :: rest) [] [] i seq Hfrom (Forall2_nil _) Hg).
  - apply IH. now apply (spansFrom_tail _ _ _ _ Hfrom).
Qed.

Lemma markPartial_In ns x rest : forall k st,
  In x (PdfViewer.highlighted (PdfViewer.markPartial E ns k rest st))
  <-> In x (PdfViewer.highlighted st)
      \/ exists idx span, x = (k + idx)%nat /\ nth_error rest idx = Some span
                          /\ coveredBy E ns span = true.
Proof.
  induction rest as [|span rest IH]; intros k st.
  - cbn [PdfViewer.markPartial]. split; [tauto|].
    intros [H | [idx [t [_ [Hn _]]]]]; [exact H | now destruct idx].
  - cbn [PdfViewer.markPartial].
    assert (Hshift : (exists idx t, x = (k + idx)%nat /\ nth_error (span :: rest) idx = Some t
                                    /\ coveredBy E ns t = true)
                     <-> (x = k /\ coveredBy E ns span = true)
                         \/ exists idx t, x = (S k + idx)%nat /\ nth_error rest idx = Some t
                                          /\ coveredBy E ns t = true).
    { split.
      - intros [[|idx] [t [Hx [Hn Hc]]]].
        + injection Hn as <-. left. split; [lia | exact Hc].
        + right. exists idx, t. split; [lia | now split].
      - intros [[Hx Hc] | [idx [t [Hx [Hn Hc]]]]].
        + exists 0%nat, span. split; [lia | now split].
        + exists (S idx), t. split; [lia | now split]. }
    rewrite Hshift. fold (coveredBy E ns span).
    destruct (PdfViewer.has st k) eqn:Hh.
    + rewrite IH. apply has_spec in Hh. split; [tauto|].
      intros [H | [[-> _] | H]]; tauto.
    + destruct (coveredBy E ns span) eqn:Hc; rewrite IH.
      * cbn [PdfViewer.mark PdfViewer.highlighted]. rewrite in_app_iff. cbn [In].
        split; [intros [[H | [<- | []]] | H]; tauto|].
        intros [H | [[-> _] | H]]; tauto.
      * split; [tauto|]. intros [H | [[_ H] | H]]; [tauto | discriminate | tauto].
Qed.

Lemma markChunk_In nc x rest : forall k st,
  In x (PdfViewer.highlighted (PdfViewer.markChunk E nc k rest st))
  <-> In x (PdfViewer.highlighted st)
      \/ exists idx span, x = (k + idx)%nat /\ nth_error rest idx = Some span
                          /\ coveredBy E nc span = true.
Proof.
  induction rest as [|span rest IH]; intros k st.
  - cbn [PdfViewer.markChunk]. split; [tauto|].
    intros [H | [idx [t [_ [Hn _]]]]]; [exact H | now destruct idx].
  - cbn [PdfViewer.markChunk].
    assert (Hshift : (exists idx t, x = (k + idx)%nat /\ nth_error (span :: rest) idx = Some t
                                    /\ coveredBy E nc t = true)
                     <-> (x = k /\ coveredBy E nc span = true)
                         \/ exists idx t, x = (S k + idx)%nat /\ nth_error rest idx = Some t
                                          /\ coveredBy E nc t = true).
    { split.
      - intros [[|idx] [t [Hx [Hn Hc]]]].
        + injection Hn as <-. left. split; [lia | exact Hc].
        + right. exists idx, t. split; [lia | now split].
      - intros [[Hx Hc] | [idx [t [Hx [Hn Hc]]]]].
        + exists 0%nat, span. split; [lia | now split].
        + exists (S idx), t. split; [lia | now split]. }
    rewrite Hshift. fold (coveredBy E nc span).
    destruct (coveredBy E nc span) eqn:Hc; cbn [andb].
    + destruct (PdfViewer.has st k) eqn:Hh; cbn [negb]; rewrite IH.
      * apply has_spec in Hh. split; [tauto|]. intros [H | [[-> _] | H]]; tauto.
      * cbn [PdfViewer.mark PdfViewer.highlighted]. rewrite in_app_iff. cbn [In].
        split; [intros [[H | [<- | []]] | H]; tauto|].
        intros [H | [[-> _] | H]]; tauto.
    + rewrite IH. split; [tauto|]. intros [H | [[_ H] | H]]; [tauto | discriminate | tauto].
Qed.

Lemma coveredSpan_from_all nt x :
  (exists idx span, x = (0 + idx)%nat /\ nth_error spans idx = Some span
                    /\ coveredBy E nt span = true)
  <-> coveredSpan E spans nt x.
Proof.
  unfold coveredSpan. split.
  - intros [idx [span [-> [Hn Hc]]]]. now exists span.
  - intros [span [Hn Hc]]. now exists x, span.
Qed.

Lemma coveredBy_blank span : coveredBy E [] span = false.
Proof.
  unfold coveredBy. destruct (PdfViewer.normalize E span) as [|c r]; [reflexivity|].
  cbn [includes startsWith orb]. apply andb_false_r.
Qed.

Lemma highlightChunk_In st chunk x :
  In x (PdfViewer.highlighted (PdfViewer.highlightChunk E spans st chunk))
  <-> In x (PdfViewer.highlighted st)
      \/ coveredSpan E spans (PdfViewer.normalize E chunk) x.
Proof.
  unfold PdfViewer.highlightChunk.
  destruct (PdfViewer.normalize E chunk) as [|c r] eqn:Hn; cbn [isEmpty].
  - split; [tauto|]. intros [H | [span [_ Hc]]]; [exact H|].
    now rewrite coveredBy_blank in Hc.
  - now rewrite markChunk_In, coveredSpan_from_all.
Qed.

Lemma fold_highlightChunk_In chunks x : forall st,
  In x (PdfViewer.highlighted (fold_left (PdfViewer.highlightChunk E spans) chunks st))
  <-> In x (PdfViewer.highlighted st)
      \/ exists chunk, In chunk chunks
                       /\ coveredSpan E spans (PdfViewer.normalize E chunk) x.
Proof.
  induction chunks as [|chunk chunks IH]; intros st; cbn [fold_left].
  - split; [tauto|]. intros [H | [chunk [[] _]]]. exact H.
  - rewrite IH, highlightChunk_In. split.
    + intros [[H | H] | [c [Hin Hc]]]; [tauto | right; exists chunk; split; [now left | exact H]|].
      right. exists c. split; [now right | exact Hc].
    + intros [H | [c [[<- | Hin] Hc]]]; [tauto | tauto|]. right. now exists c.
Qed.

End TextLayerModes.

(** X24.  What one highlight snippet marks.  With one snippet, as the chat
    page passes it, the fallback chunks play no part.  A snippet that is
    blank once normalized marks nothing.  When the search finds a window,
    the window is not empty, its spans are spans of the layer that are not
    blank, the text combined from them holds the normalized snippet, and the
    highlighted spans are exactly those of the window.  When it finds none,
    the highlighted spans are exactly the spans whose normalized text is
    longer than three characters and occurs in the normalized snippet. *)
Theorem snippet_mode_highlights E spans snippet fallbackChunks k :
  let st := PdfViewer.highlightTextLayer E (Some spans) (Some [snippet]) fallbackChunks in
  st = PdfViewer.highlightSnippet E spans PdfViewer.noHighlight snippet
  /\ match PdfViewer.normalize E snippet with
     | [] => st = PdfViewer.noHighlight
     | _ :: _ =>
         match PdfViewer.findWindow E (PdfViewer.normalize E snippet) 0 spans with
         | Some seq =>
             seq <> []
             /\ (exists texts,
                   windowOf E spans seq texts
                   /\ includes (combineSpans E [] texts) (PdfViewer.normalize E snippet) = true)
             /\ (In k (PdfViewer.highlighted st) <-> In k seq)
         | None =>
             In k (PdfViewer.highlighted st)
             <-> coveredSpan E spans (PdfViewer.normalize E snippet) k
         end
     end.
Proof.
  cbv zeta.
  assert (Hst : PdfViewer.highlightTextLayer E (Some spans) (Some [snippet]) fallbackChunks
                = PdfViewer.highlightSnippet E spans PdfViewer.noHighlight snippet)
    by reflexivity.
  rewrite Hst. split; [reflexivity|]. unfold PdfViewer.highlightSnippet.
  destruct (PdfViewer.normalize E snippet) as [|c r] eqn:Hn; [reflexivity|].
  cbn [isEmpty]. destruct (PdfViewer.findWindow E (c :: r) 0 spans) as [seq|] eqn:Hw.
  - destruct (findWindow_sound E spans (c :: r) spans 0 seq (spansFrom_all spans) Hw)
      as [Hne Htexts].
    split; [exact Hne|]. split; [exact Htexts|].
    rewrite fold_markNew_In. cbn [PdfViewer.noHighlight PdfViewer.highlighted In]. tauto.
  - rewrite markPartial_In, coveredSpan_from_all.
    cbn [PdfViewer.noHighlight PdfViewer.highlighted In]. tauto.
Qed.

(** X25.  What the fallback chunks mark.  Without a highlight snippet, a
    span is highlighted exactly when its normalized text is longer than
    three characters and occurs in the normalized text of one of the
    fallback chunks; with a highlight snippet, the fallback chunks mark
    nothing of their own: the highlights are those of the snippets alone. *)
Theorem chunk_mode_highlights E spans chunks k :
  (In k (PdfViewer.highlighted (PdfViewer.highlightTextLayer E (Some spans) None (Some chunks)))
   <-> exists chunk, In chunk chunks
                     /\ coveredSpan E spans (PdfViewer.normalize E chunk) k)
  /\ (forall snippet snippets,
        PdfViewer.highlightTextLayer E (Some spans) (Some (snippet :: snippets)) (Some chunks)
        = PdfViewer.highlightTextLayer E (Some spans) (Some (snippet :: snippets)) None).
Proof.
  split; [|reflexivity].
  unfold PdfViewer.highlightTextLayer. cbn [PdfViewer.missing andb negb].
  destruct chunks as [|chunk chunks].
  - cbn [PdfViewer.missing PdfViewer.noHighlight PdfViewer.highlighted In].
    split; [tauto | now intros [chunk [[] _]]].
  - cbn [PdfViewer.missing negb PdfViewer.listOf]. rewrite fold_highlightChunk_In.
    cbn [PdfViewer.noHighlight PdfViewer.highlighted In]. tauto.
Qed.

(* ================================================================== *)
(** * From the citation to the text layer *)

Lemma stateOfResponse_snippet response t :
  ChatPage.highlightSnippets (ChatPage.stateOfResponse response) = Some [t] ->
  exists h cs, response = Resp200 (Some h) cs /\ t = trim (text h) /\ t <> [].
Proof.
  destruct response as [[h|] cs| |]; cbn [ChatPage.stateOfResponse option_map];
    try discriminate.
  destruct (isEmpty (trim (text h))) eqn:He; cbn [ChatPage.highlightSnippets];
    [discriminate|].
  intros [= <-]. exists h, cs. split; [reflexivity|]. split; [reflexivity|].
  now apply isEmpty_false.
Qed.

Lemma directFirst_resolve_verbatim E W a chunks h cs :
  catchTo500 (DirectFirst.resolve E W a chunks) = Resp200 (Some h) cs ->
  cs = serializeChunks E chunks
  /\ exists chunk, In chunk chunks /\ substring_of (text h) (contentOf chunk).
Proof.
  destruct (directFirst_resolve_cases E W a chunks) as [Hr | [[h' [Hfind Hr]] | Hr]];
    rewrite Hr; cbn [catchTo500]; [discriminate | |].
  - intros [= <- <-]. split; [reflexivity|].
    destruct (directFirst_find_raw E chunks _ h' Hfind) as [chunk [Hin [_ Hsub]]].
    now exists chunk.
  - intros [= Hstage <-]. split; [reflexivity|].
    apply (llmStageOf_extract RouteTs) in Hstage.
    destruct (extractSpan_sound _ E W _ chunks h Hstage)
      as [parsed [chunk [_ [[q [i [_ [_ [_ Hnth]]]]] [_ [_ [_ Hgate]]]]]]].
    exists chunk. split; [now apply (nth_error_In chunks i) | now apply includes_spec].
Qed.

Lemma trim_blank u : trim u = [] -> forallb isWhiteSpace u = true.
Proof.
  unfold trim. induction u as [|c r IH]; [reflexivity|].
  cbn [trimStart forallb]. destruct (isWhiteSpace c) eqn:Hc; [exact IH|].
  intros H. rewrite (trimEnd_cons_nonspace _ _ Hc) in H. discriminate.
Qed.

Lemma substring_nonblank t s : t <> [] -> trim t = t -> substring_of t s -> trim s <> [].
Proof.
  intros Hne Ht [pre [post ->]] Hs.
  apply trim_blank in Hs. rewrite !forallb_app in Hs.
  apply andb_true_iff in Hs as [_ Hs]. apply andb_true_iff in Hs as [Hs _].
  destruct (trim_shape t) as [H | [Hh _]]; rewrite Ht in *; [contradiction|].
  destruct t as [|c r]; [contradiction|]. cbn [headNonSpace forallb] in *.
  now rewrite Hh in Hs.
Qed.

(** X26.  From the click on a citation to the viewer, through route.ts.
    Whatever the store and the model return, a highlight snippet that
    [handleShowSource] hands to the viewer is not empty, has no white space
    at its ends, and occurs verbatim in the content of one of the located
    candidates; that content is among the fallback chunks the viewer is
    given with it, which are the contents of the candidates that are not
    blank. *)
Theorem shown_highlight_is_verbatim E W orgUrl source pageNumber snippet t
    (shown : ChatPage.highlightSnippets
               (ChatPage.handleShowSource (fun body => fst (DirectFirst.POST E W body))
                  orgUrl source pageNumber snippet) = Some [t]) :
  t <> [] /\ trim t = t
  /\ exists chunks trace chunk,
       candidatesOf RouteTs E W
         (destructure (ChatPage.highlightRequest orgUrl source pageNumber snippet))
       = (Some chunks, trace)
       /\ In chunk chunks
       /\ substring_of t (contentOf chunk)
       /\ exists kept,
            ChatPage.fallbackChunks
              (ChatPage.handleShowSource (fun body => fst (DirectFirst.POST E W body))
                 orgUrl source pageNumber snippet) = Some kept
            /\ kept = filter (fun c => negb (ChatPage.isBlank c)) (map contentOf chunks)
            /\ In (contentOf chunk) kept.
Proof.
  unfold ChatPage.handleShowSource in *.
  set (b := ChatPage.highlightRequest orgUrl source pageNumber snippet) in *.
  destruct (stateOfResponse_snippet _ _ shown) as [h [cs [Hresp [Ht Hne]]]].
  split; [exact Hne|]. split; [rewrite Ht; apply trim_idem|].
  change (DirectFirst.POST E W (Some b)) with (POSTOf RouteTs E W (Some b)) in *.
  destruct (POST_stops_early RouteTs E W b)
    as [[Hl [Hv Hcfg]] | [_ [[H _] | [[H _] | [H _]]]]];
    try (rewrite H in Hresp; discriminate).
  rewrite (POST_past_validation RouteTs E W b Hv Hcfg Hl) in Hresp |- *.
  destruct (candidatesOf RouteTs E W (destructure b)) as [[chunks|] trace];
    [|discriminate].
  destruct (isNil chunks); [discriminate|]. cbn [fst resolveOf] in Hresp |- *.
  destruct (directFirst_resolve_verbatim E W _ chunks h cs Hresp) as [-> [chunk [Hin Hsub]]].
  assert (Hsubt : substring_of t (contentOf chunk)).
  { apply (substring_of_trans _ (text h)); [|exact Hsub]. rewrite Ht. apply trim_substring. }
  exists chunks, trace, chunk. split; [reflexivity|]. split; [exact Hin|].
  split; [exact Hsubt|].
  assert (Hkeep : In (contentOf chunk)
                    (filter (fun c => negb (ChatPage.isBlank c)) (map contentOf chunks))).
  { apply filter_In. split; [now apply in_map|].
    apply negb_true_iff, isEmpty_false.
    apply (substring_nonblank t); [exact Hne | rewrite Ht; apply trim_idem | exact Hsubt]. }
  exists (filter (fun c => negb (ChatPage.isBlank c)) (map contentOf chunks)).
  split; [|split; [reflexivity | exact Hkeep]].
  rewrite Hresp. unfold ChatPage.stateOfResponse, serializeChunks. rewrite map_map.
  cbn [option_map]. change (fun x => s_text (serializeChunk E x)) with contentOf.
  destruct (filter (fun c => negb (ChatPage.isBlank c)) (map contentOf chunks)) as [|k ks];
    [destruct Hkeep|].
  cbn [isNil]. now destruct (isEmpty (trim (text h))).
Qed.

Lemma shown_highlight_is_verbatim_witness :
  lit "sandwich method reduces price resistance" <> []
  /\ trim (lit "sandwich method reduces price resistance")
     = lit "sandwich method reduces price resistance".
Proof.
  destruct (shown_highlight_is_verbatim (asciiEngine []) sandwichWorld (lit "acme")
              (lit "sales.pdf") (NFin 5) (Some sandwichSnippet)
              (lit "sandwich method reduces price resistance") eq_refl)
    as [H1 [H2 _]].
  now split.
Defined.
